(** * Tender RAG backend: chunk assembly, index store, retriever, summariser

    A shallow embedding of the Python sources
    [backend/adapters/docling.py], [backend/services/ingest.py],
    [backend/services/summarizer.py], [backend/adapters/llm_groq.py],
    [backend/services/index_store.py] and [backend/services/retriever.py],
    and of [backend/adapters/pdf.py], [backend/adapters/embeddings.py],
    the question and ingest handlers of [backend/app.py] and
    [scripts/build_kb_index.py], followed by the properties of the
    specification that concern them and by further properties of the code.

    Conventions.
    - A Python [str] is a list of Unicode code points ([list N]); [len] is
      the list length.  Literals are written [lit "..."].
    - A Python [int] is a [Z].
    - A function that can raise returns [option] (or a sum with the
      exception) and [None] stands for the exception leaving the function.
    - A [while] loop is a [Fixpoint] on a fuel argument; [None] then also
      stands for "fuel exhausted", and termination is proved separately.
    - Library functions ([json.loads], [re.search], [repr] of a string or
      of a float, the Groq client, faiss search) are section variables. *)

From Stdlib Require Import ZArith Lia String Ascii DecimalString DecimalZ Floats.
From stdpp Require Import list gmap sorting.

Set Warnings "-register-all".
Local Open Scope Z_scope.

(** ** Python strings *)

Abbreviation char := N (only parsing).
Abbreviation str := (list N) (only parsing).

Definition lit (s : string) : str :=
  map N_of_ascii (list_ascii_of_string s).

Definition len {A} (l : list A) : Z := Z.of_nat (length l).

(** [str.isspace] on one character, which is also what [str.strip()] and
    the regular-expression class [\s] use. *)
Definition is_space (c : char) : bool :=
  let c := Z.of_N c in
  ((9 <=? c) && (c <=? 13)) || ((28 <=? c) && (c <=? 32))
  || (c =? 133) || (c =? 160) || (c =? 5760)
  || ((8192 <=? c) && (c <=? 8202))
  || (c =? 8232) || (c =? 8233) || (c =? 8239) || (c =? 8287) || (c =? 12288).

Fixpoint lstrip_by (p : char -> bool) (s : str) : str :=
  match s with
  | c :: s' => if p c then lstrip_by p s' else s
  | [] => []
  end.

Definition rstrip_by (p : char -> bool) (s : str) : str :=
  reverse (lstrip_by p (reverse s)).

Definition strip_by (p : char -> bool) (s : str) : str :=
  rstrip_by p (lstrip_by p s).

Definition lstrip : str -> str := lstrip_by is_space.
Definition rstrip : str -> str := rstrip_by is_space.
(** [s.strip()] *)
Definition strip : str -> str := strip_by is_space.

(** [sep.join(parts)] *)
Fixpoint join (sep : str) (parts : list str) : str :=
  match parts with
  | [] => []
  | [p] => p
  | p :: rest => p ++ sep ++ join sep rest
  end.

(** [str(z)] for an [int]. *)
Definition str_of_int (z : Z) : str :=
  lit (NilZero.string_of_int (Z.to_int z)).

(** Python slices.  [py_index n i] is the position a slice bound [i]
    denotes in a sequence of length [n]: negative bounds count from the
    end and every bound is clamped to [0..n]. *)
Definition py_index (n i : Z) : Z :=
  if i <? 0 then Z.max 0 (n + i) else Z.min i n.

(** [l[lo:hi]] *)
Definition slice {A} (l : list A) (lo hi : Z) : list A :=
  let a := py_index (len l) lo in
  let b := py_index (len l) hi in
  take (Z.to_nat (b - a)) (drop (Z.to_nat a) l).

(** [l[lo:]] *)
Definition slice_from {A} (l : list A) (lo : Z) : list A :=
  drop (Z.to_nat (py_index (len l) lo)) l.

(** [l[:hi]] *)
Definition slice_to {A} (l : list A) (hi : Z) : list A :=
  take (Z.to_nat (py_index (len l) hi)) l.

(** ** [models/chunk.py] *)

Record Chunk := mkChunk {
  chunk_id : str;
  page : Z;
  text : str;
  section_hint : option str
}.

(** ** [services/ingest.py]: the page-window fallback *)

Module Ingest.

(** One pass through the body of the [while] loop of [simple_chunk_pages]
    at window start [start]: the chunk appended, and the next window start
    ([None] when the loop is left through [break]). *)
Definition window_body (page_num : Z) (text : str) (max_chars overlap start : Z)
  : Chunk * option Z :=
  let n := len text in
  let end_ := Z.min n (start + max_chars) in
  let chunk_text := slice text start end_ in
  let chunk_id := lit "p" ++ str_of_int page_num ++ lit "_" ++ str_of_int start in
  let c := mkChunk chunk_id page_num chunk_text None in
  if end_ =? n then (c, None)
  else
    let start := end_ - overlap in
    let start := if start <? 0 then 0 else start in
    (c, Some start).

(** The [while start < n] loop on one page. *)
Fixpoint page_windows (fuel : nat) (page_num : Z) (text : str)
    (max_chars overlap start : Z) : option (list Chunk) :=
  if start <? len text then
    match fuel with
    | O => None
    | S fuel =>
        let '(c, next) := window_body page_num text max_chars overlap start in
        match next with
        | None => Some [c]
        | Some start => cons c <$> page_windows fuel page_num text max_chars overlap start
        end
    end
  else Some [].

(** [simple_chunk_pages(pages, max_chars, overlap)]; the source's defaults
    are [max_chars = 2000] and [overlap = 200]. *)
Fixpoint simple_chunk_pages (fuel : nat) (pages : list (Z * str))
    (max_chars overlap : Z) : option (list Chunk) :=
  match pages with
  | [] => Some []
  | (page_num, text) :: pages =>
      match page_windows fuel page_num text max_chars overlap 0 with
      | None => None
      | Some cs => app cs <$> simple_chunk_pages fuel pages max_chars overlap
      end
  end.

End Ingest.

(** ** Python values

    The JSON-like values the parsing service, [json.loads] and
    [model_dump] hand to the code.  A [dict] keeps its insertion order, which
    is the order [obj.values()] iterates in. *)

Inductive pyval :=
  | PNone
  | PBool (b : bool)
  | PInt (z : Z)
  | PFloat (f : float)
  | PStr (s : str)
  | PList (l : list pyval)
  | PDict (d : list (str * pyval)).

(** What a call that may raise does. *)
Inductive outcome (A : Type) :=
  | Returns (a : A)
  | Raises.
Arguments Returns {A} a.
Arguments Raises {A}.

Definition nl : str := [10%N].

Definition str_eqb (a b : str) : bool := bool_decide (a = b).

(** [obj.get(k)] / [obj[k]] on a dict; [None] when the key is absent. *)
Fixpoint dict_get (d : list (str * pyval)) (k : str) : option pyval :=
  match d with
  | [] => None
  | (k', v) :: d => if str_eqb k' k then Some v else dict_get d k
  end.

(** [isinstance(v, int)]: [bool] is a subclass of [int]. *)
Definition as_int (v : pyval) : option Z :=
  match v with
  | PInt z => Some z
  | PBool b => Some (if b then 1 else 0)
  | _ => None
  end.

(** Truth value of a Python object, as [or] and [if] test it. *)
Definition truthy (v : pyval) : bool :=
  match v with
  | PNone => false
  | PBool b => b
  | PInt z => negb (z =? 0)
  | PFloat f => negb (PrimFloat.eqb f 0%float)
  | PStr s => negb (bool_decide (s = []))
  | PList l => negb (bool_decide (length l = 0%nat))
  | PDict d => negb (bool_decide (length d = 0%nat))
  end.

(** Iterating over a value with [for x in v]: [None] is the [TypeError]
    of a value that is not iterable. *)
Definition py_iter (v : pyval) : option (list pyval) :=
  match v with
  | PList l => Some l
  | PDict d => Some (map (fun kv => PStr (fst kv)) d)
  | PStr s => Some (map (fun c => PStr [c]) s)
  | _ => None
  end.

Section Repr.
(** [repr] of a string and of a float are the interpreter's. *)
Variable repr_str : str -> str.
Variable repr_float : float -> str.

Fixpoint py_repr (v : pyval) : str :=
  match v with
  | PNone => lit "None"
  | PBool true => lit "True"
  | PBool false => lit "False"
  | PInt z => str_of_int z
  | PFloat f => repr_float f
  | PStr s => repr_str s
  | PList l => lit "[" ++ join (lit ", ") (map py_repr l) ++ lit "]"
  | PDict d =>
      lit "{"
      ++ join (lit ", ")
           (map (fun kv => match kv with
                           | (k, x) => repr_str k ++ lit ": " ++ py_repr x
                           end) d)
      ++ lit "}"
  end.

(** [str(v)] *)
Definition py_str (v : pyval) : str :=
  match v with
  | PStr s => s
  | _ => py_repr v
  end.
End Repr.

(** ** [adapters/docling.py] *)

Module Docling.

(** A span yielded by the walker: [(text, page, section_path)]. *)
Definition span : Type := str * option Z * option str.

Definition span_text (sp : span) : str := fst (fst sp).
Definition span_page (sp : span) : option Z := snd (fst sp).
Definition span_path (sp : span) : option str := snd sp.

(** The first key of [keys] whose value in [d] is a string that is not
    blank, stripped: the loops over ["title", "heading", "name"] and over
    ["caption", "alt", "title"]. *)
Fixpoint first_stripped (keys : list str) (d : list (str * pyval)) : option str :=
  match keys with
  | [] => None
  | k :: keys =>
      match dict_get d k with
      | Some (PStr s) =>
          if bool_decide (strip s = []) then first_stripped keys d
          else Some (strip s)
      | _ => first_stripped keys d
      end
  end.

(** The first key of [keys] whose value in [d] is an [int]. *)
Fixpoint first_int (keys : list str) (d : list (str * pyval)) : option Z :=
  match keys with
  | [] => None
  | k :: keys =>
      match dict_get d k with
      | Some v =>
          match as_int v with
          | Some z => Some z
          | None => first_int keys d
          end
      | None => first_int keys d
      end
  end.

(** [obj.get("page") if isinstance(obj.get("page"), int) else None] *)
Definition page_of (d : list (str * pyval)) : option Z :=
  match dict_get d (lit "page") with
  | Some v => as_int v
  | None => None
  end.

(** [" > ".join(section_stack) if section_stack else dflt] *)
Definition path_or (section_stack : list str) (dflt : option str) : option str :=
  match section_stack with
  | [] => dflt
  | _ => Some (join (lit " > ") section_stack)
  end.

(** [x in {"figure", "image"}] hashes [x] first: a list or a dict is not
    hashable and the test raises [TypeError] ([None]). *)
Definition in_figure_kinds (v : pyval) : option bool :=
  match v with
  | PList _ | PDict _ => None
  | PStr s => Some (str_eqb s (lit "figure") || str_eqb s (lit "image"))
  | _ => Some false
  end.

Section Walker.
Variable repr_str : str -> str.
Variable repr_float : float -> str.

(** One row of a table: [" | ".join(str(c or "").strip() for c in r)]. *)
Definition table_line (r : list pyval) : str :=
  join (lit " | ")
    (map (fun c => strip (if truthy c then py_str repr_str repr_float c else [])) r).

(** The lines of a table: one per element of [rows] that is a list. *)
Fixpoint table_lines (rows : list pyval) : list str :=
  match rows with
  | [] => []
  | PList r :: rows => table_line r :: table_lines rows
  | _ :: rows => table_lines rows
  end.

(** The text node of a dict, if it has one. *)
Definition text_spans (d : list (str * pyval)) (section_stack : list str) : list span :=
  match dict_get d (lit "text") with
  | Some (PStr s) =>
      if bool_decide (strip s = []) then []
      else
        let page := first_int [lit "page"; lit "page_no"; lit "page_index"; lit "pageNumber"] d in
        [(strip s, page, path_or section_stack None)]
  | _ => []
  end.

(** The table node of a dict; an exception inside the [try] yields nothing. *)
Definition table_spans (d : list (str * pyval)) (section_stack : list str) : list span :=
  match dict_get d (lit "type"), dict_get d (lit "cells") with
  | Some (PStr ty), Some rows =>
      if str_eqb ty (lit "table") then
        match py_iter rows with
        | Some rows =>
            match table_lines rows with
            | [] => []
            | lines => [(join nl lines, page_of d, path_or section_stack (Some (lit "Table")))]
            end
        | None => []
        end
      else []
  | _, _ => []
  end.

(** The figure node of a dict; [None] is the [TypeError] of the set test. *)
Definition figure_spans (d : list (str * pyval)) (section_stack : list str)
  : option (list span) :=
  match in_figure_kinds (default PNone (dict_get d (lit "type"))) with
  | None => None
  | Some false => Some []
  | Some true =>
      match first_stripped [lit "caption"; lit "alt"; lit "title"] d with
      | Some cap => Some [(cap, page_of d, path_or section_stack (Some (lit "Figure")))]
      | None => Some []
      end
  end.

(** [_iter_text_nodes(obj, section_stack)]: the spans yielded, in order, and
    the section stack as the call leaves it (the list is shared with the
    caller and mutated in place).  [None] is an exception leaving the
    generator. *)
Fixpoint _iter_text_nodes (obj : pyval) (section_stack : list str)
  : option (list span * list str) :=
  match obj with
  | PDict d =>
      let title := first_stripped [lit "title"; lit "heading"; lit "name"] d in
      let section_stack :=
        match title with
        | Some t => section_stack ++ [t]
        | None => section_stack
        end in
      let own := text_spans d section_stack ++ table_spans d section_stack in
      match figure_spans d section_stack with
      | None => None
      | Some fig =>
          let fix values (kvs : list (str * pyval)) (section_stack : list str)
            : option (list span * list str) :=
            match kvs with
            | [] => Some ([], section_stack)
            | (_, v) :: kvs =>
                match _iter_text_nodes v section_stack with
                | None => None
                | Some (s1, section_stack) =>
                    match values kvs section_stack with
                    | None => None
                    | Some (s2, section_stack) => Some (s1 ++ s2, section_stack)
                    end
                end
            end in
          match values d section_stack with
          | None => None
          | Some (sub, section_stack) =>
              let section_stack :=
                match title with
                | Some _ => removelast section_stack
                | None => section_stack
                end in
              Some (own ++ fig ++ sub, section_stack)
          end
      end
  | PList l =>
      let fix items (l : list pyval) (section_stack : list str)
        : option (list span * list str) :=
        match l with
        | [] => Some ([], section_stack)
        | it :: l =>
            match _iter_text_nodes it section_stack with
            | None => None
            | Some (s1, section_stack) =>
                match items l section_stack with
                | None => None
                | Some (s2, section_stack) => Some (s1 ++ s2, section_stack)
                end
            end
        end in
      items l section_stack
  | _ => Some ([], section_stack)
  end.

End Walker.

(** What the code observes of the parsed document object [doc]: the
    attributes it probes with [hasattr] ([None]: no such attribute) and what
    calling them does, [json.dumps(doc, default=...)], and [str(doc)]. *)
Record docobj := mkDoc {
  doc_to_json : option (outcome pyval);
  doc_model_dump : option (outcome pyval);
  doc_dumps : outcome str;
  doc_str : str
}.

Section ToJson.
(** [json.loads]; [None] when it raises. *)
Variable json_loads : str -> option pyval.

(** The last resort of [_docling_to_json]:
    [json.loads(json.dumps(doc, default=...))], [None] on any exception. *)
Definition via_dumps (doc : docobj) : pyval :=
  match doc_dumps doc with
  | Returns s => default PNone (json_loads s)
  | Raises => PNone
  end.

(** The second attempt of [_docling_to_json]: [doc.model_dump()]. *)
Definition via_model_dump (doc : docobj) : pyval :=
  match doc_model_dump doc with
  | Some (Returns v) => v
  | _ => via_dumps doc
  end.

(** [_docling_to_json(doc)]; Python's [None] is [PNone]. *)
Definition _docling_to_json (doc : docobj) : pyval :=
  match doc_to_json doc with
  | Some (Returns (PStr raw)) =>
      match json_loads raw with
      | Some v => v
      | None => via_model_dump doc
      end
  | Some (Returns (PDict d)) => PDict d
  | _ => via_model_dump doc
  end.
End ToJson.

(** The loop state of [docling_to_chunks].  ([buf_pages] and [buf_paths]
    are only ever written by the source and are left out.) *)
Record merge_state := mkState {
  chunks : list Chunk;
  buf : list str;
  start : Z;
  cur_len : Z;
  current_path : option str;
  current_page : option Z
}.

Definition init_state : merge_state := mkState [] [] 0 0 None None.

(** [page or 1] *)
Definition page_or_1 (page : option Z) : Z :=
  match page with
  | None => 1
  | Some p => if p =? 0 then 1 else p
  end.

Definition sep : str := nl ++ nl.

(** The closure [flush(start_idx, page, path)]: the chunk list after it. *)
Definition flush (chunks : list Chunk) (buf : list str)
    (start_idx : Z) (page : option Z) (path : option str) : list Chunk :=
  match buf with
  | [] => chunks
  | _ =>
      let text := strip (join sep buf) in
      match text with
      | [] => chunks
      | _ =>
          let cid := lit "dl_" ++ str_of_int start_idx ++ lit "_" ++ str_of_int (len chunks) in
          chunks ++ [mkChunk cid (page_or_1 page) text path]
      end
  end.

Definition flush_state (st : merge_state) : list Chunk :=
  flush (chunks st) (buf st) (start st) (current_page st) (current_path st).

(** First half of the loop body for span [i]: a fresh buffer takes the
    span's path and page, a path change flushes, and the span is appended. *)
Definition accumulate (i : Z) (sp : span) (st : merge_state) : merge_state :=
  let '(t, p, path) := sp in
  let st :=
    match buf st with
    | [] => mkState (chunks st) (buf st) i (cur_len st) path p
    | _ => st
    end in
  let st :=
    if bool_decide (path <> current_path st) && negb (bool_decide (buf st = []))
    then mkState (flush_state st) [] i 0 path p
    else st in
  mkState (chunks st) (buf st ++ [t]) (start st) (cur_len st + len t)
          (current_path st) (current_page st).

(** Second half of the loop body: the flush on [cur_len >= max_chars] and
    the overlap seed. *)
Definition length_flush (i : Z) (sp : span) (max_chars overlap : Z)
    (st : merge_state) : merge_state :=
  let '(t, p, path) := sp in
  if max_chars <=? cur_len st then
    let chunks := flush_state st in
    if (0 <? overlap) && negb (bool_decide (buf st = [])) then
      let joined := join sep (buf st) in
      let tail := slice_from joined (- overlap) in
      mkState chunks [tail] i (len tail) path p
    else
      mkState chunks [] i 0 path p
  else st.

Definition merge_step (i : Z) (sp : span) (max_chars overlap : Z)
    (st : merge_state) : merge_state :=
  length_flush i sp max_chars overlap (accumulate i sp st).

(** [for i, (t, p, path) in enumerate(spans)], from index [i] on. *)
Fixpoint merge_loop (i : Z) (spans : list span) (max_chars overlap : Z)
    (st : merge_state) : merge_state :=
  match spans with
  | [] => st
  | sp :: spans =>
      merge_loop (i + 1) spans max_chars overlap (merge_step i sp max_chars overlap st)
  end.

(** The merge of the collected spans, with the final flush. *)
Definition merge_spans (spans : list span) (max_chars overlap : Z) : list Chunk :=
  flush_state (merge_loop 0 spans max_chars overlap init_state).

Section Chunks.
Variable repr_str : str -> str.
Variable repr_float : float -> str.
Variable json_loads : str -> option pyval.

(** The spans collected from the parsed structure: those with a text that
    is not empty. *)
Definition collect_spans (raw : pyval) : option (list span) :=
  match _iter_text_nodes repr_str repr_float raw [] with
  | None => None
  | Some (spans, _) =>
      Some (filter (fun sp => span_text sp <> []) spans)
  end.

(** [docling_to_chunks(doc, max_chars, overlap)]; the source's defaults are
    [max_chars = 2500] and [overlap = 200].  [None] is an exception. *)
Definition docling_to_chunks (doc : docobj) (max_chars overlap : Z)
  : option (list Chunk) :=
  match _docling_to_json json_loads doc with
  | PNone => Some [mkChunk (lit "dl_0") 1 (doc_str doc) None]
  | raw =>
      match collect_spans raw with
      | None => None
      | Some spans => Some (merge_spans spans max_chars overlap)
      end
  end.
End Chunks.

End Docling.

(** ** [adapters/llm_groq.py] *)

Module LlmGroq.

Section Client.
(** The Groq chat-completion call with [api_key], [model], [prompt],
    [temperature] and [max_tokens]: it raises (the import, the transport or
    the indexing of [choices] failed) or returns the message content, which
    may be [None]. *)
Variable groq_chat : str -> str -> str -> float -> Z -> outcome (option str).

(** [GroqLLM(api_key, model).complete(prompt, temperature, max_tokens)] *)
Definition complete (api_key model prompt : str) (temperature : float)
    (max_tokens : Z) : str :=
  match groq_chat api_key model prompt temperature max_tokens with
  | Returns (Some content) => content
  | Returns None => []
  | Raises => lit "Not found in tender"
  end.
End Client.

End LlmGroq.

(** ** [services/summarizer.py] *)

Module Summarizer.

Definition SUMMARY_FIELDS : list str :=
  [ lit "tender_name"; lit "issuer"; lit "emd_amount"; lit "location";
    lit "duration"; lit "scope_of_work"; lit "compliance_notes" ].

(** A value of the summary dict: [None], a string, or a list of strings. *)
Inductive sval :=
  | SNone
  | SStr (s : str)
  | SList (l : list str).

(** The summary dict, in the insertion order of its keys. *)
Definition summary : Type := list (str * sval).

(** [{k: None for k in SUMMARY_FIELDS}] *)
Definition all_none : summary := map (fun k => (k, SNone)) SUMMARY_FIELDS.

(** [build_summary_prompt(chunks)] with its default [max_chars = 8000]. *)
Definition chunk_span (c : Chunk) : str :=
  lit "[page " ++ str_of_int (page c) ++ lit " | " ++ chunk_id c ++ lit " | "
  ++ default [] (section_hint c) ++ lit "]" ++ nl ++ text c ++ nl ++ nl.

Fixpoint context_spans (chunks : list Chunk) (total max_chars : Z) : list str :=
  match chunks with
  | [] => []
  | c :: chunks =>
      let span := chunk_span c in
      if max_chars <? total + len span then []
      else span :: context_spans chunks (total + len span) max_chars
  end.

Definition instructions : str :=
  lit "You are a tender document analyzer. Extract the following fields as JSON with keys: "
  ++ join (lit ", ") SUMMARY_FIELDS
  ++ lit "." ++ nl
  ++ lit "- tender_name: Short name or title of the tender." ++ nl
  ++ lit "- issuer: The issuing organization." ++ nl
  ++ lit "- emd_amount: Earnest Money Deposit value (with currency in ruppees)." ++ nl
  ++ lit "- location: Primary location(s) of work." ++ nl
  ++ lit "- duration: Contract/project duration." ++ nl
  ++ lit "- scope_of_work: 1-3 sentence summary of key scope." ++ nl
  ++ lit "- compliance_notes: array of 3-8 short bullets for critical compliance/eligibility/financial terms."
  ++ nl ++ nl
  ++ lit "Return ONLY valid JSON. If a value is not found, use null (or [] for arrays).".

Definition build_summary_prompt (chunks : list Chunk) : str :=
  let context := concat (context_spans chunks 0 8000) in
  instructions ++ nl ++ nl ++ lit "Context:" ++ nl ++ context.

(** *** [_extract_json_block] *)

(** One pattern character against one text character under
    [re.IGNORECASE]: the ASCII letters match both cases, and [s] also
    matches U+017F. *)
Definition ci_matches (pat c : char) : bool :=
  let lower (x : N) : N :=
    if ((65 <=? x) && (x <=? 90))%N then (x + 32)%N else x in
  (lower pat =? lower c)%N || ((lower pat =? 115)%N && (c =? 383)%N).

Fixpoint starts_with_ci (pat s : str) : bool :=
  match pat, s with
  | [], _ => true
  | p :: pat, c :: s => ci_matches p c && starts_with_ci pat s
  | _ :: _, [] => false
  end.

Fixpoint starts_with (pat s : str) : bool :=
  match pat, s with
  | [], _ => true
  | p :: pat, c :: s => (p =? c)%N && starts_with pat s
  | _ :: _, [] => false
  end.

Definition lbrace : char := 123%N.
Definition rbrace : char := 125%N.
Definition fence : str := [96%N; 96%N; 96%N].

(** The lazy group body after the opening brace: the text up to the first
    closing brace that is followed by optional white space and a fence. *)
Fixpoint fence_body (s : str) : option str :=
  match s with
  | [] => None
  | c :: s =>
      if (c =? rbrace)%N && starts_with fence (lstrip s) then Some [c]
      else cons c <$> fence_body s
  end.

(** A match of the fenced pattern that starts exactly at the head of [s]:
    its group 1. *)
Definition fence_at (s : str) : option str :=
  if starts_with_ci (fence ++ lit "json") s then
    match lstrip (drop 7 s) with
    | c :: rest =>
        if (c =? lbrace)%N then cons c <$> fence_body rest else None
    | [] => None
    end
  else None.

(** [re.search] of the fenced pattern, case-insensitive: group 1 of the
    leftmost match. *)
Fixpoint search_fence (s : str) : option str :=
  match fence_at s with
  | Some g => Some g
  | None =>
      match s with
      | [] => None
      | _ :: s => search_fence s
      end
  end.

(** The brace-counting loop over [text[start:]], [depth] being the depth
    before the head of [s]: the characters up to the brace that closes. *)
Fixpoint brace_scan (s : str) (depth : Z) : option str :=
  match s with
  | [] => None
  | ch :: s =>
      if (ch =? lbrace)%N then cons ch <$> brace_scan s (depth + 1)
      else if (ch =? rbrace)%N then
        if depth - 1 =? 0 then Some [ch]
        else cons ch <$> brace_scan s (depth - 1)
      else cons ch <$> brace_scan s depth
  end.

(** [text[text.find("{"):]], [None] when [find] returns [-1]. *)
Fixpoint from_first_brace (s : str) : option str :=
  match s with
  | [] => None
  | c :: s' => if (c =? lbrace)%N then Some s else from_first_brace s'
  end.

Definition _extract_json_block (text : str) : option str :=
  match text with
  | [] => None
  | _ =>
      match search_fence text with
      | Some g => Some g
      | None =>
          match from_first_brace text with
          | None => None
          | Some s => brace_scan s 0
          end
      end
  end.

(** *** [_coerce_summary] and [_is_effectively_empty] *)

Section Coerce.
Variable repr_str : str -> str.
Variable repr_float : float -> str.

(** The list comprehension [[str(x) for x in v if x is not None]]. *)
Fixpoint notes_of (v : list pyval) : list str :=
  match v with
  | [] => []
  | PNone :: v => notes_of v
  | x :: v => py_str repr_str repr_float x :: notes_of v
  end.

(** The value [_coerce_summary] stores under key [k]. *)
Definition coerce_field (d : list (str * pyval)) (k : str) : sval :=
  let v := default PNone (dict_get d k) in
  if str_eqb k (lit "compliance_notes") then
    match v with
    | PList l => SList (notes_of l)
    | _ => SList []
    end
  else
    match v with
    | PNone => SNone
    | _ => SStr (py_str repr_str repr_float v)
    end.

Definition _coerce_summary (d : pyval) : summary :=
  match d with
  | PDict d => map (fun k => (k, coerce_field d k)) SUMMARY_FIELDS
  | _ => all_none
  end.
End Coerce.

(** [v not in (None, [], "")] *)
Definition non_null (v : sval) : bool :=
  match v with
  | SNone => false
  | SList [] => false
  | SStr [] => false
  | _ => true
  end.

Definition _is_effectively_empty (d : summary) : bool :=
  match d with
  | [] => true
  | _ => (len (filter (fun kv => non_null (snd kv) = true) d) =? 0)
  end.

(** *** [extract_summary_rules] *)

(** A match object: [group(0)], [group(1)] and [group(2)] ([None] for a
    group that did not take part in the match). *)
Record re_match := mkMatch {
  group0 : str;
  group1 : option str;
  group2 : option str
}.

(** [str.splitlines()] line boundaries other than the pair CR LF. *)
Definition is_linebreak (c : char) : bool :=
  let c := Z.of_N c in
  ((10 <=? c) && (c <=? 13)) || ((28 <=? c) && (c <=? 30))
  || (c =? 133) || (c =? 8232) || (c =? 8233).

(** [s.splitlines()], [cur] being the line read so far. *)
Fixpoint splitlines_from (s cur : str) : list str :=
  match s with
  | [] => match cur with [] => [] | _ => [cur] end
  | c :: s' =>
      if (c =? 13)%N then
        match s' with
        | 10%N :: s'' => cur :: splitlines_from s'' []
        | _ => cur :: splitlines_from s' []
        end
      else if is_linebreak c then cur :: splitlines_from s' []
      else splitlines_from s' (cur ++ [c])
  end.

Definition splitlines (s : str) : list str := splitlines_from s [].

(** The characters [line.strip(" -*•\t")] removes. *)
Definition is_bullet (c : char) : bool :=
  (c =? 32)%N || (c =? 45)%N || (c =? 42)%N || (c =? 8226)%N || (c =? 9)%N.

Definition pat_page : str := lit "\b(page\s*\d+|table of contents)\b".
Definition pat_issuer : str :=
  lit "\b(?:Corporation|Company|Department|Ministry|Government|Govt\.?|Ltd\.?|Limited|Authority|NMDC|BIOM)[:\s,\-]*([^\n]{3,80})".
Definition pat_emd : str :=
  lit "(?:EMD|Earnest Money(?: Deposit)?)[^\n:]*[:\-]?\s*(" ++ [8377%N]
  ++ lit "|INR|Rs\.?|RUPEES)?\s*([\d,]+(?:\.\d{1,2})?)".
Definition pat_duration : str :=
  lit "(?:Duration|Period)[^\n:]*[:\-]?\s*([\d]+\s*(?:day|month|year)s?)".
Definition pat_location : str :=
  lit "(?:Location|Place of work)[^\n:]*[:\-]?\s*([^\n]{3,80})".
Definition pat_scope : str := lit "Scope of Work[\s\-:]*([\s\S]{0,500})".
Definition pat_sentence_end : str := lit "(?<=[.!?])\s+".
Definition key_terms : list str :=
  [ lit "eligibility"; lit "turnover"; lit "experience"; lit "bid security";
    lit "emd"; lit "bank guarantee"; lit "penalty"; lit "liquidated damages" ].

Definition of_opt (o : option str) : sval :=
  match o with
  | Some s => SStr s
  | None => SNone
  end.

Section Rules.
(** [re.search(pattern, text, flags)], the flag being [re.I], and
    [re.split(pattern, text)]. *)
Variable re_search : str -> bool -> str -> option re_match.
Variable re_split : str -> str -> list str.

(** The loop that picks the tender name: the first line that, stripped,
    has 6 to 140 characters and is no page or contents line. *)
Fixpoint pick_tender_name (lines : list str) : option str :=
  match lines with
  | [] => None
  | line :: lines =>
      let s := strip line in
      if (6 <=? len s) && (len s <=? 140) then
        match re_search pat_page true s with
        | None => Some s
        | Some _ => pick_tender_name lines
        end
      else pick_tender_name lines
  end.

(** The loop that collects compliance notes, [notes] being those found so
    far; it breaks at the sixth. *)
Fixpoint pick_notes (lines : list str) (notes : list str) : list str :=
  match lines with
  | [] => notes
  | line :: lines =>
      let s := strip_by is_bullet line in
      if (6 <=? len s) && (len s <=? 160)
         && existsb (fun t => bool_decide (is_Some (re_search t true s))) key_terms
      then
        let notes := notes ++ [s] in
        if 6 <=? len notes then notes else pick_notes lines notes
      else pick_notes lines notes
  end.

Definition extract_summary_rules (chunks : list Chunk) : summary * list Chunk :=
  let head_chunks := slice_to chunks 5 in
  let body := join nl (map text head_chunks) in
  let tender_name := pick_tender_name (splitlines body) in
  let issuer :=
    match re_search pat_issuer true body with
    | Some m => Some (strip (group0 m))
    | None => None
    end in
  let emd_amount :=
    match re_search pat_emd true body with
    | Some m =>
        let cur := default [] (group1 m) in
        let val := default [] (group2 m) in
        Some (strip (cur ++ lit " " ++ val))
    | None => None
    end in
  let duration :=
    match re_search pat_duration true body with
    | Some m => group1 m
    | None => None
    end in
  let location :=
    match re_search pat_location true body with
    | Some m => Some (strip (default [] (group1 m)))
    | None => None
    end in
  let scope_of_work :=
    match re_search pat_scope true body with
    | Some m =>
        let snippet := strip (default [] (group1 m)) in
        let parts := re_split pat_sentence_end snippet in
        Some (slice_to (strip (join (lit " ") (slice_to parts 2))) 300)
    | None => None
    end in
  let compliance_notes := pick_notes (splitlines body) [] in
  ([ (lit "tender_name", of_opt tender_name);
     (lit "issuer", of_opt issuer);
     (lit "emd_amount", of_opt emd_amount);
     (lit "location", of_opt location);
     (lit "duration", of_opt duration);
     (lit "scope_of_work", of_opt scope_of_work);
     (lit "compliance_notes", SList compliance_notes) ],
   head_chunks).
End Rules.

(** *** [extract_summary_groq] *)

Section Engine.
Variable repr_str : str -> str.
Variable repr_float : float -> str.
Variable json_loads : str -> option pyval.
Variable re_search : str -> bool -> str -> option re_match.
Variable re_split : str -> str -> list str.
Variable groq_chat : str -> str -> str -> float -> Z -> outcome (option str).

(** [try: summary = _coerce_summary(json.loads(s)) except Exception: ...] *)
Definition parse_summary (s : str) : summary :=
  match json_loads s with
  | Some v => _coerce_summary repr_str repr_float v
  | None => all_none
  end.

(** The part of [extract_summary_groq] that follows the completion call,
    [raw] being the completion text. *)
Definition summary_of_raw (chunks : list Chunk) (raw : str) : summary * list Chunk :=
  let summary :=
    match _extract_json_block raw with
    | Some (c :: json_str) => parse_summary (c :: json_str)
    | _ => parse_summary raw
    end in
  if _is_effectively_empty summary then
    extract_summary_rules re_search re_split chunks
  else (summary, slice_to chunks 5).

(** [extract_summary_groq(chunks, api_key, model)] *)
Definition extract_summary_groq (chunks : list Chunk) (api_key model : str)
  : summary * list Chunk :=
  match chunks with
  | [] => (all_none, [])
  | _ =>
      let prompt := build_summary_prompt chunks in
      let raw := LlmGroq.complete groq_chat api_key model prompt 0%float 600 in
      summary_of_raw chunks raw
  end.
End Engine.

End Summarizer.

(** ** [services/index_store.py] *)

Module IndexStore.

(** [_safe_id]: slashes and backslashes become underscores. *)
Definition _safe_id (tender_id : str) : str :=
  map (fun c => if (c =? 47)%N || (c =? 92)%N then 95%N else c) tender_id.

(** A flat inner-product index: its dimension and the vectors added. *)
Record faiss_index := mkIndex {
  dim : Z;
  vectors : list (list float)
}.

Definition ntotal (ix : faiss_index) : Z := len (vectors ix).

(** What a file holds: the chunk records dumped as JSON, or a serialised
    index. *)
Inductive file :=
  | ChunksJson (records : list Chunk)
  | IndexFile (ix : faiss_index).

(** The files under the index root, by path. *)
Abbreviation store := (gmap (list N) file).

Inductive exn :=
  | ImportError
  | FileNotFoundError
  | IndexError
  | ValueError
  | JSONDecodeError
  | RuntimeError.

(** [Path(index_root) / sid / name] *)
Definition path_of (index_root sid name : str) : str :=
  index_root ++ lit "/" ++ sid ++ lit "/" ++ name.

Definition chunks_path (index_root tender_id : str) : str :=
  path_of index_root (_safe_id tender_id) (lit "chunks.json").

Definition index_path (index_root tender_id : str) : str :=
  path_of index_root (_safe_id tender_id) (lit "index.faiss").

(** [np.array(embeddings, dtype="float32").shape[1]]: the rows must have
    one common length, and there must be a row. *)
Definition shape1 (embeddings : list (list float)) : exn + Z :=
  match embeddings with
  | [] => inl IndexError
  | row :: rows =>
      if forallb (fun r => len r =? len row) rows then inr (len row)
      else inl ValueError
  end.

Section Store.
(** Whether [import faiss] succeeds. *)
Variable faiss_available : bool.
(** The conversion of one row to float32 followed by [faiss.normalize_L2]. *)
Variable normalize_L2 : list float -> list float.

(** [save_index(index_root, tender_id, chunks, embeddings)]: the store
    after the call and the exception it raised, if any. *)
Definition save_index (fs : store) (index_root tender_id : str)
    (chunks : list Chunk) (embeddings : list (list float)) : store * option exn :=
  if negb faiss_available then (fs, Some ImportError)
  else
    let fs := <[chunks_path index_root tender_id := ChunksJson chunks]> fs in
    match shape1 embeddings with
    | inl e => (fs, Some e)
    | inr dim =>
        let index := mkIndex dim (map normalize_L2 embeddings) in
        (<[index_path index_root tender_id := IndexFile index]> fs, None)
    end.

(** [load_index(index_root, tender_id)] *)
Definition load_index (fs : store) (index_root tender_id : str)
  : exn + (list Chunk * faiss_index) :=
  if negb faiss_available then inl ImportError
  else
    match fs !! chunks_path index_root tender_id,
          fs !! index_path index_root tender_id with
    | None, _ | _, None => inl FileNotFoundError
    | Some cf, Some xf =>
        match cf with
        | ChunksJson chunks =>
            match xf with
            | IndexFile index => inr (chunks, index)
            | _ => inl RuntimeError
            end
        | _ => inl JSONDecodeError
        end
    end.
End Store.

End IndexStore.

(** ** [services/retriever.py] *)

Module Retriever.

(** [l[i]] with Python's negative indices; [None] is [IndexError]. *)
Definition py_getitem {A} (l : list A) (i : Z) : option A :=
  if (0 <=? i) && (i <? len l) then l !! Z.to_nat i
  else if (i <? 0) && (0 <=? len l + i) then l !! Z.to_nat (len l + i)
  else None.

(** [sorted(l, key=key, reverse=True)]: descending by key, elements with
    equal keys keeping their order. *)
Fixpoint insert_desc {A} (key : A -> Z) (x : A) (l : list A) : list A :=
  match l with
  | [] => [x]
  | y :: l' => if key y <=? key x then x :: l else y :: insert_desc key x l'
  end.

Definition sorted_desc {A} (key : A -> Z) (l : list A) : list A :=
  foldr (insert_desc key) [] l.

(** The loop over [zip(idxs[0], scores[0])]: [-1] is skipped, every other
    position indexes the chunk list. *)
Fixpoint hits_to_chunks (chunks : list Chunk) (hits : list (Z * float))
  : option (list (Chunk * float)) :=
  match hits with
  | [] => Some []
  | (i, score) :: hits =>
      if i =? -1 then hits_to_chunks chunks hits
      else
        match py_getitem chunks i with
        | None => None
        | Some c => cons (c, score) <$> hits_to_chunks chunks hits
        end
  end.

(** The [except] branch of [SimpleRetriever.query]. *)
Definition length_ranking (chunks : list Chunk) (top_k : Z) : list (Chunk * float) :=
  let ranked := sorted_desc (fun c => len (text c)) chunks in
  map (fun c => (c, 1%float)) (slice_to ranked top_k).

Section Query.
(** Everything of the [try] block up to and including [index.search]: the
    import of faiss, the embedding of the query, the index over the chunk
    embeddings and the search; it raises, or returns the positions and
    scores found. *)
Variable faiss_search : list Chunk -> str -> Z -> outcome (list (Z * float)).

(** [SimpleRetriever(chunks, ...).query(q, top_k)] *)
Definition query (chunks : list Chunk) (q : str) (top_k : Z) : list (Chunk * float) :=
  match faiss_search chunks q top_k with
  | Returns hits =>
      match hits_to_chunks chunks hits with
      | Some out => out
      | None => length_ranking chunks top_k
      end
  | Raises => length_ranking chunks top_k
  end.
End Query.

End Retriever.

(** ** Vocabulary of the properties *)

(** Fuel that suffices for every page: the longest page text. *)
Definition enough_fuel (pages : list (Z * str)) : nat :=
  foldr (fun p k => Nat.max (length (snd p)) k) 0%nat pages.

(** The text has a last character and it is not white space. *)
Definition ends_nonspace (s : str) : bool :=
  match last s with
  | Some c => negb (is_space c)
  | None => false
  end.

(** The trailing [n] characters of [s]: [s[-n:]] for [n > 0]. *)
Definition tail_chars (s : str) (n : Z) : str := slice_from s (- n).


(** [ceil(L / m)] for [m > 0]. *)
Definition ceil_div (L m : Z) : Z := (L + m - 1) / m.

(** The chunk id the tree walk gives and the one the page windows give. *)
Definition dl_id (start_idx n : Z) : str :=
  lit "dl_" ++ str_of_int start_idx ++ lit "_" ++ str_of_int n.

Definition page_id (page_num start : Z) : str :=
  lit "p" ++ str_of_int page_num ++ lit "_" ++ str_of_int start.

(** Sample library functions, for evaluating the code on concrete inputs:
    [repr] of a string without quotes or escapes, a [repr] of floats that
    only knows zero, and a [json.loads] that only reads three documents. *)
Definition repr_str_quoted (s : str) : str := lit "'" ++ s ++ lit "'".
Definition repr_float_zero (f : float) : str := lit "0.0".
Definition json_loads_tiny (s : str) : option pyval :=
  if str_eqb s (lit "{}") then Some (PDict [])
  else if str_eqb s (lit "[]") then Some (PList [])
  else if str_eqb s (lit "null") then Some PNone
  else None.

Definition underscore : char := 95%N.

(** The chunk at position [j] carries [j] as the last component of its id. *)
Definition ids_by_position (cs : list Chunk) : Prop :=
  forall (j : nat) c, cs !! j = Some c -> exists a, chunk_id c = dl_id a (Z.of_nat j).

(** A page number that [page or 1] maps to at least 1. *)
Definition page_nonneg (p : option Z) : Prop :=
  match p with
  | Some z => 0 <= z
  | None => True
  end.



(** A span whose text ends in a character that is not white space, as the
    stripped text of a paragraph or a caption does. *)
Definition span_ok (sp : Docling.span) : Prop :=
  ends_nonspace (Docling.span_text sp) = true.

Definition buf_ok (b : list str) : Prop :=
  b = [] \/ ends_nonspace (join Docling.sep b) = true.

Definition is_none (v : pyval) : bool :=
  match v with
  | PNone => true
  | _ => false
  end.

Section CoercionSpec.
Variable repr_str : str -> str.
Variable repr_float : float -> str.

(** The specification's reading of the coercion.  A scalar field: missing
    or null gives null, anything else its string. *)
Definition spec_scalar (d : list (str * pyval)) (k : str) : Summarizer.sval :=
  match dict_get d k with
  | None => Summarizer.SNone
  | Some PNone => Summarizer.SNone
  | Some v => Summarizer.SStr (py_str repr_str repr_float v)
  end.

(** [compliance_notes]: a list gives its elements, nulls dropped, each as
    a string, in order; anything else gives the empty list. *)
Definition spec_notes (d : list (str * pyval)) : Summarizer.sval :=
  match dict_get d (lit "compliance_notes") with
  | Some (PList l) =>
      Summarizer.SList (map (py_str repr_str repr_float) (List.filter (fun x => negb (is_none x)) l))
  | _ => Summarizer.SList []
  end.

Definition coerce_spec (d : list (str * pyval)) : Summarizer.summary :=
  [ (lit "tender_name", spec_scalar d (lit "tender_name"));
    (lit "issuer", spec_scalar d (lit "issuer"));
    (lit "emd_amount", spec_scalar d (lit "emd_amount"));
    (lit "location", spec_scalar d (lit "location"));
    (lit "duration", spec_scalar d (lit "duration"));
    (lit "scope_of_work", spec_scalar d (lit "scope_of_work"));
    (lit "compliance_notes", spec_notes d) ].
End CoercionSpec.

(** [b] comes no earlier than [a] in a ranking, longest text first. *)
Definition no_longer (a b : Chunk) : Prop := len (text b) <= len (text a).

(** ** Sample collaborators and inputs *)

(** Sample collaborators: a regular-expression engine that never matches,
    a split that never splits, and a completion service that is down. *)
Definition re_search_none (pattern : str) (ignorecase : bool) (s : str)
  : option Summarizer.re_match := None.

Definition re_split_whole (pattern s : str) : list str := [s].

Definition groq_down (api_key model prompt : str) (temperature : float)
    (max_tokens : Z) : outcome (option str) := Raises.

Definition faiss_missing (chunks : list Chunk) (q : str) (top_k : Z)
  : outcome (list (Z * float)) := Raises.

(** A search that works and finds the first chunk with the score [1.0],
    as the inner product of a normalised vector with itself. *)
Definition search_exact_match (chunks : list Chunk) (q : str) (top_k : Z)
  : outcome (list (Z * float)) := Returns [(0, 1%float)].

(** A document whose [to_json] gives a string [json.loads] rejects, that
    has no [model_dump] and that [json.dumps] rejects, and a document
    whose [to_json] gives a small tree. *)
Definition opaque_doc : Docling.docobj :=
  Docling.mkDoc (Some (Returns (PStr (lit "<pdf>")))) None Raises (lit "Document(7 pages)").

Definition empty_doc : Docling.docobj :=
  Docling.mkDoc (Some (Returns (PDict []))) None Raises (lit "Document()").

Definition small_doc : Docling.docobj :=
  Docling.mkDoc
    (Some (Returns (PDict
       [ (lit "title", PStr (lit "Scope"));
         (lit "text", PStr (lit "  Supply of pumps "));
         (lit "page", PInt 2);
         (lit "children", PList
            [ PDict [ (lit "heading", PStr (lit "Terms"));
                      (lit "text", PStr (lit "EMD: Rs. 50,000")) ];
              PDict [ (lit "type", PStr (lit "table"));
                      (lit "cells", PList [ PList [PStr (lit "a"); PInt 1];
                                            PList [PNone; PStr (lit " b ")] ]) ] ]) ])))
    None Raises (lit "Document(1 page)").

(** Two chunks saved with one embedding. *)
Definition two_chunks : list Chunk :=
  [ mkChunk (lit "p1_0") 1 (lit "first") None;
    mkChunk (lit "p2_0") 2 (lit "second") None ].

Definition mismatched_store : IndexStore.store :=
  fst (IndexStore.save_index true (fun row => row) ∅ (lit "index") (lit "t/1")
         two_chunks [[1%float]]).

(** ** Vocabulary of the further properties *)

(** Opening braces minus closing braces in a text. *)
Fixpoint brace_depth (s : str) : Z :=
  match s with
  | [] => 0
  | c :: s =>
      (if (c =? Summarizer.lbrace)%N then 1
       else if (c =? Summarizer.rbrace)%N then -1 else 0)
      + brace_depth s
  end.

(** The six scalar fields of the summary. *)
Definition SCALAR_FIELDS : list str :=
  [ lit "tender_name"; lit "issuer"; lit "emd_amount"; lit "location";
    lit "duration"; lit "scope_of_work" ].

(** A parsed dict from which [_coerce_summary] gets something that is not
    null: a scalar field with a value other than [None] whose string is
    not empty, or a list of compliance notes with an element other than
    [None]. *)
Definition has_content (repr_str : str -> str) (repr_float : float -> str)
    (d : list (str * pyval)) : Prop :=
  (exists k v, k ∈ SCALAR_FIELDS /\ dict_get d k = Some v
               /\ v <> PNone /\ py_str repr_str repr_float v <> [])
  \/ (exists l x, dict_get d (lit "compliance_notes") = Some (PList l)
                  /\ x ∈ l /\ x <> PNone).

(** ** [services/retriever.py]: the retriever over a stored index *)

Module FaissRetriever.

Section Query.
(** The embedding of the query, its normalisation and
    [self.index.search(q_vec, top_k)]: it raises, or returns the positions
    and scores found. *)
Variable index_search : str -> Z -> outcome (list (Z * float)).

(** [FaissRetriever(chunks, index, ...).query(q, top_k)]; nothing is
    caught, [None] is the exception. *)
Definition query (chunks : list Chunk) (q : str) (top_k : Z)
  : option (list (Chunk * float)) :=
  match index_search q top_k with
  | Returns hits => Retriever.hits_to_chunks chunks hits
  | Raises => None
  end.
End Query.

End FaissRetriever.

(** A position the loop over the hits accepts: the marker [-1], or an
    index of the chunk list, counted from either end. *)
Definition hit_in_range (chunks : list Chunk) (hit : Z * float) : Prop :=
  fst hit = -1 \/ - len chunks <= fst hit < len chunks.

(** ** [adapters/pdf.py] and [ingest_pdf_bytes] *)

Module Pdf.

(** [extract_pages_from_pdf_bytes(data)], given what pypdf does with the
    bytes: it raises (the import, the reader or a page's [extract_text]),
    or gives the text of each page, which may be [None]. *)
Definition extract_pages_from_pdf_bytes (pypdf : outcome (list (option str)))
  : list (Z * str) :=
  match pypdf with
  | Returns texts => imap (fun i t => (Z.of_nat i + 1, default [] t)) texts
  | Raises => [(1, [])]
  end.

End Pdf.

Module IngestPdf.

Section Ingest.
Variable repr_str : str -> str.
Variable repr_float : float -> str.
Variable json_loads : str -> option pyval.

(** [ingest_pdf_bytes(data)], given what [parse_to_docling(data)] and pypdf
    do with the bytes.  Saving the cache copy sits in a [try] of its own
    and has no part in the result. *)
Definition ingest_pdf_bytes (fuel : nat) (parse : outcome Docling.docobj)
    (pypdf : outcome (list (option str))) : option (list Chunk) :=
  let fallback :=
    let pages := Pdf.extract_pages_from_pdf_bytes pypdf in
    Ingest.simple_chunk_pages fuel pages 2000 200 in
  match parse with
  | Returns doc =>
      match Docling.docling_to_chunks repr_str repr_float json_loads doc 2500 200 with
      | Some chunks => Some chunks
      | None => fallback
      end
  | Raises => fallback
  end.
End Ingest.

End IngestPdf.

(** The page text put together again from its windows: the first window,
    then every later window without its first [overlap] characters. *)
Definition reassemble (overlap : Z) (windows : list str) : str :=
  match windows with
  | [] => []
  | w :: ws => w ++ concat (map (drop (Z.to_nat overlap)) ws)
  end.

(** The two inner loops of [_iter_text_nodes], over the values of a dict
    and over the items of a list, given the walker for one value. *)
Definition walk_values (walk : pyval -> list str -> option (list Docling.span * list str))
  : list (str * pyval) -> list str -> option (list Docling.span * list str) :=
  fix values (kvs : list (str * pyval)) (section_stack : list str) :=
    match kvs with
    | [] => Some ([], section_stack)
    | (_, v) :: kvs =>
        match walk v section_stack with
        | None => None
        | Some (s1, section_stack) =>
            match values kvs section_stack with
            | None => None
            | Some (s2, section_stack) => Some (s1 ++ s2, section_stack)
            end
        end
    end.

Definition walk_items (walk : pyval -> list str -> option (list Docling.span * list str))
  : list pyval -> list str -> option (list Docling.span * list str) :=
  fix items (l : list pyval) (section_stack : list str) :=
    match l with
    | [] => Some ([], section_stack)
    | it :: l =>
        match walk it section_stack with
        | None => None
        | Some (s1, section_stack) =>
            match items l section_stack with
            | None => None
            | Some (s2, section_stack) => Some (s1 ++ s2, section_stack)
            end
        end
    end.

(** The span's section path starts with the breadcrumb of [section_stack]. *)
Definition under_breadcrumb (section_stack : list str) (sp : Docling.span) : Prop :=
  exists p, Docling.span_path sp = Some p
            /\ join (lit " > ") section_stack `prefix_of` p.

(** The chunk's page and section hint are those of the span [sp]. *)
Definition tagged_by (c : Chunk) (sp : Docling.span) : Prop :=
  section_hint c = Docling.span_path sp
  /\ page c = Docling.page_or_1 (Docling.span_page sp).

(** ** [scripts/build_kb_index.py] *)

Module BuildKb.
Import IndexStore.

(** [range(0, stop, step)] for a [stop] that is not negative: a zero step
    is a [ValueError] ([None]), a negative one gives nothing. *)
Definition range0 (stop step : Z) : option (list Z) :=
  if step =? 0 then None
  else if step <? 0 then Some []
  else Some (map (fun k => Z.of_nat k * step)
                 (List.seq 0 (Z.to_nat ((stop + step - 1) / step)))).

(** [batched(seq, size)], the batches it yields; [None] is the
    [ValueError] of [range]. *)
Definition batched {A} (seq : list A) (size : Z) : option (list (list A)) :=
  match range0 (len seq) size with
  | None => None
  | Some starts => Some (map (fun i => slice seq i (i + size)) starts)
  end.

(** The chunk appended to [annotated] for [c], a chunk of the PDF named
    [fname]. *)
Definition annotate (fname : str) (c : Chunk) : Chunk :=
  let hint :=
    match section_hint c with
    | Some (x :: h) => fname ++ lit " | " ++ (x :: h)
    | _ => fname
    end in
  mkChunk (chunk_id c) (page c) (text c) (Some hint).

Definition all_chunks (pdfs : list (str * list Chunk)) : list Chunk :=
  concat (map (fun pdf => map (annotate (fst pdf)) (snd pdf)) pdfs).

(** How [main] ends. *)
Inductive exit :=
  | Done
  | SystemExit (msg : str)
  | Raised (e : exn).

Section Main.
Variable faiss_available : bool.
Variable normalize_L2 : list float -> list float.
(** [embed_texts(batch, provider, model, openai_api_key)] with the
    settings' provider, model and key. *)
Variable embed_texts : list str -> list (list float).

(** [main()] from the list of PDFs on: [pdfs] has, for every PDF found
    under [dir], in sorted order, its file name and the chunks
    [ingest_pdf_bytes] returns for its bytes.  The result is the store
    after the run and the way the run ends. *)
Definition main (fs : store) (dir index_root kb_id : str) (batch : Z)
    (pdfs : list (str * list Chunk)) : store * exit :=
  match pdfs with
  | [] => (fs, SystemExit (lit "No PDFs found under " ++ dir))
  | _ =>
      let all_chunks := all_chunks pdfs in
      let texts := map text all_chunks in
      match batched texts batch with
      | None => (fs, Raised ValueError)
      | Some batches =>
          let embeddings := concat (map embed_texts batches) in
          if negb (len embeddings =? len all_chunks) then
            (fs, SystemExit (lit "Embedding count mismatch; aborting."))
          else
            match save_index faiss_available normalize_L2 fs index_root kb_id
                    all_chunks embeddings with
            | (fs, Some e) => (fs, Raised e)
            | (fs, None) => (fs, Done)
            end
      end
  end.
End Main.

End BuildKb.

(** The chunk's section hint starts with the file name [fname]. *)
Definition hint_from (fname : str) (c : Chunk) : Prop :=
  exists h, section_hint c = Some h /\ fname `prefix_of` h.

(** ** [app.py]: the question and ingest handlers *)

Module App.
Import IndexStore.

(** [models/schema.py] *)
Record Citation := mkCitation {
  cit_page : option Z;
  cit_chunk_id : option str;
  cit_section_hint : option str;
  text_snippet : option str
}.

Record QAResponse := mkQA {
  answer : str;
  citations : list Citation
}.

Record IngestResponse := mkIngest {
  ir_tender_id : str;
  ir_pages : Z;
  ir_chunks : Z
}.

(** How a handler ends: with its response, with the [HTTPException] it
    raises (the detail text is left out), or with an exception that
    leaves it. *)
Inductive reply (A : Type) :=
  | Ok (a : A)
  | HTTPException (status : Z)
  | Unhandled.
Arguments Ok {A} a.
Arguments HTTPException {A} status.
Arguments Unhandled {A}.

(** [Citation(page=c.page, chunk_id=c.chunk_id,
    section_hint=c.section_hint, text_snippet=c.text[:160])] *)
Definition cite (c : Chunk) : Citation :=
  mkCitation (Some (page c)) (Some (chunk_id c)) (section_hint c)
             (Some (slice_to (text c) 160)).

(** The normalisation at the head of [ingest_tender] and [get_summary]:
    with the local backend, an id without a slash gets the prefix
    [tenders/]. *)
Definition normalize_id (storage_local : bool) (tender_id : str) : str :=
  if storage_local && negb (bool_decide (47%N ∈ tender_id))
  then lit "tenders/" ++ tender_id
  else tender_id.

(** [d.get(k)] on a summary record *)
Fixpoint summary_get (d : Summarizer.summary) (k : str) : Summarizer.sval :=
  match d with
  | [] => Summarizer.SNone
  | (k', v) :: d => if str_eqb k' k then v else summary_get d k
  end.

(** The truth value of a summary value. *)
Definition sval_truthy (v : Summarizer.sval) : bool :=
  match v with
  | Summarizer.SNone => false
  | Summarizer.SStr s => negb (bool_decide (s = []))
  | Summarizer.SList l => negb (bool_decide (l = []))
  end.

(** The local function [_empty] of [get_summary] and [ingest_tender]. *)
Definition _empty (d : Summarizer.summary) : bool :=
  negb (existsb (fun k => sval_truthy (summary_get d k))
          [ lit "tender_name"; lit "issuer"; lit "emd_amount"; lit "location";
            lit "duration"; lit "scope_of_work" ])
  && negb (sval_truthy (summary_get d (lit "compliance_notes"))).

Definition context_sep : str := nl ++ nl ++ lit "---" ++ nl ++ nl.

Definition ask_prompt (context question : str) : str :=
  lit "You are a helpful tender Q&A assistant." ++ nl
  ++ lit "- Answer strictly from the context. If the answer is not present, reply exactly: Not found in tender." ++ nl
  ++ lit "- Return only the answer text. Do not include filenames, IDs, or any preamble." ++ nl
  ++ lit "- Be concise." ++ nl ++ nl
  ++ lit "Context:" ++ nl ++ context ++ nl ++ nl
  ++ lit "Question: " ++ question ++ nl ++ lit "Answer:".

Definition not_found_answer : str := lit "Not found in tender".
Definition index_not_found : str := lit "Index not found. Please ingest first.".

Section Handlers.
Variable faiss_available : bool.
Variable normalize_L2 : list float -> list float.
(** The settings: [index_root], [top_k], [groq_api_key], [llm_model] and
    whether [storage_backend] is ["local"]. *)
Variable index_root : str.
Variable top_k : Z.
Variable groq_api_key : option str.
Variable llm_model : str.
Variable storage_local : bool.
(** The search of the retriever on a loaded index: the embedding of the
    question, its normalisation and [index.search]. *)
Variable index_search : faiss_index -> str -> Z -> outcome (list (Z * float)).
Variable groq_chat : str -> str -> str -> float -> Z -> outcome (option str).
(** [re.sub(pattern, repl, text)] with or without [re.IGNORECASE], and
    whether [re.search(pattern, text, flags=re.IGNORECASE)] finds a match. *)
Variable re_sub : str -> str -> str -> bool -> str.
Variable re_search : str -> str -> bool.
(** The download of the object from the selected backend, the ingestion
    of its bytes and the embedding of the chunk texts. *)
Variable bytes : Type.
Variable download : str -> outcome bytes.
Variable ingest_pdf_bytes : bytes -> list Chunk.
Variable embed_texts : list str -> list (list float).

(** The post-processing of the completion in [ask_question]. *)
Definition clean_answer (tender_id answer : str) : str :=
  let ans := strip answer in
  let ans := strip (re_sub (lit "^Answer\s*:\s*") [] ans true) in
  let ans := re_sub (lit "\s+") (lit " ") ans false in
  if bool_decide (ans = []) || bool_decide (ans = tender_id)
     || re_search (lit "\.pdf\b") ans
  then not_found_answer
  else ans.

(** [ask_question(tender_id, req)], [question] being [req.question]. *)
Definition ask_question (fs : store) (tender_id question : str)
  : reply QAResponse :=
  match load_index faiss_available fs index_root tender_id with
  | inl FileNotFoundError => Ok (mkQA index_not_found [])
  | inl _ => Unhandled
  | inr (chunks, index) =>
      match FaissRetriever.query (index_search index) chunks question top_k with
      | None => Unhandled
      | Some top =>
          let context := join context_sep (map (fun hit => text (fst hit)) top) in
          let prompt := ask_prompt context question in
          let answer :=
            LlmGroq.complete groq_chat (default [] groq_api_key) llm_model prompt
              0%float 256 in
          Ok (mkQA (clean_answer tender_id answer)
                   (map (fun hit => cite (fst hit)) top))
      end
  end.

(** [ingest_tender(tender_id)]: the index files after the call, and how
    it ends.  The cached [summary.json], which the handler writes inside a
    [try] that catches everything, is not one of the files of [store]. *)
Definition ingest_tender (fs : store) (tender_id : str)
  : store * reply IngestResponse :=
  let tender_id := normalize_id storage_local tender_id in
  match download tender_id with
  | Raises => (fs, HTTPException 500)
  | Returns data =>
      let chunks := ingest_pdf_bytes data in
      let texts := map text chunks in
      let embeddings := embed_texts texts in
      match save_index faiss_available normalize_L2 fs index_root tender_id
              chunks embeddings with
      | (fs, Some _) => (fs, Unhandled)
      | (fs, None) =>
          let pages := len (remove_dups (map page chunks)) in
          (fs, Ok (mkIngest tender_id pages (len chunks)))
      end
  end.

End Handlers.

End App.

(** The citation [ci] is the one of the chunk [c]: its page, id and
    section hint, and the first 160 characters of its text. *)
Definition cites (ci : App.Citation) (c : Chunk) : Prop :=
  App.cit_page ci = Some (page c)
  /\ App.cit_chunk_id ci = Some (chunk_id c)
  /\ App.cit_section_hint ci = section_hint c
  /\ exists s, App.text_snippet ci = Some s
               /\ s `prefix_of` text c
               /\ len s = Z.min 160 (len (text c)).

(** Sample collaborators of the handlers: a search that finds the first
    two positions, regular-expression functions that change and find
    nothing, a download that succeeds, an ingestion that gives two chunks
    and an embedding with one row of two numbers for every text. *)
Definition search_first_two (index : IndexStore.faiss_index) (q : str) (top_k : Z)
  : outcome (list (Z * float)) := Returns [(0, 1%float); (1, 0%float)].

Definition re_sub_id (pattern repl s : str) (ignorecase : bool) : str := s.

Definition re_search_no (pattern s : str) : bool := false.

Definition download_ok (path : str) : outcome unit := Returns tt.

Definition ingest_two (data : unit) : list Chunk := two_chunks.

Definition embed_pairs (texts : list str) : list (list float) :=
  map (fun _ => [1%float; 0%float]) texts.

(** ** [adapters/embeddings.py] *)

Module Embeddings.

Definition dim : Z := 384.

(** [int.from_bytes(b, 'big', signed=False)], a byte being a [Z]. *)
Definition from_bytes_big (b : list Z) : Z :=
  fold_left (fun acc x => acc * 256 + x) b 0.

(** [n / 100000.0] for an [int] [n] *)
Definition ratio (n : Z) : float :=
  PrimFloat.div (PrimFloat.of_uint63 (Uint63.of_Z n)) 100000%float.

(** [range(0, n, 4)] *)
Definition starts (n : Z) : list Z :=
  map (fun k => Z.of_nat k * 4) (List.seq 0 (Z.to_nat ((n + 3) / 4))).

(** The [for] loop over the four-byte pieces of [pool], with its [break]. *)
Fixpoint fill (pool : list Z) (idxs : list Z) (vals : list float) : list float :=
  match idxs with
  | [] => vals
  | i :: idxs =>
      let chunk := from_bytes_big (slice pool i (i + 4)) in
      let vals := vals ++ [ratio (chunk mod 100000)] in
      if len vals =? dim then vals else fill pool idxs vals
  end.

(** [c.encode('utf-8')] for one code point (at most 0x10FFFF, as in every
    Python string); [None] is the [UnicodeEncodeError] of a surrogate. *)
Definition encode_char (c : char) : option (list Z) :=
  let z := Z.of_N c in
  if z <? 128 then Some [z]
  else if z <? 2048 then Some [192 + z / 64; 128 + z mod 64]
  else if (55296 <=? z) && (z <=? 57343) then None
  else if z <? 65536 then
    Some [224 + z / 4096; 128 + (z / 64) mod 64; 128 + z mod 64]
  else
    Some [240 + z / 262144; 128 + (z / 4096) mod 64; 128 + (z / 64) mod 64;
          128 + z mod 64].

(** [t.encode('utf-8')] *)
Fixpoint encode_utf8 (t : str) : option (list Z) :=
  match t with
  | [] => Some []
  | c :: t =>
      match encode_char c with
      | None => None
      | Some b =>
          match encode_utf8 t with
          | None => None
          | Some bs => Some (b ++ bs)
          end
      end
  end.

Section Embed.
(** [hashlib.sha256(b).digest()] *)
Variable sha256 : list Z -> list Z.
(** The OpenAI client with [openai_api_key] and its
    [embeddings.create(model, input)], up to the list of the embeddings. *)
Variable openai_embed : option str -> str -> list str -> outcome (list (list float)).

(** [while len(vals) < dim]; [None] is fuel exhausted. *)
Fixpoint expand (fuel : nat) (pool : list Z) (vals : list float)
  : option (list float) :=
  if dim <=? len vals then Some vals
  else
    match fuel with
    | O => None
    | S fuel =>
        let pool := sha256 pool in
        expand fuel pool (fill pool (starts (len pool)) vals)
    end.

(** The local fallback, [for t in texts]: one vector for every text.
    [Some Raises] is the [UnicodeEncodeError] of [t.encode], which nothing
    catches; [None] is fuel exhausted. *)
Fixpoint embed_local (fuel : nat) (texts : list str)
  : option (outcome (list (list float))) :=
  match texts with
  | [] => Some (Returns [])
  | t :: texts =>
      match encode_utf8 t with
      | None => Some Raises
      | Some b =>
          match expand fuel (sha256 b) [] with
          | None => None
          | Some vals =>
              match embed_local fuel texts with
              | None => None
              | Some Raises => Some Raises
              | Some (Returns vecs) => Some (Returns (vals :: vecs))
              end
          end
      end
  end.

(** [embed_texts(texts, provider, model, openai_api_key)] *)
Definition embed_texts (fuel : nat) (texts : list str) (provider model : str)
    (openai_api_key : option str) : option (outcome (list (list float))) :=
  if str_eqb provider (lit "openai") then
    match openai_embed openai_api_key model texts with
    | Returns embeddings => Some (Returns embeddings)
    | Raises => embed_local fuel texts
    end
  else embed_local fuel texts.
End Embed.

End Embeddings.

(** A value the local fallback can produce: [n / 100000.0] for a
    numerator [n] from 0 to 99999. *)
Definition is_ratio (x : float) : Prop :=
  exists n, 0 <= n < 100000 /\ x = Embeddings.ratio n.

(** A code point between U+D800 and U+DFFF, and a text that has one. *)
Definition is_surrogate (c : char) : Prop := (55296 <= c <= 57343)%N.

Definition has_surrogate (t : str) : Prop := Exists is_surrogate t.

(** Sample collaborators of [embed_texts]: a digest of 32 equal bytes and
    a client that is not there. *)
Definition sha256_sevens (b : list Z) : list Z := repeat 7 32.

Definition openai_down (key : option str) (model : str) (texts : list str)
  : outcome (list (list float)) := Raises.

(** The invariant of the merge loop behind the provenance of a chunk:
    every chunk so far is tagged by a span of [all], and a buffer that is
    not empty has the path and page of one span of [all]. *)
Definition tagged_in (all : list Docling.span) (c : Chunk) : Prop :=
  exists sp, sp ∈ all /\ tagged_by c sp.

Definition buffer_from (all : list Docling.span) (st : Docling.merge_state) : Prop :=
  Docling.buf st = []
  \/ exists sp, sp ∈ all /\ Docling.current_path st = Docling.span_path sp
                /\ Docling.current_page st = Docling.span_page sp.

Definition merge_tagged (all : list Docling.span) (st : Docling.merge_state) : Prop :=
  Forall (tagged_in all) (Docling.chunks st) /\ buffer_from all st.

(** * Properties *)

(** ** Evaluation on small inputs *)

Example simple_chunk_pages_ex :
  Ingest.simple_chunk_pages 10 [(1, lit "abcdefgh"); (2, lit "xy")] 3 1
  = Some [ mkChunk (lit "p1_0") 1 (lit "abc") None;
           mkChunk (lit "p1_2") 1 (lit "cde") None;
           mkChunk (lit "p1_4") 1 (lit "efg") None;
           mkChunk (lit "p1_6") 1 (lit "gh") None;
           mkChunk (lit "p2_0") 2 (lit "xy") None ].
Proof. vm_compute. reflexivity. Qed.

Example merge_spans_ex :
  Docling.merge_spans
    [ (lit "ab cd", Some 3, Some (lit "A")); (lit "ef", None, Some (lit "A"));
      (lit "gh", Some 0, Some (lit "B")) ] 5 3
  = [ mkChunk (lit "dl_0_0") 3 (lit "ab cd") (Some (lit "A"));
      mkChunk (lit "dl_0_1") 3 (lit "cd" ++ nl ++ nl ++ lit "ef") (Some (lit "A"));
      mkChunk (lit "dl_1_2") 1 (lit "ef") (Some (lit "A"));
      mkChunk (lit "dl_2_3") 1 (lit "gh") (Some (lit "B")) ].
Proof. vm_compute. reflexivity. Qed.

Example extract_json_block_fenced :
  Summarizer._extract_json_block
    (lit "```JSON" ++ nl ++ lit "{'a': {}}" ++ nl ++ lit "``` and {more}")
  = Some (lit "{'a': {}}").
Proof. vm_compute. reflexivity. Qed.

Example extract_json_block_braces :
  Summarizer._extract_json_block (lit "so: {'a': {'b': 1}} and {more}")
  = Some (lit "{'a': {'b': 1}}").
Proof. vm_compute. reflexivity. Qed.

Example splitlines_ex :
  Summarizer.splitlines (lit "ab" ++ [13%N; 10%N] ++ lit "cd" ++ nl ++ nl ++ lit "e" ++ nl)
  = [lit "ab"; lit "cd"; []; lit "e"].
Proof. vm_compute. reflexivity. Qed.

Example sorted_desc_stable :
  Retriever.sorted_desc (fun p : Z * Z => fst p) [(1, 0); (3, 1); (1, 2); (3, 3); (2, 4)]
  = [(3, 1); (3, 3); (2, 4); (1, 0); (1, 2)].
Proof. vm_compute. reflexivity. Qed.

(** ** Termination of the page-window loop *)

Section PageWindows.
Import Ingest.

Lemma len_nonneg {A} (l : list A) : 0 <= len l.
Proof. unfold len. lia. Qed.

Lemma len_app {A} (l1 l2 : list A) : len (l1 ++ l2) = len l1 + len l2.
Proof. unfold len. rewrite length_app. lia. Qed.

Lemma len_nil_iff {A} (l : list A) : len l = 0 <-> l = [].
Proof. unfold len. destruct l; simpl; split; intros; try done; lia. Qed.

(** What the loop body does when the window does not reach the end of the
    page. *)
Lemma window_body_next page_num text max_chars overlap start :
  start + max_chars < len text ->
  snd (window_body page_num text max_chars overlap start)
  = Some (Z.max 0 (start + max_chars - overlap)).
Proof.
  intros Hlt. unfold window_body.
  rewrite Z.min_r by lia.
  destruct (Z.eqb_spec (start + max_chars) (len text)) as [E|_]; [lia|].
  simpl. f_equal. destruct (Z.ltb_spec (start + max_chars - overlap) 0); lia.
Qed.

Lemma window_body_last page_num text max_chars overlap start :
  len text <= start + max_chars ->
  snd (window_body page_num text max_chars overlap start) = None.
Proof.
  intros Hle. unfold window_body.
  rewrite Z.min_l by lia. now rewrite Z.eqb_refl.
Qed.

(** Each iteration ends the page or moves the window start forward. *)
Lemma window_body_advances page_num text max_chars overlap start :
  0 <= overlap < max_chars ->
  0 <= start < len text ->
  match snd (window_body page_num text max_chars overlap start) with
  | None => True
  | Some start' => start < start' < len text
  end.
Proof.
  intros Ho Hs.
  destruct (Z.lt_ge_cases (start + max_chars) (len text)) as [Hlt|Hge].
  - rewrite window_body_next by done. lia.
  - now rewrite window_body_last by lia.
Qed.

Lemma page_windows_total page_num text max_chars overlap :
  0 <= overlap < max_chars ->
  forall (k : nat) start,
    0 <= start -> len text - start <= Z.of_nat k ->
    exists cs, forall fuel, (k <= fuel)%nat ->
      page_windows fuel page_num text max_chars overlap start = Some cs.
Proof.
  intros Ho. induction k as [|k IH]; intros start H0 Hk.
  - exists []. intros fuel _.
    destruct fuel; simpl; destruct (Z.ltb_spec start (len text)); try lia; done.
  - destruct (Z.ltb_spec start (len text)) as [Hlt|Hge].
    + pose proof (window_body_advances page_num text max_chars overlap start Ho
                    (conj H0 Hlt)) as Hadv.
      destruct (window_body page_num text max_chars overlap start) as [c next] eqn:Eb.
      simpl in Hadv. destruct next as [start'|].
      * destruct (IH start') as [cs Hcs]; [lia|lia|].
        exists (c :: cs). intros [|fuel] Hf; [lia|].
        simpl. destruct (Z.ltb_spec start (len text)); [|lia].
        rewrite Eb, Hcs by lia. done.
      * exists [c]. intros [|fuel] Hf; [lia|].
        simpl. destruct (Z.ltb_spec start (len text)); [|lia].
        now rewrite Eb.
    + exists []. intros fuel _.
      destruct fuel; simpl; destruct (Z.ltb_spec start (len text)); try lia; done.
Qed.

Lemma simple_chunk_pages_total pages max_chars overlap :
  0 <= overlap < max_chars ->
  exists cs, forall fuel, (enough_fuel pages <= fuel)%nat ->
    simple_chunk_pages fuel pages max_chars overlap = Some cs.
Proof.
  intros Ho. induction pages as [|[page_num text] pages [cs IH]].
  - exists []. done.
  - destruct (page_windows_total page_num text max_chars overlap Ho
                (length text) 0) as [ws Hws]; [lia|unfold len; lia|].
    exists (ws ++ cs). intros fuel Hf. simpl in Hf |- *.
    rewrite Hws by lia. rewrite IH by lia. done.
Qed.

(** With [overlap >= max_chars] the second window starts where the first
    did, and the loop never leaves a page longer than [max_chars]. *)
Lemma window_body_stuck page_num text max_chars overlap :
  max_chars <= overlap -> max_chars < len text ->
  snd (window_body page_num text max_chars overlap 0) = Some 0.
Proof.
  intros Ho Hn. rewrite window_body_next by lia. f_equal. lia.
Qed.

Lemma page_windows_stuck page_num text max_chars overlap :
  max_chars <= overlap -> max_chars < len text -> text <> [] ->
  forall fuel, page_windows fuel page_num text max_chars overlap 0 = None.
Proof.
  intros Ho Hn Hne fuel.
  assert (0 < len text) as Hpos.
  { destruct text; [done | unfold len; simpl; lia]. }
  pose proof (window_body_stuck page_num text max_chars overlap Ho Hn) as Hs.
  induction fuel as [|fuel IH]; simpl;
    destruct (Z.ltb_spec 0 (len text)); try lia; [done|].
  destruct (window_body page_num text max_chars overlap 0) as [c next].
  simpl in Hs. subst next. now rewrite IH.
Qed.

Lemma simple_chunk_pages_stuck pages1 page_num text pages2 max_chars overlap :
  max_chars <= overlap -> max_chars < len text -> text <> [] ->
  forall fuel,
    simple_chunk_pages fuel (pages1 ++ (page_num, text) :: pages2) max_chars overlap
    = None.
Proof.
  intros Ho Hn Hne fuel. induction pages1 as [|[pn t] pages1 IH]; simpl.
  - now rewrite page_windows_stuck.
  - destruct (page_windows fuel pn t max_chars overlap 0); [|done].
    now rewrite IH.
Qed.

(** C10. [simple_chunk_pages] terminates when [0 <= overlap < max_chars]:
    every iteration of the inner loop ends the page or strictly advances
    the window start, and enough fuel gives the chunk list.  The
    precondition is needed: with [overlap >= max_chars] and a page text
    longer than [max_chars] the window start stays at 0, and on such a
    page (which is not empty) no amount of fuel lets the loop finish. *)
Theorem simple_chunk_pages_terminates (max_chars overlap : Z) :
  (0 <= overlap < max_chars ->
     (forall page_num text start,
         0 <= start < len text ->
         match snd (window_body page_num text max_chars overlap start) with
         | None => True
         | Some start' => start < start' < len text
         end)
     /\ (forall pages, exists cs, forall fuel,
           (enough_fuel pages <= fuel)%nat ->
           simple_chunk_pages fuel pages max_chars overlap = Some cs))
  /\ (max_chars <= overlap ->
      forall page_num text,
        max_chars < len text ->
        snd (window_body page_num text max_chars overlap 0) = Some 0
        /\ (text <> [] ->
            forall pages1 pages2 fuel,
              simple_chunk_pages fuel (pages1 ++ (page_num, text) :: pages2)
                max_chars overlap = None)).
Proof.
  split.
  - intros Ho. split.
    + intros. now apply window_body_advances.
    + intros. now apply simple_chunk_pages_total.
  - intros Ho page_num text Hn. split.
    + now apply window_body_stuck.
    + intros Hne pages1 pages2 fuel. now apply simple_chunk_pages_stuck.
Qed.

End PageWindows.

Lemma simple_chunk_pages_terminates_witness :
  (exists cs, Ingest.simple_chunk_pages 8 [(1, lit "abcdefgh"); (2, lit "xy")] 3 1 = Some cs)
  /\ Ingest.simple_chunk_pages 8 [(1, lit "abcdefgh"); (2, lit "xy")] 3 3 = None.
Proof.
  split.
  - destruct (simple_chunk_pages_terminates 3 1) as [H _].
    destruct H as [_ H]; [lia|].
    destruct (H [(1, lit "abcdefgh"); (2, lit "xy")]) as [cs Hcs].
    exists cs. apply Hcs. vm_compute. lia.
  - destruct (simple_chunk_pages_terminates 3 3) as [_ H].
    destruct (H ltac:(lia) 1 (lit "abcdefgh") ltac:(vm_compute; reflexivity)) as [_ H'].
    apply (H' ltac:(discriminate) [] [(2, lit "xy")] 8%nat).
Defined.

(** ** Strings: stripping, joining, slicing *)

Section Strings.

Lemma lstrip_by_split p s :
  exists ws, s = ws ++ lstrip_by p s /\ forallb p ws = true.
Proof.
  induction s as [|c s [ws [E F]]]; simpl.
  - now exists [].
  - destruct (p c) eqn:Ec.
    + exists (c :: ws). simpl. rewrite Ec, F. split; [congruence|done].
    + now exists [].
Qed.

Lemma lstrip_by_hd p s c r : lstrip_by p s = c :: r -> p c = false.
Proof.
  induction s as [|x s IH]; simpl; [done|].
  destruct (p x) eqn:Ex; [done|]. intros [= -> _]. done.
Qed.

Lemma lstrip_by_spaces p ws s :
  forallb p ws = true -> lstrip_by p (ws ++ s) = lstrip_by p s.
Proof.
  induction ws as [|c ws IH]; simpl; [done|].
  intros [Hc Hw]%andb_prop. now rewrite Hc, IH.
Qed.

Lemma lstrip_by_stable p s :
  match s with c :: _ => p c = false | [] => True end -> lstrip_by p s = s.
Proof. destruct s as [|c s]; simpl; [done|]. now intros ->. Qed.

Lemma lstrip_by_idem p s : lstrip_by p (lstrip_by p s) = lstrip_by p s.
Proof.
  apply lstrip_by_stable. destruct (lstrip_by p s) eqn:E; [done|].
  eapply lstrip_by_hd, E.
Qed.

Lemma lstrip_by_app p s t :
  lstrip_by p s <> [] -> lstrip_by p (s ++ t) = lstrip_by p s ++ t.
Proof.
  induction s as [|c s IH]; simpl; [done|].
  destruct (p c); [apply IH|done].
Qed.

Lemma strip_by_idem p s : strip_by p (strip_by p s) = strip_by p s.
Proof.
  unfold strip_by, rstrip_by.
  set (u := lstrip_by p s).
  destruct (lstrip_by_split p (reverse u)) as [ws [E F]].
  set (v := lstrip_by p (reverse u)) in *.
  assert (lstrip_by p (reverse v) = reverse v) as ->.
  { apply lstrip_by_stable. destruct (reverse v) as [|c r] eqn:Ev; [done|].
    assert (u = (c :: r) ++ reverse ws) as Hu.
    { rewrite <- Ev, <- reverse_app, <- E. now rewrite reverse_involutive. }
    eapply lstrip_by_hd. unfold u in Hu. apply Hu. }
  rewrite reverse_involutive. unfold v. now rewrite lstrip_by_idem.
Qed.

Lemma ends_nonspace_snoc s :
  ends_nonspace s = true <-> exists s' c, s = s' ++ [c] /\ is_space c = false.
Proof.
  unfold ends_nonspace. split.
  - destruct (last s) as [c|] eqn:E; [|done].
    apply last_Some in E as [s' ->]. intros H%negb_true_iff. eauto.
  - intros (s' & c & -> & Hc). now rewrite last_snoc, Hc.
Qed.

Lemma ends_nonspace_app s t : ends_nonspace t = true -> ends_nonspace (s ++ t) = true.
Proof.
  unfold ends_nonspace. rewrite last_app. now destruct (last t).
Qed.

Lemma ends_nonspace_nonempty s : ends_nonspace s = true -> s <> [].
Proof. now destruct s. Qed.

Lemma rstrip_ends_nonspace s : ends_nonspace s = true -> rstrip s = s.
Proof.
  intros (s' & c & -> & Hc)%ends_nonspace_snoc.
  unfold rstrip, rstrip_by. rewrite reverse_snoc. simpl. rewrite Hc.
  now rewrite <- reverse_snoc, reverse_involutive.
Qed.

Lemma ends_nonspace_lstrip s :
  ends_nonspace s = true -> ends_nonspace (lstrip s) = true.
Proof.
  unfold lstrip. induction s as [|c s IH]; simpl; [done|].
  intros H. destruct (is_space c) eqn:Ec; [|done].
  apply IH. destruct s as [|d s]; [|done].
  unfold ends_nonspace in H. simpl in H. now rewrite Ec in H.
Qed.

(** A text that ends in a character that is not white space is stripped on
    the left only, and something is left of it. *)
Lemma strip_ends_nonspace s : ends_nonspace s = true -> strip s = lstrip s.
Proof.
  intros H. unfold strip, strip_by.
  now apply rstrip_ends_nonspace, ends_nonspace_lstrip.
Qed.

(** What [strip] leaves, if anything, ends in a character that is not
    white space: the texts of paragraphs and captions are of this kind. *)
Lemma strip_nonempty_ends s : strip s <> [] -> ends_nonspace (strip s) = true.
Proof.
  unfold strip, strip_by, rstrip_by.
  destruct (lstrip_by is_space (reverse (lstrip_by is_space s))) as [|c v] eqn:E;
    [done|].
  intros _. apply lstrip_by_hd in E.
  rewrite reverse_cons. unfold ends_nonspace. now rewrite last_snoc, E.
Qed.

Lemma lstrip_ends_nonspace_nonempty s : ends_nonspace s = true -> lstrip s <> [].
Proof. intros H. now apply ends_nonspace_nonempty, ends_nonspace_lstrip. Qed.

Lemma join_cons sp x l : l <> [] -> join sp (x :: l) = x ++ sp ++ join sp l.
Proof. now destruct l. Qed.

Lemma join_snoc sp l t :
  join sp (l ++ [t]) = match l with [] => t | _ => join sp l ++ sp ++ t end.
Proof.
  induction l as [|x l IH]; [done|].
  change ((x :: l) ++ [t]) with (x :: (l ++ [t])).
  rewrite join_cons by (now destruct l). rewrite IH.
  destruct l as [|y l]; [reflexivity|].
  rewrite (join_cons sp x (y :: l)) by done. now rewrite <- !app_assoc.
Qed.

Lemma join_ends_nonspace sp l t :
  ends_nonspace t = true -> ends_nonspace (join sp (l ++ [t])) = true.
Proof.
  intros H. rewrite join_snoc. destruct l; [done|].
  rewrite app_assoc. now apply ends_nonspace_app.
Qed.

Lemma join_hd sp x l : exists r, join sp (x :: l) = x ++ r.
Proof.
  destruct l as [|y l].
  - exists []. simpl. now rewrite app_nil_r.
  - eexists. now rewrite join_cons.
Qed.

Lemma tail_chars_drop s n :
  0 < n -> tail_chars s n = drop (length s - Z.to_nat n) s.
Proof.
  intros Hn. unfold tail_chars, slice_from, py_index, len.
  destruct (Z.ltb_spec (- n) 0); [|lia]. f_equal. lia.
Qed.

Lemma ends_nonspace_drop s k :
  ends_nonspace s = true -> (k < length s)%nat -> ends_nonspace (drop k s) = true.
Proof.
  intros (s' & c & -> & Hc)%ends_nonspace_snoc Hk.
  rewrite length_app in Hk. simpl in Hk.
  rewrite drop_app_le by lia. apply ends_nonspace_app.
  unfold ends_nonspace. simpl. now rewrite Hc.
Qed.

Lemma ends_nonspace_tail s n :
  0 < n -> ends_nonspace s = true -> ends_nonspace (tail_chars s n) = true.
Proof.
  intros Hn H. rewrite tail_chars_drop by done.
  apply ends_nonspace_drop; [done|].
  apply ends_nonspace_nonempty in H. destruct s; [done|]. simpl. lia.
Qed.

Lemma lstrip_drop_spaces ws u k :
  forallb is_space ws = true ->
  lstrip (drop (length u - k) u)
  = lstrip (drop (length (ws ++ u) - k) (ws ++ u)).
Proof.
  intros F. rewrite length_app.
  destruct (decide (k <= length u)%nat) as [Hle|Hgt].
  - rewrite drop_app_ge by lia. f_equal. f_equal. lia.
  - replace (length u - k)%nat with 0%nat by lia. simpl.
    rewrite drop_app_le by lia.
    unfold lstrip. rewrite lstrip_by_spaces; [done|].
    rewrite forallb_forall in F |- *. intros x Hx. apply F.
    apply list_elem_of_In. apply list_elem_of_In in Hx.
    eapply subseteq_drop, Hx.
Qed.

(** Stripping first does not change what is left of the tail once its
    own leading white space is removed. *)
Lemma lstrip_tail_lstrip s n :
  0 < n -> lstrip (tail_chars (lstrip s) n) = lstrip (tail_chars s n).
Proof.
  intros Hn. rewrite !tail_chars_drop by done.
  destruct (lstrip_by_split is_space s) as [ws [E F]].
  change (lstrip_by is_space s) with (lstrip s) in E.
  rewrite (lstrip_drop_spaces ws (lstrip s) _ F). now rewrite <- E.
Qed.

End Strings.

(** ** Chunk ids: decimal rendering *)

Section Ids.

Lemma lit_inj s t : lit s = lit t -> s = t.
Proof.
  unfold lit. intros H.
  rewrite <- (string_of_list_ascii_of_string s), <- (string_of_list_ascii_of_string t).
  f_equal. revert H.
  generalize (list_ascii_of_string s) (list_ascii_of_string t).
  induction l as [|a l IH]; intros [|b l']; simpl; try done.
  intros [= Hab Hl]. f_equal; [|now apply IH].
  rewrite <- (ascii_N_embedding a), <- (ascii_N_embedding b). now f_equal.
Qed.

Lemma lit_app s t : lit (s ++ t)%string = lit s ++ lit t.
Proof.
  unfold lit. induction s as [|a s IH]; simpl; [done|]. now rewrite IH.
Qed.

Lemma to_int_nonnil z :
  Z.to_int z <> Decimal.Pos Decimal.Nil /\ Z.to_int z <> Decimal.Neg Decimal.Nil.
Proof.
  destruct z as [|p|p]; simpl; split; try done;
    intros [= H]; now apply DecimalPos.Unsigned.to_uint_nonnil in H.
Qed.

Lemma str_of_int_inj a b : str_of_int a = str_of_int b -> a = b.
Proof.
  unfold str_of_int. intros H%lit_inj.
  apply DecimalZ.to_int_inj.
  destruct (to_int_nonnil a) as [Ha1 Ha2], (to_int_nonnil b) as [Hb1 Hb2].
  pose proof (NilZero.isi _ Ha1 Ha2) as Ea.
  pose proof (NilZero.isi _ Hb1 Hb2) as Eb.
  rewrite H in Ea. rewrite Ea in Eb. now injection Eb.
Qed.

Lemma uint_no_underscore d :
  underscore ∉ lit (NilEmpty.string_of_uint d).
Proof.
  induction d; simpl; unfold lit; simpl;
    rewrite ?not_elem_of_cons; try split; try done; apply not_elem_of_nil.
Qed.

Lemma str_of_int_no_underscore z : underscore ∉ str_of_int z.
Proof.
  unfold str_of_int, NilZero.string_of_int, NilZero.string_of_uint.
  destruct (Z.to_int z) as [d|d]; destruct d;
    try apply uint_no_underscore;
    try (unfold lit; simpl; rewrite ?not_elem_of_cons; repeat split; try done;
         first [apply not_elem_of_nil | apply uint_no_underscore]).
Qed.

(** Two texts cut at their first underscore agree part by part. *)
Lemma split_at_underscore (a a' b b' : str) :
  underscore ∉ a -> underscore ∉ a' ->
  a ++ underscore :: b = a' ++ underscore :: b' -> a = a' /\ b = b'.
Proof.
  revert a'. induction a as [|x a IH]; intros [|y a'] Ha Ha'; simpl.
  - now intros [= ->].
  - intros [= <- _]. exfalso. apply Ha'. left.
  - intros [= -> _]. exfalso. apply Ha. left.
  - intros [= -> E]. apply not_elem_of_cons in Ha as [_ Ha].
    apply not_elem_of_cons in Ha' as [_ Ha'].
    destruct (IH a' Ha Ha' E) as [-> ->]. done.
Qed.

Lemma id_inj (pre : str) a b a' b' :
  pre ++ str_of_int a ++ lit "_" ++ str_of_int b
  = pre ++ str_of_int a' ++ lit "_" ++ str_of_int b' ->
  a = a' /\ b = b'.
Proof.
  intros H%app_inv_head.
  apply split_at_underscore in H as [Ha Hb];
    try apply str_of_int_no_underscore.
  split; now apply str_of_int_inj.
Qed.

Lemma dl_id_inj a b a' b' : dl_id a b = dl_id a' b' -> a = a' /\ b = b'.
Proof. apply id_inj. Qed.

Lemma page_id_inj a b a' b' : page_id a b = page_id a' b' -> a = a' /\ b = b'.
Proof. apply id_inj. Qed.

End Ids.

(** ** The merge loop: invariants of the chunk list *)

Arguments Docling.flush : simpl never.
Arguments lit : simpl never.

Section MergeInvariant.
Import Docling.

(** A property [P] of the chunk list that every [flush] keeps, the page
    handed to [flush] satisfying [Q]. *)
Variable P : list Chunk -> Prop.
Variable Q : option Z -> Prop.
Hypothesis flush_closed :
  forall cs b s p path, Q p -> P cs -> P (flush cs b s p path).

Lemma accumulate_inv i sp st :
  Q (span_page sp) -> Q (current_page st) -> P (chunks st) ->
  P (chunks (accumulate i sp st)) /\ Q (current_page (accumulate i sp st)).
Proof.
  destruct st as [cs b s cl cp cpg], sp as [[t p] path].
  unfold accumulate, flush_state, span_page. simpl. intros Hp Hq HP.
  destruct b; simpl; repeat case_bool_decide; simpl; auto.
Qed.

Lemma length_flush_inv i sp max_chars overlap st :
  Q (span_page sp) -> Q (current_page st) -> P (chunks st) ->
  P (chunks (length_flush i sp max_chars overlap st))
  /\ Q (current_page (length_flush i sp max_chars overlap st)).
Proof.
  destruct st as [cs b s cl cp cpg], sp as [[t p] path].
  unfold length_flush, flush_state, span_page. simpl. intros Hp Hq HP.
  destruct (max_chars <=? cl); [|auto].
  destruct (0 <? overlap); simpl; repeat case_bool_decide; simpl; auto.
Qed.

Lemma merge_step_inv i sp max_chars overlap st :
  Q (span_page sp) -> Q (current_page st) -> P (chunks st) ->
  P (chunks (merge_step i sp max_chars overlap st))
  /\ Q (current_page (merge_step i sp max_chars overlap st)).
Proof.
  intros Hp Hq HP. unfold merge_step.
  destruct (accumulate_inv i sp st Hp Hq HP) as [HP' Hq'].
  now apply length_flush_inv.
Qed.

Lemma merge_loop_inv spans : forall i max_chars overlap st,
  Forall (fun sp => Q (span_page sp)) spans ->
  Q (current_page st) -> P (chunks st) ->
  P (chunks (merge_loop i spans max_chars overlap st))
  /\ Q (current_page (merge_loop i spans max_chars overlap st)).
Proof.
  induction spans as [|sp spans IH]; intros i max_chars overlap st Hs Hq HP.
  - done.
  - inversion Hs as [|? ? Hsp Hrest]; subst. simpl.
    destruct (merge_step_inv i sp max_chars overlap st Hsp Hq HP) as [HP' Hq'].
    now apply IH.
Qed.

Lemma flush_state_inv st : Q (current_page st) -> P (chunks st) -> P (flush_state st).
Proof. intros. now apply flush_closed. Qed.

Lemma merge_from_inv spans i max_chars overlap st :
  Forall (fun sp => Q (span_page sp)) spans ->
  Q (current_page st) -> P (chunks st) ->
  P (flush_state (merge_loop i spans max_chars overlap st)).
Proof.
  intros Hs Hq HP.
  destruct (merge_loop_inv spans i max_chars overlap st Hs Hq HP).
  now apply flush_state_inv.
Qed.

End MergeInvariant.

Section MergeFacts.
Import Docling.

Lemma flush_cases cs b s p path :
  flush cs b s p path = cs
  \/ (b <> [] /\ strip (join sep b) <> []
      /\ flush cs b s p path
         = cs ++ [mkChunk (dl_id s (len cs)) (page_or_1 p) (strip (join sep b)) path]).
Proof.
  unfold flush. destruct b as [|x b]; [now left|].
  destruct (strip (join sep (x :: b))) eqn:E; [now left|].
  right. repeat split; done.
Qed.

Lemma flush_emits cs b s p path :
  b <> [] -> ends_nonspace (join sep b) = true ->
  flush cs b s p path
  = cs ++ [mkChunk (dl_id s (len cs)) (page_or_1 p) (lstrip (join sep b)) path].
Proof.
  intros Hb He. unfold flush. destruct b as [|x b]; [done|].
  rewrite strip_ends_nonspace by done.
  pose proof (lstrip_ends_nonspace_nonempty _ He).
  now destruct (lstrip (join sep (x :: b))).
Qed.



Lemma merge_loop_app pre post : forall i max_chars overlap st,
  merge_loop i (pre ++ post) max_chars overlap st
  = merge_loop (i + len pre) post max_chars overlap
      (merge_loop i pre max_chars overlap st).
Proof.
  induction pre as [|sp pre IH]; intros i max_chars overlap st; simpl.
  - f_equal. unfold len. simpl. lia.
  - rewrite IH. f_equal. unfold len. simpl. lia.
Qed.

(** The chunk list only grows at its end. *)
Lemma merge_from_prefix cs0 spans i max_chars overlap st :
  cs0 `prefix_of` chunks st ->
  cs0 `prefix_of` flush_state (merge_loop i spans max_chars overlap st).
Proof.
  intros H.
  apply (merge_from_inv (fun cs => cs0 `prefix_of` cs) (fun _ => True)); try done.
  - intros cs b s p path _ Hcs.
    destruct (flush_cases cs b s p path) as [->|(_ & _ & ->)]; [done|].
    now apply prefix_app_r.
  - now apply Forall_forall.
Qed.

End MergeFacts.

(** ** Chunk invariants of the tree-walk path *)

Section TreeWalkChunks.
Import Docling.

Lemma strip_nonempty_stable s : strip s <> [] -> strip (strip s) <> [].
Proof. intros H. unfold strip. now rewrite strip_by_idem. Qed.

Lemma merge_from_texts spans i max_chars overlap st :
  Forall (fun c => strip (text c) <> []) (chunks st) ->
  Forall (fun c => strip (text c) <> [])
         (flush_state (merge_loop i spans max_chars overlap st)).
Proof.
  intros H.
  apply (merge_from_inv (Forall (fun c => strip (text c) <> [])) (fun _ => True));
    try done.
  - intros cs b s p path _ Hcs.
    destruct (flush_cases cs b s p path) as [->|(_ & Hne & ->)]; [done|].
    apply Forall_app. split; [done|]. constructor; [|done].
    simpl. now apply strip_nonempty_stable.
  - now apply Forall_forall.
Qed.

Lemma merge_from_ids spans i max_chars overlap st :
  ids_by_position (chunks st) ->
  ids_by_position (flush_state (merge_loop i spans max_chars overlap st)).
Proof.
  intros H.
  apply (merge_from_inv ids_by_position (fun _ => True)); try done.
  - intros cs b s p path _ Hcs.
    destruct (flush_cases cs b s p path) as [->|(_ & _ & ->)]; [done|].
    intros j c Hj. apply lookup_app_Some in Hj as [Hj|[Hge Hj]].
    + now apply Hcs.
    + apply list_lookup_singleton_Some in Hj as [Hj <-]. simpl.
      exists s. f_equal. unfold len. lia.
  - now apply Forall_forall.
Qed.

Lemma ids_by_position_NoDup cs : ids_by_position cs -> NoDup (map chunk_id cs).
Proof.
  intros H. apply NoDup_alt. intros i j x Hi Hj.
  rewrite list_lookup_fmap in Hi, Hj.
  destruct (cs !! i) as [ci|] eqn:Ei; [|done].
  destruct (cs !! j) as [cj|] eqn:Ej; [|done].
  simpl in Hi, Hj. injection Hi as Hi. injection Hj as Hj.
  destruct (H i ci Ei) as [a Ha], (H j cj Ej) as [a' Ha'].
  assert (dl_id a (Z.of_nat i) = dl_id a' (Z.of_nat j)) as E by congruence.
  apply dl_id_inj in E as [_ E]. lia.
Qed.

Lemma page_or_1_pos p : page_nonneg p -> 1 <= page_or_1 p.
Proof.
  destruct p as [z|]; simpl; [|lia].
  intros Hz. destruct (Z.eqb_spec z 0); lia.
Qed.

Lemma merge_from_pages spans i max_chars overlap st :
  Forall (fun sp => page_nonneg (span_page sp)) spans ->
  page_nonneg (current_page st) ->
  Forall (fun c => 1 <= page c) (chunks st) ->
  Forall (fun c => 1 <= page c)
         (flush_state (merge_loop i spans max_chars overlap st)).
Proof.
  intros Hs Hq H.
  apply (merge_from_inv (Forall (fun c => 1 <= page c)) page_nonneg); try done.
  intros cs b s p path Hp Hcs.
  destruct (flush_cases cs b s p path) as [->|(_ & _ & ->)]; [done|].
  apply Forall_app. split; [done|]. constructor; [|done].
  simpl. now apply page_or_1_pos.
Qed.

Lemma merge_spans_invariants spans max_chars overlap :
  Forall (fun c => strip (text c) <> []) (merge_spans spans max_chars overlap)
  /\ NoDup (map chunk_id (merge_spans spans max_chars overlap))
  /\ (Forall (fun sp => page_nonneg (span_page sp)) spans ->
      Forall (fun c => 1 <= page c) (merge_spans spans max_chars overlap)).
Proof.
  unfold merge_spans. repeat split.
  - now apply merge_from_texts.
  - apply ids_by_position_NoDup, merge_from_ids. now intros j c Hj.
  - intros Hs. now apply merge_from_pages.
Qed.

End TreeWalkChunks.

(** ** Chunk invariants of the page-window path *)

Section PageWindowChunks.
Import Ingest.

Lemma slice_inside {A} (l : list A) a b :
  0 <= a -> a <= b -> b <= len l ->
  slice l a b = take (Z.to_nat (b - a)) (drop (Z.to_nat a) l).
Proof.
  intros Ha Hab Hb. unfold slice, py_index.
  destruct (Z.ltb_spec a 0); [lia|]. destruct (Z.ltb_spec b 0); [lia|].
  now rewrite !Z.min_l by lia.
Qed.

Lemma window_body_chunk page_num text max_chars overlap start :
  fst (window_body page_num text max_chars overlap start)
  = mkChunk (page_id page_num start) page_num
      (slice text start (Z.min (len text) (start + max_chars))) None.
Proof.
  unfold window_body.
  now destruct (Z.min (len text) (start + max_chars) =? len text).
Qed.

Lemma window_text_nonempty (body : str) max_chars start :
  0 < max_chars -> 0 <= start < len body ->
  slice body start (Z.min (len body) (start + max_chars)) <> [].
Proof.
  intros Hm Hs. rewrite slice_inside by lia.
  intros E. apply (f_equal length) in E.
  rewrite length_take, length_drop in E. unfold len in *. simpl in E. lia.
Qed.

(** What one page contributes: chunks of that page, with texts that are
    not empty, and ids made of the page number and of window starts that
    increase. *)
Lemma page_windows_chunks page_num body max_chars overlap :
  0 <= overlap < max_chars ->
  forall fuel start cs,
    0 <= start ->
    page_windows fuel page_num body max_chars overlap start = Some cs ->
    Forall (fun c => text c <> [] /\ page c = page_num
                     /\ exists s, start <= s /\ chunk_id c = page_id page_num s) cs
    /\ NoDup (map chunk_id cs).
Proof.
  intros Ho. induction fuel as [|fuel IH]; intros start cs H0; simpl;
    destruct (Z.ltb_spec start (len body)) as [Hlt|Hge]; try done;
    try (intros [= <-]; split; [constructor|constructor]).
  pose proof (window_body_advances page_num body max_chars overlap start Ho
                (conj H0 Hlt)) as Hadv.
  pose proof (window_body_chunk page_num body max_chars overlap start) as Hc.
  destruct (window_body page_num body max_chars overlap start) as [c next].
  simpl in Hadv, Hc.
  assert (text c <> [] /\ page c = page_num
          /\ exists s, start <= s /\ chunk_id c = page_id page_num s) as Hhead.
  { subst c. simpl. repeat split.
    - apply window_text_nonempty; lia.
    - exists start. split; [lia|done]. }
  destruct next as [start'|].
  - destruct (page_windows fuel page_num body max_chars overlap start')
      as [rest|] eqn:Er; [|done].
    simpl. intros [= <-].
    destruct (IH start' rest ltac:(lia) Er) as [Hall Hnd].
    split.
    + constructor; [done|].
      eapply Forall_impl; [apply Hall|].
      intros x (? & ? & s & ? & ?). repeat split; try done.
      exists s. split; [lia|done].
    + simpl. constructor; [|done].
      intros Hin. apply list_elem_of_fmap in Hin as (x & Hx & Hin).
      rewrite Forall_forall in Hall.
      destruct (Hall x Hin) as (_ & _ & s & Hs & Hid).
      rewrite Hc in Hx. simpl in Hx. rewrite Hid in Hx.
      apply page_id_inj in Hx as [_ Hx]. lia.
  - intros [= <-]. split.
    + constructor; [done|constructor].
    + simpl. constructor; [apply not_elem_of_nil|constructor].
Qed.

Lemma simple_chunk_pages_chunks max_chars overlap :
  0 <= overlap < max_chars ->
  forall fuel pages cs,
    simple_chunk_pages fuel pages max_chars overlap = Some cs ->
    Forall (fun c => text c <> [] /\ page c ∈ map fst pages
                     /\ exists s, chunk_id c = page_id (page c) s) cs
    /\ (NoDup (map fst pages) -> NoDup (map chunk_id cs)).
Proof.
  intros Ho fuel. induction pages as [|[page_num body] pages IH]; intros cs; simpl.
  - intros [= <-]. split; [constructor|intros _; constructor].
  - destruct (page_windows fuel page_num body max_chars overlap 0) as [ws|] eqn:Ew;
      [|done].
    destruct (simple_chunk_pages fuel pages max_chars overlap) as [rest|]; [|done].
    simpl. intros [= <-].
    destruct (page_windows_chunks page_num body max_chars overlap Ho fuel 0 ws
                ltac:(lia) Ew) as [Hws Hnd].
    destruct (IH rest eq_refl) as [Hrest Hndr].
    split.
    + apply Forall_app. split.
      * eapply Forall_impl; [apply Hws|].
        intros x (? & Hp & s & _ & Hid). repeat split; [done| |].
        -- rewrite Hp. left.
        -- exists s. now rewrite Hp.
      * eapply Forall_impl; [apply Hrest|].
        intros x (? & Hp & Hid). repeat split; [done| |done]. now right.
    + intros Hpn. apply NoDup_cons in Hpn as [Hnotin Hpn].
      rewrite map_app. apply NoDup_app. repeat split; [done| |now apply Hndr].
      intros id Hin1 Hin2.
      apply list_elem_of_fmap in Hin1 as (x & -> & Hx).
      apply list_elem_of_fmap in Hin2 as (y & Hxy & Hy).
      rewrite Forall_forall in Hws, Hrest.
      destruct (Hws x Hx) as (_ & Hpx & s & _ & Hidx).
      destruct (Hrest y Hy) as (_ & Hpy & s' & Hidy).
      rewrite Hidx, Hidy in Hxy. apply page_id_inj in Hxy as [Hxy _].
      apply Hnotin. now rewrite Hxy.
Qed.

End PageWindowChunks.

(** ** The assembler's chunk lists *)

Section AssemblerChunks.
Import Docling Ingest.

(** C4, as the code has it.  Tree walk, for a document that has a
    JSON-like form: every chunk's text is not empty after trimming, the
    chunk ids are pairwise distinct, and every page is at least 1 as long
    as no collected span carries a negative page number.  Page windows,
    with [0 <= overlap < max_chars]: every chunk's text is not empty (it
    may be blank), every page is at least 1 when the input page numbers
    are, and the chunk ids are pairwise distinct when the input page
    numbers are. *)
Theorem assembler_chunk_invariants :
  (forall repr_str repr_float json_loads doc max_chars overlap cs,
      _docling_to_json json_loads doc <> PNone ->
      docling_to_chunks repr_str repr_float json_loads doc max_chars overlap = Some cs ->
      Forall (fun c => strip (text c) <> []) cs
      /\ NoDup (map chunk_id cs)
      /\ (forall spans,
             collect_spans repr_str repr_float (_docling_to_json json_loads doc)
             = Some spans ->
             Forall (fun sp => page_nonneg (span_page sp)) spans ->
             Forall (fun c => 1 <= page c) cs))
  /\ (forall fuel pages max_chars overlap cs,
         0 <= overlap < max_chars ->
         simple_chunk_pages fuel pages max_chars overlap = Some cs ->
         Forall (fun c => text c <> []) cs
         /\ (Forall (fun p => 1 <= fst p) pages -> Forall (fun c => 1 <= page c) cs)
         /\ (NoDup (map fst pages) -> NoDup (map chunk_id cs))).
Proof.
  split.
  - intros repr_str repr_float json_loads doc max_chars overlap cs Hraw.
    unfold docling_to_chunks.
    destruct (_docling_to_json json_loads doc) eqn:Er; try done;
      (destruct (collect_spans repr_str repr_float _) as [spans|] eqn:Es; [|done];
       intros [= <-];
       destruct (merge_spans_invariants spans max_chars overlap) as (Ht & Hn & Hp);
       repeat split; try done;
       intros spans' [= <-]; apply Hp).
  - intros fuel pages max_chars overlap cs Ho Hcs.
    destruct (simple_chunk_pages_chunks max_chars overlap Ho fuel pages cs Hcs)
      as [Hall Hnd].
    repeat split; [| |done].
    + eapply Forall_impl; [apply Hall|]. now intros c (? & _).
    + intros Hpages. eapply Forall_impl; [apply Hall|].
      intros c (_ & Hin & _).
      apply list_elem_of_fmap in Hin as (p & -> & Hp).
      rewrite Forall_forall in Hpages. now apply Hpages.
Qed.

(** C5, as the code has it.  A document that has no JSON-like form at all
    yields exactly one chunk, [dl_0], on page 1, with no section hint,
    holding the whole stringified input; an empty parsed structure (an
    empty dict or an empty list) yields no chunk. *)
Theorem degenerate_input_chunks repr_str repr_float json_loads doc max_chars overlap :
  (_docling_to_json json_loads doc = PNone ->
   docling_to_chunks repr_str repr_float json_loads doc max_chars overlap
   = Some [mkChunk (lit "dl_0") 1 (doc_str doc) None])
  /\ (_docling_to_json json_loads doc = PDict []
      \/ _docling_to_json json_loads doc = PList [] ->
      docling_to_chunks repr_str repr_float json_loads doc max_chars overlap = Some []).
Proof.
  unfold docling_to_chunks. split.
  - now intros ->.
  - now intros [-> | ->].
Qed.

End AssemblerChunks.

(** A page of blank text becomes a chunk whose text is empty after
    trimming. *)
Lemma page_window_blank_chunk :
  exists c,
    Ingest.simple_chunk_pages 1 [(1, lit " ")] 2000 200 = Some [c]
    /\ strip (text c) = [].
Proof. eexists. split; vm_compute; reflexivity. Qed.

(** A node whose ["type"] is a list makes the set test raise. *)
Example unhashable_type_raises :
  Docling.collect_spans repr_str_quoted repr_float_zero
    (PDict [ (lit "text", PStr (lit "intro"));
             (lit "items", PList [PDict [(lit "type", PList [PStr (lit "figure")])]]) ])
  = None.
Proof. vm_compute. reflexivity. Qed.

Example small_doc_chunks :
  Docling.docling_to_chunks repr_str_quoted repr_float_zero json_loads_tiny small_doc 2500 200
  = Some
      [ mkChunk (lit "dl_0_0") 2 (lit "Supply of pumps") (Some (lit "Scope"));
        mkChunk (lit "dl_1_1") 1 (lit "EMD: Rs. 50,000") (Some (lit "Scope > Terms"));
        mkChunk (lit "dl_2_2") 1 (lit "a | 1" ++ nl ++ lit " | b") (Some (lit "Scope")) ].
Proof. vm_compute. reflexivity. Qed.

Lemma assembler_chunk_invariants_witness :
  (Forall (fun c => strip (text c) <> [])
     [ mkChunk (lit "dl_0_0") 2 (lit "Supply of pumps") (Some (lit "Scope"));
       mkChunk (lit "dl_1_1") 1 (lit "EMD: Rs. 50,000") (Some (lit "Scope > Terms"));
       mkChunk (lit "dl_2_2") 1 (lit "a | 1" ++ nl ++ lit " | b") (Some (lit "Scope")) ])
  /\ (forall cs, Ingest.simple_chunk_pages 8 [(1, lit "abcdefgh"); (2, lit "xy")] 3 1 = Some cs ->
      Forall (fun c => text c <> []) cs).
Proof.
  split.
  - apply (proj1 assembler_chunk_invariants repr_str_quoted repr_float_zero
             json_loads_tiny small_doc 2500 200).
    + vm_compute. discriminate.
    + vm_compute. reflexivity.
  - intros cs Hcs.
    apply (proj2 assembler_chunk_invariants 8%nat
             [(1, lit "abcdefgh"); (2, lit "xy")] 3 1 cs); [lia|exact Hcs].
Defined.

(** An empty parsed structure yields no chunk, not one. *)
Lemma empty_structure_no_chunk :
  Docling.docling_to_chunks repr_str_quoted repr_float_zero json_loads_tiny empty_doc 2500 200
  = Some []
  /\ ~ exists c,
        Docling.docling_to_chunks repr_str_quoted repr_float_zero json_loads_tiny
          empty_doc 2500 200 = Some [c].
Proof. split; [vm_compute; reflexivity|]. intros [c H]. vm_compute in H. discriminate. Qed.

Lemma degenerate_input_chunks_witness :
  Docling.docling_to_chunks repr_str_quoted repr_float_zero json_loads_tiny opaque_doc 2500 200
  = Some [mkChunk (lit "dl_0") 1 (lit "Document(7 pages)") None].
Proof.
  apply (proj1 (degenerate_input_chunks repr_str_quoted repr_float_zero json_loads_tiny
                  opaque_doc 2500 200)).
  vm_compute. reflexivity.
Defined.

(** ** Merge and split: how many chunks one section yields *)

Section MergeCount.
Import Docling.

Variables (max_chars overlap : Z) (path0 : option str).
Hypothesis max_pos : 0 < max_chars.
Hypothesis no_seed : overlap <= 0.










End MergeCount.




(** ** Overlap across a boundary made by length *)

Section Overlap.
Import Docling.

Variables (max_chars overlap : Z).
Hypothesis overlap_pos : 0 < overlap.

Lemma accumulate_cases i sp st :
  buf st <> [] ->
  accumulate i sp st
  = mkState (chunks st) (buf st ++ [span_text sp]) (start st)
      (cur_len st + len (span_text sp)) (current_path st) (current_page st)
  \/ (chunks (accumulate i sp st) = flush_state st
      /\ buf (accumulate i sp st) = [span_text sp]).
Proof.
  destruct st as [cs b s cl cp cpg], sp as [[t p] path].
  unfold accumulate, span_text. simpl. intros Hb.
  destruct b as [|x b]; [done|]. simpl.
  case_bool_decide; simpl; [right|left]; done.
Qed.

Lemma accumulate_buf i sp st :
  exists b, buf (accumulate i sp st) = b ++ [span_text sp].
Proof.
  destruct st as [cs b s cl cp cpg], sp as [[t p] path].
  unfold accumulate, span_text. simpl.
  destruct b as [|x b]; simpl.
  - case_bool_decide; simpl; now exists [].
  - case_bool_decide; simpl; [now exists []|now exists (x :: b)].
Qed.

Lemma length_flush_cases i sp st :
  (cur_len st < max_chars /\ length_flush i sp max_chars overlap st = st)
  \/ (max_chars <= cur_len st
      /\ chunks (length_flush i sp max_chars overlap st) = flush_state st
      /\ (buf st <> [] ->
          buf (length_flush i sp max_chars overlap st)
          = [tail_chars (join sep (buf st)) overlap])
      /\ (buf st = [] -> buf (length_flush i sp max_chars overlap st) = [])).
Proof.
  destruct st as [cs b s cl cp cpg], sp as [[t p] path].
  unfold length_flush. simpl.
  destruct (Z.leb_spec max_chars cl); [right|now left].
  destruct (Z.ltb_spec 0 overlap); [|lia]. simpl.
  case_bool_decide; simpl; repeat split; done.
Qed.

Lemma length_flush_quiet i sp st :
  cur_len st < max_chars -> length_flush i sp max_chars overlap st = st.
Proof.
  destruct st as [cs b s cl cp cpg], sp as [[t p] path].
  unfold length_flush. simpl. intros H.
  now destruct (Z.leb_spec max_chars cl); [lia|].
Qed.

Lemma merge_step_buf_ok i sp st :
  span_ok sp -> buf_ok (buf (merge_step i sp max_chars overlap st)).
Proof.
  intros Hsp. unfold merge_step.
  destruct (accumulate_buf i sp st) as [b Hb].
  assert (ends_nonspace (join sep (buf (accumulate i sp st))) = true) as Hj
    by (rewrite Hb; now apply join_ends_nonspace).
  destruct (length_flush_cases i sp (accumulate i sp st))
    as [[_ ->]|(_ & _ & Hne & _)].
  - now right.
  - rewrite Hne by (rewrite Hb; now destruct b).
    right. simpl. now apply ends_nonspace_tail.
Qed.

Lemma merge_loop_buf_ok spans : forall i st,
  Forall span_ok spans -> buf_ok (buf st) ->
  buf_ok (buf (merge_loop i spans max_chars overlap st)).
Proof.
  induction spans as [|sp spans IH]; intros i st Hs Hb; [done|].
  apply Forall_cons in Hs as [Hsp Hrest]. simpl.
  apply IH; [done|]. now apply merge_step_buf_ok.
Qed.

(** A buffer that starts with the seed [tail] is flushed as a chunk whose
    text starts with what is left of the seed. *)
Lemma flush_seeded st tail r :
  buf st = tail :: r -> ends_nonspace tail = true ->
  ends_nonspace (join sep (buf st)) = true ->
  exists c, flush_state st = chunks st ++ [c] /\ lstrip tail `prefix_of` text c.
Proof.
  intros Hb Ht Hj. unfold flush_state.
  rewrite flush_emits by (try done; now rewrite Hb).
  eexists. split; [done|]. simpl.
  rewrite Hb. destruct (join_hd sep tail r) as [k ->].
  unfold lstrip. rewrite lstrip_by_app.
  - now apply prefix_app_r.
  - now apply lstrip_ends_nonspace_nonempty.
Qed.

Lemma prefix_snoc_lookup {A} (l k : list A) (x : A) :
  l ++ [x] `prefix_of` k -> k !! length l = Some x.
Proof.
  intros [m ->]. rewrite <- app_assoc. now apply list_lookup_middle.
Qed.

Lemma length_flush_prefix cs0 i sp st :
  cs0 `prefix_of` chunks st ->
  cs0 `prefix_of` chunks (length_flush i sp max_chars overlap st).
Proof.
  intros H.
  destruct (length_flush_cases i sp st) as [[_ ->]|(_ & -> & _)]; [done|].
  unfold flush_state.
  destruct (flush_cases (chunks st) (buf st) (start st) (current_page st)
              (current_path st)) as [->|(_ & _ & ->)]; [done|].
  now apply prefix_app_r.
Qed.

(** After a seed, whatever follows, the next chunk starts with it. *)
Lemma next_chunk_seeded post : forall i st tail r,
  buf st = tail :: r -> ends_nonspace tail = true ->
  ends_nonspace (join sep (buf st)) = true ->
  Forall span_ok post ->
  exists c,
    flush_state (merge_loop i post max_chars overlap st) !! length (chunks st) = Some c
    /\ lstrip tail `prefix_of` text c.
Proof.
  induction post as [|sp post IH]; intros i st tail r Hb Ht Hj Hs.
  - destruct (flush_seeded st tail r Hb Ht Hj) as (c & E & Hp).
    exists c. split; [|done]. simpl. rewrite E. now rewrite list_lookup_middle.
  - apply Forall_cons in Hs as [Hsp Hrest]. simpl. unfold merge_step.
    destruct (accumulate_cases i sp st) as [Eacc|[Ec _]]; [now rewrite Hb| |].
    + set (st1 := accumulate i sp st) in *.
      assert (buf st1 = tail :: (r ++ [span_text sp])) as Hb1
        by (rewrite Eacc; simpl; now rewrite Hb).
      assert (ends_nonspace (join sep (buf st1)) = true) as Hj1.
      { rewrite Eacc. simpl. now apply join_ends_nonspace. }
      assert (chunks st1 = chunks st) as Hc1 by now rewrite Eacc.
      destruct (length_flush_cases i sp st1) as [[_ ->]|(_ & Ec & _)].
      * rewrite <- Hc1. now apply (IH (i + 1) st1 tail (r ++ [span_text sp])).
      * destruct (flush_seeded st1 tail _ Hb1 Ht Hj1) as (c & E & Hp).
        exists c. split; [|done].
        apply prefix_snoc_lookup. apply merge_from_prefix.
        rewrite Ec, E, Hc1. done.
    + destruct (flush_seeded st tail r Hb Ht Hj) as (c & E & Hp).
      exists c. split; [|done].
      apply prefix_snoc_lookup. apply merge_from_prefix.
      apply length_flush_prefix. rewrite Ec, E. done.
Qed.

Lemma merge_boundary_overlap pre sp post :
  Forall span_ok (pre ++ sp :: post) ->
  let st := accumulate (len pre) sp (merge_loop 0 pre max_chars overlap init_state) in
  max_chars <= cur_len st ->
  let cs := merge_spans (pre ++ sp :: post) max_chars overlap in
  let k := length (chunks st) in
  exists ci cj,
    cs !! k = Some ci /\ cs !! S k = Some cj
    /\ text ci = strip (join sep (buf st))
    /\ lstrip (tail_chars (text ci) overlap) `prefix_of` text cj.
Proof.
  intros Hs st Hfire cs k.
  apply Forall_app in Hs as [Hpre Hs]. apply Forall_cons in Hs as [Hsp Hpost].
  destruct (accumulate_buf (len pre) sp
              (merge_loop 0 pre max_chars overlap init_state)) as [b Hb].
  fold st in Hb.
  assert (buf st <> []) as Hne by (rewrite Hb; now destruct b).
  assert (ends_nonspace (join sep (buf st)) = true) as Hj
    by (rewrite Hb; now apply join_ends_nonspace).
  set (st1 := length_flush (len pre) sp max_chars overlap st).
  assert (cs = flush_state (merge_loop (len pre + 1) post max_chars overlap st1)) as Ecs.
  { unfold cs, merge_spans. rewrite merge_loop_app. simpl. done. }
  destruct (length_flush_cases (len pre) sp st) as [[Hq _]|(_ & Ec & Eb & _)];
    [lia|].
  fold st1 in Ec, Eb. specialize (Eb Hne).
  pose proof (flush_emits (chunks st) (buf st) (start st) (current_page st)
                (current_path st) Hne Hj) as Ef.
  fold (flush_state st) in Ef.
  set (ci := mkChunk (dl_id (start st) (len (chunks st)))
               (page_or_1 (current_page st)) (lstrip (join sep (buf st)))
               (current_path st)) in *.
  assert (ends_nonspace (tail_chars (join sep (buf st)) overlap) = true) as Htail
    by now apply ends_nonspace_tail.
  destruct (next_chunk_seeded post (len pre + 1) st1
              (tail_chars (join sep (buf st)) overlap) [] Eb Htail)
    as (cj & Hcj & Hp); [now rewrite Eb|done|].
  exists ci, cj. repeat split.
  - rewrite Ecs. apply prefix_snoc_lookup. apply merge_from_prefix.
    rewrite Ec, Ef. done.
  - rewrite Ecs. rewrite Ec, Ef in Hcj. rewrite length_app in Hcj. simpl in Hcj.
    now replace (S k) with (k + 1)%nat by lia.
  - simpl. now rewrite strip_ends_nonspace.
  - simpl. now rewrite lstrip_tail_lstrip.
Qed.

End Overlap.

Section WindowOverlap.
Import Ingest.

Variables (max_chars overlap : Z).
Hypothesis overlap_range : 0 < overlap < max_chars.

Lemma page_windows_head fuel page_num body start c cs :
  page_windows fuel page_num body max_chars overlap start = Some (c :: cs) ->
  start < len body
  /\ c = fst (window_body page_num body max_chars overlap start)
  /\ match snd (window_body page_num body max_chars overlap start) with
     | None => cs = []
     | Some start' =>
         exists fuel',
           page_windows fuel' page_num body max_chars overlap start' = Some cs
     end.
Proof.
  destruct fuel as [|fuel]; simpl;
    destruct (Z.ltb_spec start (len body)) as [Hlt|Hge]; try done.
  destruct (window_body page_num body max_chars overlap start) as [c' next].
  destruct next as [start'|]; simpl.
  - destruct (page_windows fuel page_num body max_chars overlap start') eqn:E;
      [|done].
    simpl. intros [= -> ->]. repeat split; try done. now exists fuel.
  - now intros [= -> <-].
Qed.

(** Two windows in a row: the second starts [overlap] characters before
    the end of the first. *)
Lemma window_pair_overlap (body : str) start :
  0 <= start -> start + max_chars < len body ->
  tail_chars (slice body start (Z.min (len body) (start + max_chars))) overlap
  `prefix_of`
  slice body (start + max_chars - overlap)
    (Z.min (len body) (start + max_chars - overlap + max_chars)).
Proof.
  intros H0 Hlt.
  rewrite Z.min_r by lia.
  rewrite !slice_inside by lia.
  rewrite tail_chars_drop by lia.
  rewrite length_take, length_drop.
  replace (Z.to_nat (start + max_chars - start)) with (Z.to_nat max_chars) by lia.
  rewrite Nat.min_l by (unfold len in *; lia).
  rewrite skipn_firstn_comm, drop_drop.
  replace (Z.to_nat max_chars - (Z.to_nat max_chars - Z.to_nat overlap))%nat
    with (Z.to_nat overlap) by lia.
  replace (Z.to_nat start + (Z.to_nat max_chars - Z.to_nat overlap))%nat
    with (Z.to_nat (start + max_chars - overlap)) by lia.
  set (l := drop _ body).
  set (m := Z.to_nat (_ - _)).
  assert (Z.to_nat overlap <= m)%nat as Hm by (unfold m; lia).
  replace (take (Z.to_nat overlap) l) with (take (Z.to_nat overlap) (take m l))
    by (rewrite take_take; f_equal; lia).
  apply prefix_take.
Qed.

Lemma page_windows_overlap page_num body : forall fuel start cs,
  0 <= start ->
  page_windows fuel page_num body max_chars overlap start = Some cs ->
  forall (i : nat) ci cj,
    cs !! i = Some ci -> cs !! S i = Some cj ->
    tail_chars (text ci) overlap `prefix_of` text cj.
Proof.
  intros fuel start cs. revert fuel start.
  induction cs as [|c cs IH]; intros fuel start H0 Hcs i ci cj Hi Hj; [done|].
  apply page_windows_head in Hcs as (Hlt & Hc & Hnext).
  destruct (Z.lt_ge_cases (start + max_chars) (len body)) as [Hin|Hlast].
  - rewrite window_body_next in Hnext by done.
    destruct Hnext as [fuel' Hrest].
    rewrite Z.max_r in Hrest by lia.
    destruct i as [|i].
    + simpl in Hi, Hj. injection Hi as <-.
      destruct cs as [|c2 cs]; [done|]. simpl in Hj. injection Hj as <-.
      apply page_windows_head in Hrest as (_ & Hc2 & _).
      rewrite Hc, Hc2, !window_body_chunk. simpl.
      now apply window_pair_overlap.
    + simpl in Hi, Hj.
      apply (IH fuel' (start + max_chars - overlap) ltac:(lia) Hrest i ci cj Hi Hj).
  - rewrite window_body_last in Hnext by lia. subst cs.
    destruct i; simpl in Hj; done.
Qed.

End WindowOverlap.

(** C3, as the code has it.  Tree walk, with [overlap > 0] and spans whose
    texts end in a character that is not white space: when the length
    test fires at a span, the chunk flushed there and the chunk after it
    are such that the trailing [overlap] characters of the first, their
    leading white space removed, are a prefix of the second ([flush] trims
    both chunks).  Page windows, with [0 < overlap < max_chars]: the
    trailing [overlap] characters of a window are a prefix of the next
    window of the same page. *)
Theorem overlap_across_length_boundary (max_chars overlap : Z) :
  0 < overlap ->
  (forall pre sp post,
      Forall span_ok (pre ++ sp :: post) ->
      let st := Docling.accumulate (len pre) sp
                  (Docling.merge_loop 0 pre max_chars overlap Docling.init_state) in
      max_chars <= Docling.cur_len st ->
      let cs := Docling.merge_spans (pre ++ sp :: post) max_chars overlap in
      let k := length (Docling.chunks st) in
      exists ci cj,
        cs !! k = Some ci /\ cs !! S k = Some cj
        /\ text ci = strip (join Docling.sep (Docling.buf st))
        /\ lstrip (tail_chars (text ci) overlap) `prefix_of` text cj)
  /\ (overlap < max_chars ->
      forall fuel page_num body cs,
        Ingest.page_windows fuel page_num body max_chars overlap 0 = Some cs ->
        forall (i : nat) ci cj,
          cs !! i = Some ci -> cs !! S i = Some cj ->
          tail_chars (text ci) overlap `prefix_of` text cj).
Proof.
  intros Ho. split.
  - intros pre sp post Hs. now apply merge_boundary_overlap.
  - intros Hm fuel page_num body cs Hcs.
    now apply (page_windows_overlap max_chars overlap (conj Ho Hm)
                 page_num body fuel 0 cs).
Qed.

Lemma overlap_across_length_boundary_witness :
  (exists ci cj,
      Docling.merge_spans [ (lit "ab cd", None, None); (lit "ef", None, None) ] 5 3
        !! 0%nat = Some ci
      /\ Docling.merge_spans [ (lit "ab cd", None, None); (lit "ef", None, None) ] 5 3
           !! 1%nat = Some cj
      /\ lstrip (tail_chars (text ci) 3) `prefix_of` text cj)
  /\ (forall cs ci cj,
        Ingest.page_windows 8 1 (lit "abcdefgh") 3 1 0 = Some cs ->
        cs !! 0%nat = Some ci -> cs !! 1%nat = Some cj ->
        tail_chars (text ci) 1 `prefix_of` text cj).
Proof.
  destruct (overlap_across_length_boundary 5 3 ltac:(lia)) as [Hwalk Hwin].
  split.
  - destruct (Hwalk [] (lit "ab cd", None, None) [(lit "ef", None, None)])
      as (ci & cj & Hi & Hj & _ & Hp).
    + repeat constructor.
    + vm_compute. discriminate.
    + exists ci, cj. repeat split; assumption.
  - intros cs ci cj Hcs Hi Hj.
    destruct (overlap_across_length_boundary 3 1 ltac:(lia)) as [_ Hwin'].
    apply (Hwin' ltac:(lia) 8%nat 1 (lit "abcdefgh") cs Hcs 0%nat ci cj Hi Hj).
Defined.

(** The first chunk ends in [" cd"]; the second, trimmed by [flush],
    starts with ["cd"]. *)
Lemma overlap_lost_to_trimming :
  let spans := [ (lit "ab cd", None, None); (lit "ef", None, None) ] in
  let cs := Docling.merge_spans spans 5 3 in
  5 <= Docling.cur_len (Docling.accumulate 0 (lit "ab cd", None, None) Docling.init_state)
  /\ exists ci cj,
       cs !! 0%nat = Some ci /\ cs !! 1%nat = Some cj
       /\ text ci = lit "ab cd"
       /\ text cj = lit "cd" ++ nl ++ nl ++ lit "ef"
       /\ ~ tail_chars (text ci) 3 `prefix_of` text cj.
Proof.
  split; [vm_compute; discriminate|].
  eexists _, _. repeat split; try (vm_compute; reflexivity).
  intros [k Hk]. vm_compute in Hk. discriminate.
Qed.

(** ** Schema coercion *)

Section Coercion.
Import Summarizer.
Variable repr_str : str -> str.
Variable repr_float : float -> str.

Lemma notes_of_filter l :
  notes_of repr_str repr_float l
  = map (py_str repr_str repr_float) (List.filter (fun x => negb (is_none x)) l).
Proof.
  induction l as [|x l IH]; [done|].
  destruct x; simpl; now rewrite ?IH.
Qed.

Lemma coerce_field_scalar d k :
  k <> lit "compliance_notes" ->
  coerce_field repr_str repr_float d k = spec_scalar repr_str repr_float d k.
Proof.
  intros Hk. unfold coerce_field, spec_scalar, str_eqb.
  rewrite bool_decide_eq_false_2 by done.
  now destruct (dict_get d k) as [[]|].
Qed.

Lemma coerce_field_notes d :
  coerce_field repr_str repr_float d (lit "compliance_notes")
  = spec_notes repr_str repr_float d.
Proof.
  unfold coerce_field, spec_notes, str_eqb.
  rewrite bool_decide_eq_true_2 by done.
  destruct (dict_get d (lit "compliance_notes")) as [[]|]; simpl; try done.
  now rewrite notes_of_filter.
Qed.

(** C9. On every input dictionary [_coerce_summary] is the coercion the
    specification describes: a scalar field is null when missing or null
    and its string otherwise; [compliance_notes] is the empty list for a
    value that is no list and, for a list, its elements as strings with
    the nulls dropped and the order kept.  The input
    [{"compliance_notes": [1, null, "x"]}] gives the notes [["1", "x"]]
    (and null for the six scalar fields). *)
Theorem coerce_summary_spec :
  (forall d, _coerce_summary repr_str repr_float (PDict d)
             = coerce_spec repr_str repr_float d)
  /\ _coerce_summary repr_str repr_float
       (PDict [(lit "compliance_notes", PList [PInt 1; PNone; PStr (lit "x")])])
     = [ (lit "tender_name", SNone); (lit "issuer", SNone);
         (lit "emd_amount", SNone); (lit "location", SNone);
         (lit "duration", SNone); (lit "scope_of_work", SNone);
         (lit "compliance_notes", SList [lit "1"; lit "x"]) ].
Proof.
  assert (forall d, _coerce_summary repr_str repr_float (PDict d)
             = coerce_spec repr_str repr_float d) as H.
  { intros d. unfold _coerce_summary, coerce_spec, SUMMARY_FIELDS. simpl map.
    rewrite coerce_field_notes.
    rewrite !coerce_field_scalar by (intros E; vm_compute in E; discriminate).
    reflexivity. }
  split; [exact H|].
  rewrite H. vm_compute. reflexivity.
Qed.

End Coercion.

(** ** The extraction engine when the completion fails *)

Section EngineFailure.
Import Summarizer.
Variable repr_str : str -> str.
Variable repr_float : float -> str.
Variable json_loads : str -> option pyval.
Variable re_search : str -> bool -> str -> option re_match.
Variable re_split : str -> str -> list str.
Variable groq_chat : str -> str -> str -> float -> Z -> outcome (option str).

(** A JSON text that [json.loads] reads as an object has an opening
    brace. *)
Hypothesis json_object_brace :
  forall s d, json_loads s = Some (PDict d) -> lbrace ∈ s.

Lemma lstrip_by_subseteq p (s : str) c : c ∈ lstrip_by p s -> c ∈ s.
Proof.
  destruct (lstrip_by_split p s) as [ws [E _]]. intros H.
  rewrite E. apply elem_of_app. now right.
Qed.

Lemma fence_at_brace s g : fence_at s = Some g -> lbrace ∈ s.
Proof.
  unfold fence_at. destruct (starts_with_ci _ s); [|done].
  destruct (lstrip (drop 7 s)) as [|c rest] eqn:E; [done|].
  destruct (N.eqb_spec c lbrace) as [->|]; [|done]. intros _.
  eapply subseteq_drop. eapply lstrip_by_subseteq.
  unfold lstrip in E. rewrite E. left.
Qed.

Lemma search_fence_brace s g : search_fence s = Some g -> lbrace ∈ s.
Proof.
  induction s as [|c s IH]; simpl.
  - destruct (fence_at []) eqn:E; [|done]. intros _. now apply fence_at_brace in E.
  - destruct (fence_at (c :: s)) eqn:E.
    + intros _. now apply fence_at_brace in E.
    + intros H. right. now apply IH.
Qed.

Lemma from_first_brace_none s : lbrace ∉ s -> from_first_brace s = None.
Proof.
  induction s as [|c s IH]; [done|]. simpl.
  intros [Hc Hs]%not_elem_of_cons.
  destruct (N.eqb_spec c lbrace); [congruence|]. now apply IH.
Qed.

Lemma extract_json_block_none raw : lbrace ∉ raw -> _extract_json_block raw = None.
Proof.
  intros H. unfold _extract_json_block. destruct raw as [|c raw]; [done|].
  destruct (search_fence (c :: raw)) eqn:E.
  - now apply search_fence_brace in E.
  - now rewrite from_first_brace_none.
Qed.

Lemma parse_summary_no_brace raw :
  lbrace ∉ raw -> parse_summary repr_str repr_float json_loads raw = all_none.
Proof.
  intros H. unfold parse_summary.
  destruct (json_loads raw) as [v|] eqn:E; [|done].
  destruct v; try done. now apply json_object_brace in E.
Qed.

(** A completion text without any opening brace sends the engine to the
    rules. *)
Lemma summary_of_raw_no_brace chunks raw :
  lbrace ∉ raw ->
  summary_of_raw repr_str repr_float json_loads re_search re_split chunks raw
  = extract_summary_rules re_search re_split chunks.
Proof.
  intros H. unfold summary_of_raw.
  rewrite extract_json_block_none by done.
  now rewrite parse_summary_no_brace.
Qed.

(** C1, as the code has it.  When the completion call raises,
    [GroqLLM.complete] catches the exception and returns the fixed text
    "Not found in tender" (not the empty string); [extract_summary_groq]
    finds no JSON in it, so the record is all null, which counts as empty,
    and what it returns is the record and the citations of the rule-based
    fallback.  For an empty chunk list it returns the all-null record and
    no citation.  In both cases it returns. *)
Theorem extraction_survives_completion_failure chunks api_key model :
  (forall prompt temperature max_tokens,
      groq_chat api_key model prompt temperature max_tokens = Raises) ->
  (forall prompt temperature max_tokens,
      LlmGroq.complete groq_chat api_key model prompt temperature max_tokens
      = lit "Not found in tender")
  /\ _is_effectively_empty
       (parse_summary repr_str repr_float json_loads (lit "Not found in tender"))
     = true
  /\ extract_summary_groq repr_str repr_float json_loads re_search re_split groq_chat
       chunks api_key model
     = match chunks with
       | [] => (all_none, [])
       | _ => extract_summary_rules re_search re_split chunks
       end.
Proof.
  intros Hfail.
  assert (lbrace ∉ lit "Not found in tender") as Hnb.
  { intros H. apply list_elem_of_In in H. vm_compute in H.
    repeat (destruct H as [H|H]; [discriminate H|]). exact H. }
  assert (forall prompt temperature max_tokens,
      LlmGroq.complete groq_chat api_key model prompt temperature max_tokens
      = lit "Not found in tender") as Hc.
  { intros. unfold LlmGroq.complete. now rewrite Hfail. }
  repeat split.
  - exact Hc.
  - now rewrite parse_summary_no_brace.
  - unfold extract_summary_groq. destruct chunks as [|c chunks]; [done|].
    rewrite Hc. now apply summary_of_raw_no_brace.
Qed.

End EngineFailure.

Lemma json_loads_tiny_brace s d :
  json_loads_tiny s = Some (PDict d) -> Summarizer.lbrace ∈ s.
Proof.
  unfold json_loads_tiny, str_eqb.
  case_bool_decide as E1; [intros _; rewrite E1; left|].
  case_bool_decide; [done|]. case_bool_decide; done.
Qed.

Lemma extraction_survives_completion_failure_witness :
  Summarizer.extract_summary_groq repr_str_quoted repr_float_zero json_loads_tiny
    re_search_none re_split_whole groq_down
    [mkChunk (lit "p1_0") 1 (lit "Tender for Road Construction") None]
    (lit "key") (lit "llama3-70b-8192")
  = Summarizer.extract_summary_rules re_search_none re_split_whole
      [mkChunk (lit "p1_0") 1 (lit "Tender for Road Construction") None].
Proof.
  apply (extraction_survives_completion_failure repr_str_quoted repr_float_zero
           json_loads_tiny re_search_none re_split_whole groq_down
           json_loads_tiny_brace
           [mkChunk (lit "p1_0") 1 (lit "Tender for Road Construction") None]
           (lit "key") (lit "llama3-70b-8192")).
  intros. reflexivity.
Defined.

Example rules_pick_tender_name :
  fst (Summarizer.extract_summary_rules re_search_none re_split_whole
         [mkChunk (lit "p1_0") 1 (lit "Tender for Road Construction") None])
  = [ (lit "tender_name", Summarizer.SStr (lit "Tender for Road Construction"));
      (lit "issuer", Summarizer.SNone); (lit "emd_amount", Summarizer.SNone);
      (lit "location", Summarizer.SNone); (lit "duration", Summarizer.SNone);
      (lit "scope_of_work", Summarizer.SNone);
      (lit "compliance_notes", Summarizer.SList []) ].
Proof. vm_compute. reflexivity. Qed.

(** A completion call that raises is reported as a text that is not
    empty. *)
Lemma completion_failure_not_empty :
  LlmGroq.complete groq_down (lit "key") (lit "llama3-70b-8192") (lit "prompt")
    0%float 600
  = lit "Not found in tender"
  /\ LlmGroq.complete groq_down (lit "key") (lit "llama3-70b-8192") (lit "prompt")
       0%float 600 <> [].
Proof. split; [reflexivity|]. vm_compute. discriminate. Qed.

(** ** The index store *)

Section IndexStoreProps.
Import IndexStore.
Variable normalize_L2 : list float -> list float.

Lemma paths_differ index_root tender_id :
  chunks_path index_root tender_id <> index_path index_root tender_id.
Proof.
  unfold chunks_path, index_path, path_of.
  intros H. do 4 apply app_inv_head in H.
  vm_compute in H. discriminate.
Qed.

(** What [save_index] leaves behind for at least one embedding row, all
    rows of one length: both artifacts, whatever the two counts are. *)
Lemma save_index_writes_both fs index_root tender_id chunks row rows :
  forallb (fun r => len r =? len row) rows = true ->
  let '(fs', e) := save_index true normalize_L2 fs index_root tender_id chunks
                     (row :: rows) in
  e = None
  /\ fs' !! chunks_path index_root tender_id = Some (ChunksJson chunks)
  /\ fs' !! index_path index_root tender_id
     = Some (IndexFile (mkIndex (len row) (map normalize_L2 (row :: rows)))).
Proof.
  intros Hrect. unfold save_index, shape1. simpl negb. cbv iota.
  rewrite Hrect. repeat split.
  - rewrite lookup_insert_ne by (intros E; symmetry in E; now apply paths_differ in E).
    apply lookup_insert_eq.
  - apply lookup_insert_eq.
Qed.

(** C6, as the code has it.  With faiss importable, [load_index] raises
    [FileNotFoundError] exactly when the chunk-list file or the index file
    is missing, which no returned pair can be mistaken for; when both are
    there it returns the stored chunk list and the stored index as they
    are, without comparing their sizes.  Without faiss the import at the
    head of the function raises [ImportError] before any file is looked
    at. *)
Theorem load_index_outcomes (fs : store) (index_root tender_id : str) :
  (load_index true fs index_root tender_id = inl FileNotFoundError
   <-> fs !! chunks_path index_root tender_id = None
       \/ fs !! index_path index_root tender_id = None)
  /\ (forall chunks index,
         fs !! chunks_path index_root tender_id = Some (ChunksJson chunks) ->
         fs !! index_path index_root tender_id = Some (IndexFile index) ->
         load_index true fs index_root tender_id = inr (chunks, index))
  /\ load_index false fs index_root tender_id = inl ImportError.
Proof.
  unfold load_index. simpl negb. cbv iota. split; [|split; [|reflexivity]].
  - destruct (fs !! chunks_path index_root tender_id) as [cf|];
      destruct (fs !! index_path index_root tender_id) as [xf|];
      try (split; [intros _|intros _; reflexivity]; auto; fail).
    split.
    + destruct cf; [destruct xf|]; discriminate.
    + intros [H|H]; discriminate.
  - intros chunks index -> ->. reflexivity.
Qed.

End IndexStoreProps.

Lemma load_index_outcomes_witness :
  IndexStore.load_index true mismatched_store (lit "index") (lit "t/1")
  = inr (two_chunks, IndexStore.mkIndex 1 [[1%float]])
  /\ IndexStore.load_index true ∅ (lit "index") (lit "t/1")
     = inl IndexStore.FileNotFoundError.
Proof.
  split.
  - apply (proj1 (proj2 (load_index_outcomes mismatched_store (lit "index") (lit "t/1"))));
      vm_compute; reflexivity.
  - apply (proj1 (load_index_outcomes ∅ (lit "index") (lit "t/1"))).
    left. apply lookup_empty.
Defined.

(** A stored pair of two chunks and one vector is loaded as it is. *)
Lemma load_index_returns_mismatch :
  exists chunks index,
    IndexStore.load_index true mismatched_store (lit "index") (lit "t/1")
    = inr (chunks, index)
    /\ len chunks = 2 /\ IndexStore.ntotal index = 1.
Proof.
  exists two_chunks, (IndexStore.mkIndex 1 [[1%float]]).
  split; [|split; reflexivity].
  vm_compute. reflexivity.
Qed.

(** C7: [save_index] on two chunks and one embedding raises nothing and
    writes both the chunk list of two records and an index of one
    vector. *)
Theorem save_index_persists_mismatch (normalize_L2 : list float -> list float)
    (fs : IndexStore.store) :
  let '(fs', e) := IndexStore.save_index true normalize_L2 fs (lit "index") (lit "t/1")
                     two_chunks [[1%float]] in
  e = None
  /\ fs' !! IndexStore.chunks_path (lit "index") (lit "t/1")
     = Some (IndexStore.ChunksJson two_chunks)
  /\ fs' !! IndexStore.index_path (lit "index") (lit "t/1")
     = Some (IndexStore.IndexFile (IndexStore.mkIndex 1 [normalize_L2 [1%float]])).
Proof.
  apply (save_index_writes_both normalize_L2 fs (lit "index") (lit "t/1")
           two_chunks [1%float] []).
  reflexivity.
Qed.

(** ** The retriever in degraded mode *)

Section DegradedQuery.
Import Retriever.

Lemma insert_desc_perm {A} (key : A -> Z) x l : insert_desc key x l ≡ₚ x :: l.
Proof.
  induction l as [|y l IH]; simpl; [done|].
  destruct (key y <=? key x); [done|].
  rewrite IH. apply Permutation_swap.
Qed.

Lemma sorted_desc_perm {A} (key : A -> Z) l : sorted_desc key l ≡ₚ l.
Proof.
  induction l as [|x l IH]; simpl; [done|].
  unfold sorted_desc in *. simpl. rewrite insert_desc_perm. now rewrite IH.
Qed.

Lemma insert_desc_sorted {A} (key : A -> Z) x l :
  StronglySorted (fun a b => key b <= key a) l ->
  StronglySorted (fun a b => key b <= key a) (insert_desc key x l).
Proof.
  induction l as [|y l IH]; simpl; intros Hs.
  - repeat constructor.
  - apply StronglySorted_inv in Hs as [Hs Hy].
    destruct (Z.leb_spec (key y) (key x)) as [Hle|Hgt].
    + constructor; [now constructor|].
      constructor; [done|].
      eapply Forall_impl; [apply Hy|]. simpl. intros z Hz. lia.
    + constructor; [now apply IH|].
      rewrite insert_desc_perm. constructor; [lia|done].
Qed.

Lemma sorted_desc_sorted {A} (key : A -> Z) l :
  StronglySorted (fun a b => key b <= key a) (sorted_desc key l).
Proof.
  induction l as [|x l IH]; simpl; [constructor|].
  now apply insert_desc_sorted.
Qed.

Lemma slice_to_take {A} (l : list A) k :
  0 <= k -> slice_to l k = take (Z.to_nat k) l.
Proof.
  intros Hk. unfold slice_to, py_index.
  destruct (Z.ltb_spec k 0); [lia|].
  destruct (Z.le_gt_cases k (len l)).
  - now rewrite Z.min_l.
  - rewrite Z.min_r by lia. unfold len in *.
    rewrite !take_ge; [done|lia|lia].
Qed.

Lemma slice_to_prefix {A} (l : list A) k : slice_to l k `prefix_of` l.
Proof. apply prefix_take. Qed.

(** C8.  When the similarity path raises (the search itself, or a
    position it returned that is out of range), [SimpleRetriever.query]
    returns the first [top_k] chunks of the chunk list sorted by
    descending text length, each with the score [1.0]: the result is a
    prefix of a permutation of the chunks in which no chunk is longer
    than one before it, and for [top_k >= 0] it has
    [min(top_k, len(chunks))] entries. *)
Theorem degraded_query_ranks_by_length
    (faiss_search : list Chunk -> str -> Z -> outcome (list (Z * float)))
    (chunks : list Chunk) (q : str) (top_k : Z) :
  faiss_search chunks q top_k = Raises
  \/ (exists hits, faiss_search chunks q top_k = Returns hits
                   /\ hits_to_chunks chunks hits = None) ->
  let out := query faiss_search chunks q top_k in
  let ranked := sorted_desc (fun c => len (text c)) chunks in
  out = map (fun c => (c, 1%float)) (slice_to ranked top_k)
  /\ Forall (fun hit => snd hit = 1%float) out
  /\ map fst out `prefix_of` ranked
  /\ ranked ≡ₚ chunks
  /\ StronglySorted no_longer ranked
  /\ (0 <= top_k -> len out = Z.min top_k (len chunks)).
Proof.
  intros Hdeg out ranked.
  assert (out = map (fun c => (c, 1%float)) (slice_to ranked top_k)) as E.
  { unfold out, query. destruct Hdeg as [->|(hits & -> & ->)]; reflexivity. }
  assert (map fst out = slice_to ranked top_k) as Efst.
  { rewrite E, map_map. simpl. apply map_id. }
  repeat split.
  - exact E.
  - rewrite E. apply Forall_forall. intros hit Hin.
    apply list_elem_of_In, in_map_iff in Hin as (c & <- & _). reflexivity.
  - rewrite Efst. apply slice_to_prefix.
  - apply sorted_desc_perm.
  - apply (sorted_desc_sorted (fun c => len (text c))).
  - intros Hk. unfold len at 1. rewrite E, length_map, slice_to_take by done.
    rewrite length_take. unfold ranked.
    rewrite (Permutation_length (sorted_desc_perm (fun c => len (text c)) chunks)).
    unfold len. lia.
Qed.

End DegradedQuery.

Lemma degraded_query_ranks_by_length_witness :
  Retriever.query faiss_missing
    [ mkChunk (lit "a") 1 (lit "xx") None; mkChunk (lit "b") 1 (lit "xxxx") None;
      mkChunk (lit "c") 2 (lit "x") None; mkChunk (lit "d") 2 (lit "xxxx") None ]
    (lit "emd amount") 3
  = [ (mkChunk (lit "b") 1 (lit "xxxx") None, 1%float);
      (mkChunk (lit "d") 2 (lit "xxxx") None, 1%float);
      (mkChunk (lit "a") 1 (lit "xx") None, 1%float) ].
Proof.
  destruct (degraded_query_ranks_by_length faiss_missing
              [ mkChunk (lit "a") 1 (lit "xx") None; mkChunk (lit "b") 1 (lit "xxxx") None;
                mkChunk (lit "c") 2 (lit "x") None; mkChunk (lit "d") 2 (lit "xxxx") None ]
              (lit "emd amount") 3 (or_introl eq_refl)) as (E & _).
  rewrite E. vm_compute. reflexivity.
Defined.

(** The fallback is not told apart by its output: on a list of one chunk,
    a search that works and finds the chunk with the score [1.0] and a
    search that raises give the same result. *)
Lemma fallback_same_as_genuine_hit :
  Retriever.query search_exact_match
    [mkChunk (lit "p1_0") 1 (lit "EMD is 2%") None] (lit "EMD is 2%") 1
  = [(mkChunk (lit "p1_0") 1 (lit "EMD is 2%") None, 1%float)]
  /\ Retriever.query faiss_missing
       [mkChunk (lit "p1_0") 1 (lit "EMD is 2%") None] (lit "EMD is 2%") 1
     = [(mkChunk (lit "p1_0") 1 (lit "EMD is 2%") None, 1%float)].
Proof. split; vm_compute; reflexivity. Qed.

(** * Further properties of the code *)

(** ** [_extract_json_block] *)

Section JsonBlock.
Import Summarizer.

Lemma fence_body_shape s b :
  fence_body s = Some b -> (exists post, s = b ++ post) /\ last b = Some rbrace.
Proof.
  revert b. induction s as [|c s IH]; intros b; cbn [fence_body]; [done|].
  destruct ((c =? rbrace)%N && starts_with fence (lstrip s)) eqn:E.
  - intros [= <-]. apply andb_prop in E as [Ec%N.eqb_eq _]. subst c.
    split; [now exists s|done].
  - destruct (fence_body s) as [b'|]; [|done]. cbn [fmap option_fmap option_map]. intros [= <-].
    destruct (IH b' eq_refl) as [[post ->] Hl].
    split; [now exists post|].
    destruct b'; [done|]. exact Hl.
Qed.

Lemma fence_at_shape s g :
  fence_at s = Some g ->
  (exists pre post, s = pre ++ g ++ post)
  /\ head g = Some lbrace /\ last g = Some rbrace.
Proof.
  unfold fence_at. destruct (starts_with_ci _ s); [|done].
  destruct (lstrip_by_split is_space (drop 7 s)) as [ws [E _]].
  change (lstrip_by is_space (drop 7 s)) with (lstrip (drop 7 s)) in E.
  destruct (lstrip (drop 7 s)) as [|c rest]; [done|].
  destruct (N.eqb_spec c lbrace) as [->|]; [|done].
  destruct (fence_body rest) as [b|] eqn:Eb; [|done]. simpl. intros [= <-].
  apply fence_body_shape in Eb as [[post ->] Hl].
  repeat split.
  - exists (take 7 s ++ ws), post.
    rewrite <- (take_drop 7 s) at 1. rewrite E. now rewrite <- !app_assoc.
  - destruct b; [done|]. exact Hl.
Qed.

Lemma search_fence_shape s g :
  search_fence s = Some g ->
  (exists pre post, s = pre ++ g ++ post)
  /\ head g = Some lbrace /\ last g = Some rbrace.
Proof.
  induction s as [|c s IH]; cbn [search_fence].
  - destruct (fence_at []) eqn:E; [|done]. intros [= <-]. now apply fence_at_shape.
  - destruct (fence_at (c :: s)) eqn:E.
    + intros [= <-]. now apply fence_at_shape.
    + intros H. destruct (IH H) as ((pre & post & ->) & Hh & Hl).
      repeat split; try done. now exists (c :: pre), post.
Qed.

Lemma from_first_brace_shape s s' :
  from_first_brace s = Some s' ->
  exists pre rest, s = pre ++ lbrace :: rest /\ s' = lbrace :: rest /\ lbrace ∉ pre.
Proof.
  induction s as [|c s IH]; cbn [from_first_brace]; [done|].
  destruct (N.eqb_spec c lbrace) as [->|Hc].
  - intros [= <-]. exists [], s. repeat split. apply not_elem_of_nil.
  - intros H. destruct (IH H) as (pre & rest & -> & -> & Hpre).
    exists (c :: pre), rest. repeat split.
    apply not_elem_of_cons. split; [congruence|done].
Qed.

(** The scan from depth [d >= 1]: what it returns closes exactly the [d]
    open braces, and no shorter prefix does. *)
Lemma brace_scan_balanced s : forall d r,
  1 <= d -> brace_scan s d = Some r ->
  (exists post, s = r ++ post)
  /\ last r = Some rbrace
  /\ d + brace_depth r = 0
  /\ (forall p, p `prefix_of` r -> p <> r -> 1 <= d + brace_depth p).
Proof.
  induction s as [|c s IH]; intros d r Hd; cbn [brace_scan]; [done|].
  assert (forall d' r', 1 <= d' -> brace_scan s d' = Some r' ->
            d' = d + brace_depth [c] ->
            (exists post, c :: s = (c :: r') ++ post)
            /\ last (c :: r') = Some rbrace
            /\ d + brace_depth (c :: r') = 0
            /\ (forall p, p `prefix_of` c :: r' -> p <> c :: r' ->
                          1 <= d + brace_depth p)) as Hstep.
  { intros d' r' Hd' Hr' Ed'.
    destruct (IH d' r' Hd' Hr') as ([post ->] & Hl & Hz & Hp).
    simpl in Ed'. rewrite Z.add_0_r in Ed'.
    repeat split.
    - now exists post.
    - destruct r'; [done|]. exact Hl.
    - simpl. lia.
    - intros p Hpre Hne. destruct p as [|x p]; [simpl; lia|].
      apply prefix_cons_inv_1 in Hpre as Hx. subst x.
      apply prefix_cons_inv_2 in Hpre.
      assert (p <> r') as Hne' by congruence.
      specialize (Hp p Hpre Hne'). simpl. lia. }
  destruct (N.eqb_spec c lbrace) as [->|Hl].
  - destruct (brace_scan s (d + 1)) as [r'|] eqn:E; [|done]. simpl.
    intros [= <-]. apply (Hstep (d + 1) r'); [lia|done|reflexivity].
  - destruct (N.eqb_spec c rbrace) as [->|Hr].
    + destruct (Z.eqb_spec (d - 1) 0) as [Hz|Hnz].
      * intros [= <-]. repeat split.
        -- now exists s.
        -- simpl. lia.
        -- intros p Hpre Hne. destruct p as [|x p]; [simpl; lia|].
           apply prefix_cons_inv_2 in Hpre as Hp'.
           apply prefix_nil_inv in Hp'. subst p.
           apply prefix_cons_inv_1 in Hpre. now subst x.
      * destruct (brace_scan s (d - 1)) as [r'|] eqn:E; [|done]. simpl.
        intros [= <-]. apply (Hstep (d - 1) r'); [lia|done|].
        simpl. reflexivity.
    + destruct (brace_scan s d) as [r'|] eqn:E; [|done]. simpl.
      intros [= <-]. apply (Hstep d r'); [lia|done|].
      simpl. destruct (N.eqb_spec c lbrace); [done|].
      destruct (N.eqb_spec c rbrace); [done|]. lia.
Qed.

(** X1.  Whatever [_extract_json_block] returns is a contiguous piece of
    the text that starts with an opening brace and ends with a closing
    brace. *)
Theorem extract_json_block_shape (raw r : str) :
  _extract_json_block raw = Some r ->
  (exists pre post, raw = pre ++ r ++ post)
  /\ head r = Some lbrace /\ last r = Some rbrace.
Proof.
  unfold _extract_json_block. destruct raw as [|c raw]; [done|].
  destruct (search_fence (c :: raw)) as [g|] eqn:Ef.
  - intros [= <-]. now apply search_fence_shape.
  - destruct (from_first_brace (c :: raw)) as [s'|] eqn:Eb; [|done].
    apply from_first_brace_shape in Eb as (pre & rest & -> & -> & _).
    cbn [brace_scan]. rewrite N.eqb_refl.
    destruct (brace_scan rest (0 + 1)) as [r'|] eqn:Es; [|done]. simpl.
    intros [= <-].
    apply brace_scan_balanced in Es as ([post ->] & Hl & _); [|lia].
    repeat split.
    + now exists pre, post.
    + destruct r'; [done|]. exact Hl.
Qed.

(** X2.  When no fenced block is found, the block returned starts at the
    first opening brace of the text, has as many closing as opening
    braces, and is the shortest such piece: every shorter non-empty start
    of it still has an open brace. *)
Theorem extract_json_block_balanced (raw r : str) :
  search_fence raw = None ->
  _extract_json_block raw = Some r ->
  (exists pre post, raw = pre ++ r ++ post /\ lbrace ∉ pre)
  /\ brace_depth r = 0
  /\ (forall p, p `prefix_of` r -> p <> [] -> p <> r -> 1 <= brace_depth p).
Proof.
  intros Hf. unfold _extract_json_block. destruct raw as [|c raw]; [done|].
  rewrite Hf.
  destruct (from_first_brace (c :: raw)) as [s'|] eqn:Eb; [|done].
  apply from_first_brace_shape in Eb as (pre & rest & -> & -> & Hpre).
  cbn [brace_scan]. rewrite N.eqb_refl.
  destruct (brace_scan rest (0 + 1)) as [r'|] eqn:Es; [|done]. simpl.
  intros [= <-].
  apply brace_scan_balanced in Es as ([post ->] & _ & Hz & Hp); [|lia].
  repeat split.
  - now exists pre, post.
  - cbn [brace_depth]. rewrite N.eqb_refl. lia.
  - intros p Hpre' Hne Hne'. destruct p as [|x p]; [done|].
    apply prefix_cons_inv_1 in Hpre' as Hx. subst x.
    apply prefix_cons_inv_2 in Hpre'.
    assert (p <> r') as Hn by congruence.
    specialize (Hp p Hpre' Hn). cbn [brace_depth]. rewrite N.eqb_refl. lia.
Qed.

End JsonBlock.

Lemma extract_json_block_shape_witness :
  (exists pre post,
      lit "so: {'a': {'b': 1}} and {more}" = pre ++ lit "{'a': {'b': 1}}" ++ post)
  /\ head (lit "{'a': {'b': 1}}") = Some Summarizer.lbrace
  /\ last (lit "{'a': {'b': 1}}") = Some Summarizer.rbrace.
Proof.
  apply (extract_json_block_shape (lit "so: {'a': {'b': 1}} and {more}")).
  vm_compute. reflexivity.
Defined.

Lemma extract_json_block_balanced_witness :
  brace_depth (lit "{'a': {'b': 1}}") = 0.
Proof.
  apply (extract_json_block_balanced (lit "so: {'a': {'b': 1}} and {more}")
           (lit "{'a': {'b': 1}}")); vm_compute; reflexivity.
Defined.

(** ** The prompt and the engine's results *)

Section PromptAndEngine.
Import Summarizer.

Lemma context_spans_budget chunks : forall total max_chars,
  total <= max_chars ->
  exists k : nat,
    context_spans chunks total max_chars = map chunk_span (take k chunks)
    /\ total + len (concat (map chunk_span (take k chunks))) <= max_chars
    /\ (forall c, chunks !! k = Some c ->
          max_chars < total + len (concat (map chunk_span (take k chunks)))
                      + len (chunk_span c)).
Proof.
  induction chunks as [|c chunks IH]; intros total max_chars Ht.
  - exists 0%nat. simpl. repeat split; [unfold len; simpl; lia|done].
  - cbn [context_spans].
    destruct (Z.ltb_spec max_chars (total + len (chunk_span c))) as [Hover|Hfit].
    + exists 0%nat. simpl. repeat split; [unfold len; simpl; lia|].
      intros c' [= <-]. unfold len at 1. simpl. lia.
    + destruct (IH (total + len (chunk_span c)) max_chars Hfit) as (k & E & Hle & Hnext).
      exists (S k). cbn [take map concat]. rewrite E, len_app.
      repeat split; [lia|]. intros c' Hc'. simpl in Hc'.
      specialize (Hnext c' Hc'). lia.
Qed.

(** X3.  The context of the summary prompt is made of whole chunk blocks,
    those of the first [k] chunks in their order, for the largest [k]
    whose blocks fit in 8000 characters together: the block of the next
    chunk, if there is one, would exceed the budget. *)
Theorem prompt_context_budget (chunks : list Chunk) :
  exists k : nat,
    build_summary_prompt chunks
    = instructions ++ nl ++ nl ++ lit "Context:" ++ nl
      ++ concat (map chunk_span (take k chunks))
    /\ len (concat (map chunk_span (take k chunks))) <= 8000
    /\ (forall c, chunks !! k = Some c ->
          8000 < len (concat (map chunk_span (take k chunks))) + len (chunk_span c)).
Proof.
  destruct (context_spans_budget chunks 0 8000 ltac:(lia)) as (k & E & Hle & Hnext).
  exists k. unfold build_summary_prompt. rewrite E.
  repeat split; [lia|]. intros c Hc. specialize (Hnext c Hc). lia.
Qed.

Variable repr_str : str -> str.
Variable repr_float : float -> str.
Variable json_loads : str -> option pyval.
Variable re_search : str -> bool -> str -> option re_match.
Variable re_split : str -> str -> list str.
Variable groq_chat : str -> str -> str -> float -> Z -> outcome (option str).

Lemma coerce_summary_keys v :
  map fst (_coerce_summary repr_str repr_float v) = SUMMARY_FIELDS.
Proof.
  destruct v; reflexivity.
Qed.

Lemma parse_summary_keys s :
  map fst (parse_summary repr_str repr_float json_loads s) = SUMMARY_FIELDS.
Proof.
  unfold parse_summary. destruct (json_loads s); [apply coerce_summary_keys|done].
Qed.

(** X4.  Whatever the completion service and the parser do,
    [extract_summary_groq] returns a record with exactly the seven summary
    keys, in their order, and cites the first five chunks: the model path
    and the rule-based path give the same citations. *)
Theorem engine_keys_and_citations (chunks : list Chunk) (api_key model : str) :
  map fst (fst (extract_summary_groq repr_str repr_float json_loads re_search
                  re_split groq_chat chunks api_key model))
  = SUMMARY_FIELDS
  /\ snd (extract_summary_groq repr_str repr_float json_loads re_search
            re_split groq_chat chunks api_key model)
     = slice_to chunks 5.
Proof.
  unfold extract_summary_groq. destruct chunks as [|c chunks]; [done|].
  set (raw := LlmGroq.complete _ _ _ _ _ _).
  unfold summary_of_raw.
  set (sm := match _extract_json_block raw with
             | Some (c0 :: json_str) =>
                 parse_summary repr_str repr_float json_loads (c0 :: json_str)
             | _ => parse_summary repr_str repr_float json_loads raw
             end).
  assert (map fst sm = SUMMARY_FIELDS) as Hk.
  { unfold sm. destruct (_extract_json_block raw) as [[|c0 js]|];
      apply parse_summary_keys. }
  destruct (_is_effectively_empty sm); [|done].
  done.
Qed.

Lemma pick_tender_name_bounds lines s :
  pick_tender_name re_search lines = Some s ->
  6 <= len s <= 140
  /\ (exists line, line ∈ lines /\ s = strip line)
  /\ re_search pat_page true s = None.
Proof.
  induction lines as [|line lines IH]; cbn [pick_tender_name]; [done|].
  assert (pick_tender_name re_search lines = Some s ->
          6 <= len s <= 140
          /\ (exists l, l ∈ line :: lines /\ s = strip l)
          /\ re_search pat_page true s = None) as Hrest.
  { intros H. destruct (IH H) as (Hb & (l & Hl & Hs) & Hr).
    split; [exact Hb|]. split; [|exact Hr]. exists l. split; [now right|done]. }
  destruct (Z.leb_spec 6 (len (strip line))) as [H6|];
    destruct (Z.leb_spec (len (strip line)) 140) as [H140|]; cbn [andb];
    try exact Hrest.
  destruct (re_search pat_page true (strip line)) eqn:E; [exact Hrest|].
  intros [= <-]. split; [lia|]. split; [|exact E].
  exists line. split; [left|done].
Qed.

Lemma pick_notes_bounds lines : forall notes,
  len notes < 6 -> Forall (fun s => 6 <= len s <= 160) notes ->
  len (pick_notes re_search lines notes) <= 6
  /\ Forall (fun s => 6 <= len s <= 160) (pick_notes re_search lines notes).
Proof.
  induction lines as [|line lines IH]; intros notes Hn Hall; cbn [pick_notes].
  - split; [lia|done].
  - destruct (Z.leb_spec 6 (len (strip_by is_bullet line))) as [H6|];
      destruct (Z.leb_spec (len (strip_by is_bullet line)) 160) as [H160|];
      cbn [andb]; try (now apply IH).
    destruct (existsb _ key_terms); [|now apply IH].
    assert (Forall (fun s => 6 <= len s <= 160) (notes ++ [strip_by is_bullet line]))
      as Hall' by (apply Forall_app; split; [done|]; constructor; [lia|done]).
    destruct (Z.leb_spec 6 (len (notes ++ [strip_by is_bullet line]))) as [Hfull|Hmore].
    + split; [|done]. rewrite len_app. unfold len in Hn |- *. simpl. lia.
    + now apply IH.
Qed.

Lemma slice_to_len_le {A} (l : list A) k : 0 <= k -> len (slice_to l k) <= k.
Proof.
  intros Hk. rewrite slice_to_take by done. unfold len.
  rewrite length_take. lia.
Qed.

(** X5.  The rule-based record, whatever the regular-expression engine
    finds: a tender name, if any, is a stripped line of the text of 6 to
    140 characters that is no page or contents line; a scope of work has
    at most 300 characters; there are at most 6 compliance notes, each of
    6 to 160 characters; and the citations are the first five chunks. *)
Theorem rules_record_bounds (chunks : list Chunk) :
  exists tender_name issuer emd_amount location duration scope_of_work notes,
    extract_summary_rules re_search re_split chunks
    = ([ (lit "tender_name", of_opt tender_name);
         (lit "issuer", of_opt issuer);
         (lit "emd_amount", of_opt emd_amount);
         (lit "location", of_opt location);
         (lit "duration", of_opt duration);
         (lit "scope_of_work", of_opt scope_of_work);
         (lit "compliance_notes", SList notes) ],
       slice_to chunks 5)
    /\ (forall s, tender_name = Some s ->
          6 <= len s <= 140
          /\ (exists line,
                 line ∈ splitlines (join nl (map text (slice_to chunks 5)))
                 /\ s = strip line)
          /\ re_search pat_page true s = None)
    /\ (forall s, scope_of_work = Some s -> len s <= 300)
    /\ len notes <= 6
    /\ Forall (fun s => 6 <= len s <= 160) notes.
Proof.
  unfold extract_summary_rules.
  eexists _, _, _, _, _, _, _. split; [reflexivity|].
  split; [|split; [|split]].
  - intros s Hs. now apply pick_tender_name_bounds in Hs.
  - intros s. destruct (re_search pat_scope true _); [|done].
    intros [= <-]. now apply slice_to_len_le.
  - apply pick_notes_bounds; [unfold len; simpl; lia|constructor].
  - apply pick_notes_bounds; [unfold len; simpl; lia|constructor].
Qed.

End PromptAndEngine.

(** ** When the model's record is kept *)

Section KeptRecord.
Import Summarizer.
Variable repr_str : str -> str.
Variable repr_float : float -> str.

Lemma count_non_null_pos (d : summary) :
  (len (filter (fun kv => non_null (snd kv) = true) d) =? 0) = false
  <-> exists kv, kv ∈ d /\ non_null (snd kv) = true.
Proof.
  unfold summary in *. induction d as [|kv d IH].
  - split; [done|]. intros (kv & Hin & _). now apply not_elem_of_nil in Hin.
  - rewrite filter_cons. destruct (decide (non_null (snd kv) = true)) as [Hnn|Hn].
    + split; [intros _; exists kv; split; [left|done]|].
      intros _. unfold len. simpl. done.
    + rewrite IH. split.
      * intros (x & Hin & Hx). exists x. split; [now right|done].
      * intros (x & Hin & Hx). apply elem_of_cons in Hin as [->|Hin]; [done|].
        now exists x.
Qed.

Lemma effectively_empty_false (d : summary) :
  _is_effectively_empty d = false <-> exists kv, kv ∈ d /\ non_null (snd kv) = true.
Proof.
  destruct d as [|kv0 d].
  - split; [done|]. intros (kv & Hin & _). now apply not_elem_of_nil in Hin.
  - apply (count_non_null_pos (kv0 :: d)).
Qed.

Lemma notes_of_nonempty l :
  notes_of repr_str repr_float l <> [] <-> exists x, x ∈ l /\ x <> PNone.
Proof.
  induction l as [|x l IH].
  - split; [done|]. intros (x & Hin & _). now apply not_elem_of_nil in Hin.
  - destruct x; cbn [notes_of];
      try (split; [intros _; eexists; split; [left|done]|done]).
    rewrite IH. split.
    + intros (x & Hin & Hx). exists x. split; [now right|done].
    + intros (x & Hin & Hx). apply elem_of_cons in Hin as [->|Hin]; [done|].
      now exists x.
Qed.

Lemma non_null_scalar d k :
  k <> lit "compliance_notes" ->
  non_null (coerce_field repr_str repr_float d k) = true
  <-> exists v, dict_get d k = Some v /\ v <> PNone
                /\ py_str repr_str repr_float v <> [].
Proof.
  intros Hk. rewrite coerce_field_scalar by done. unfold spec_scalar.
  destruct (dict_get d k) as [v|].
  - assert (v = PNone \/ v <> PNone) as [->|Hv] by (destruct v; auto).
    + split; [done|]. now intros (v & [= <-] & Hv & _).
    + transitivity (non_null (SStr (py_str repr_str repr_float v)) = true).
      { now destruct v. }
      simpl. destruct (py_str repr_str repr_float v) eqn:E.
      * split; [done|]. intros (v' & [= <-] & _ & H). now rewrite E in H.
      * split; [|done]. intros _. exists v. rewrite E. done.
  - split; [done|]. now intros (v & H & _).
Qed.

Lemma non_null_notes d :
  non_null (coerce_field repr_str repr_float d (lit "compliance_notes")) = true
  <-> exists l x, dict_get d (lit "compliance_notes") = Some (PList l)
                  /\ x ∈ l /\ x <> PNone.
Proof.
  rewrite coerce_field_notes. unfold spec_notes.
  destruct (dict_get d (lit "compliance_notes")) as [v|];
    [|split; [done|]; now intros (l & x & H & _)].
  destruct v; try (split; [done|]; now intros (l' & x & H & _)).
  rewrite <- notes_of_filter.
  transitivity (notes_of repr_str repr_float l <> []).
  { simpl. destruct (notes_of repr_str repr_float l); split; done. }
  rewrite notes_of_nonempty. split.
  - intros (x & Hin & Hx). now exists l, x.
  - intros (l' & x & [= <-] & Hin & Hx). now exists x.
Qed.

(** X6.  The record coerced from a parsed dict is kept (it is not
    "effectively empty", so the rule-based fallback does not run) exactly
    when some scalar field holds a value other than [None] whose string is
    not empty, a blank string included, or the compliance notes are a list
    with an element other than [None]. *)
Theorem coerced_record_kept_iff (d : list (str * pyval)) :
  _is_effectively_empty (_coerce_summary repr_str repr_float (PDict d)) = false
  <-> has_content repr_str repr_float d.
Proof.
  rewrite effectively_empty_false. unfold _coerce_summary, has_content. split.
  - intros (kv & Hin & Hnn).
    apply list_elem_of_fmap in Hin as (k & -> & Hk). simpl in Hnn.
    destruct (decide (k = lit "compliance_notes")) as [->|Hne].
    + right. now apply non_null_notes.
    + left. apply non_null_scalar in Hnn as (v & Hv); [|done].
      exists k, v. split; [|done].
      unfold SUMMARY_FIELDS in Hk. unfold SCALAR_FIELDS.
      repeat (apply elem_of_cons in Hk as [->|Hk];
              [first [done | apply list_elem_of_In; simpl; tauto]|]).
      now apply not_elem_of_nil in Hk.
  - intros [(k & v & Hk & Hv)|Hnotes].
    + exists (k, coerce_field repr_str repr_float d k). split.
      * apply list_elem_of_fmap. exists k. split; [done|].
        unfold SCALAR_FIELDS in Hk. unfold SUMMARY_FIELDS.
        apply list_elem_of_In. apply list_elem_of_In in Hk. simpl in *. tauto.
      * simpl. apply non_null_scalar; [|now exists v].
        unfold SCALAR_FIELDS in Hk.
        repeat (apply elem_of_cons in Hk as [->|Hk];
                [intros E; vm_compute in E; discriminate|]).
        now apply not_elem_of_nil in Hk.
    + exists (lit "compliance_notes",
              coerce_field repr_str repr_float d (lit "compliance_notes")). split.
      * apply list_elem_of_fmap. exists (lit "compliance_notes"). split; [done|].
        unfold SUMMARY_FIELDS. apply list_elem_of_In. simpl. tauto.
      * simpl. now apply non_null_notes.
Qed.

End KeptRecord.

(** ** The index store: round trip, frame, identifiers *)

Section IndexStoreMore.
Import IndexStore.
Variable normalize_L2 : list float -> list float.

(** X7.  Saving and then loading under the same root and identifier
    gives back the chunk list as it was saved, with an index that holds
    one normalised vector per embedding row, in order, and has the
    dimension of the rows. *)
Theorem save_then_load (fs : store) (index_root tender_id : str)
    (chunks : list Chunk) (row : list float) (rows : list (list float)) :
  forallb (fun r => len r =? len row) rows = true ->
  let fs' := fst (save_index true normalize_L2 fs index_root tender_id chunks
                    (row :: rows)) in
  load_index true fs' index_root tender_id
  = inr (chunks, mkIndex (len row) (map normalize_L2 (row :: rows)))
  /\ ntotal (mkIndex (len row) (map normalize_L2 (row :: rows))) = len (row :: rows).
Proof.
  intros Hrect fs'.
  pose proof (save_index_writes_both normalize_L2 fs index_root tender_id chunks
                row rows Hrect) as H.
  unfold fs'.
  destruct (save_index true normalize_L2 fs index_root tender_id chunks (row :: rows))
    as [fs1 e].
  destruct H as (_ & Hc & Hi). simpl fst. split.
  - unfold load_index. simpl negb. cbv iota. now rewrite Hc, Hi.
  - unfold ntotal, len. simpl. now rewrite length_map.
Qed.

(** X8.  [save_index] touches two paths only: every other file of the
    store is as it was, whatever the call did. *)
Theorem save_index_frame (faiss_available : bool) (fs : store)
    (index_root tender_id : str) (chunks : list Chunk)
    (embeddings : list (list float)) (p : str) :
  p <> chunks_path index_root tender_id ->
  p <> index_path index_root tender_id ->
  fst (save_index faiss_available normalize_L2 fs index_root tender_id chunks
         embeddings) !! p
  = fs !! p.
Proof.
  intros Hc Hi. unfold save_index.
  destruct faiss_available; simpl negb; cbv iota; [|done].
  destruct (shape1 embeddings) as [e|d]; simpl fst.
  - now rewrite lookup_insert_ne.
  - rewrite lookup_insert_ne by done. now rewrite lookup_insert_ne.
Qed.

(** X9.  A save that fails on its embeddings (none at all, or rows of
    different lengths) has already replaced the chunk list and leaves the
    index file as it was: loading afterwards pairs the new chunk list with
    the old index, or fails with [FileNotFoundError] when there was
    none. *)
Theorem failed_save_leaves_new_chunks (fs : store) (index_root tender_id : str)
    (chunks : list Chunk) (embeddings : list (list float)) (e : exn) :
  shape1 embeddings = inl e ->
  let '(fs', raised) := save_index true normalize_L2 fs index_root tender_id chunks
                          embeddings in
  raised = Some e
  /\ fs' !! chunks_path index_root tender_id = Some (ChunksJson chunks)
  /\ fs' !! index_path index_root tender_id = fs !! index_path index_root tender_id
  /\ load_index true fs' index_root tender_id
     = match fs !! index_path index_root tender_id with
       | Some (IndexFile old) => inr (chunks, old)
       | Some (ChunksJson _) => inl RuntimeError
       | None => inl FileNotFoundError
       end.
Proof.
  intros Hs. unfold save_index. simpl negb. cbv iota. rewrite Hs.
  assert (<[chunks_path index_root tender_id:=ChunksJson chunks]> fs
            !! index_path index_root tender_id
          = fs !! index_path index_root tender_id) as Hi.
  { apply lookup_insert_ne. apply paths_differ. }
  repeat split.
  - apply lookup_insert_eq.
  - exact Hi.
  - unfold load_index. simpl negb. cbv iota.
    rewrite lookup_insert_eq, Hi.
    now destruct (fs !! index_path index_root tender_id) as [[]|].
Qed.

Lemma safe_id_app a b : _safe_id (a ++ b) = _safe_id a ++ _safe_id b.
Proof. apply map_app. Qed.

(** X10.  [_safe_id] keeps the length of the identifier, leaves no slash
    and no backslash in it, changes nothing in an identifier that has
    neither, and applying it twice is applying it once. *)
Theorem safe_id_properties (tender_id : str) :
  length (_safe_id tender_id) = length tender_id
  /\ (47%N ∉ _safe_id tender_id) /\ (92%N ∉ _safe_id tender_id)
  /\ (47%N ∉ tender_id -> 92%N ∉ tender_id -> _safe_id tender_id = tender_id)
  /\ _safe_id (_safe_id tender_id) = _safe_id tender_id.
Proof.
  assert (forall t : str, 47%N ∉ t -> 92%N ∉ t -> _safe_id t = t) as Hid.
  { induction t as [|c t IH]; [done|].
    intros [Hc1 H1]%not_elem_of_cons [Hc2 H2]%not_elem_of_cons.
    unfold _safe_id in *. cbn [map]. rewrite IH by done.
    destruct (N.eqb_spec c 47); [congruence|].
    destruct (N.eqb_spec c 92); [congruence|]. done. }
  assert (forall t : str, (47%N ∉ _safe_id t) /\ (92%N ∉ _safe_id t)) as Hno.
  { induction t as [|c t [IH1 IH2]]; [split; apply not_elem_of_nil|].
    unfold _safe_id in *. cbn [map].
    destruct (N.eqb_spec c 47) as [->|H47]; cbn [orb].
    - split; apply not_elem_of_cons; split; done.
    - destruct (N.eqb_spec c 92) as [->|H92];
        split; apply not_elem_of_cons; split; done. }
  repeat split.
  - apply length_map.
  - apply Hno.
  - apply Hno.
  - apply Hid.
  - apply Hid; apply Hno.
Qed.

(** X11.  Two identifiers that differ only in a slash against an
    underscore are different identifiers of one and the same stored pair:
    saving under either writes the same files, and loading under either
    reads them. *)
Theorem slash_and_underscore_share_an_index (faiss_available : bool) (fs : store)
    (index_root a b : str) (chunks : list Chunk) (embeddings : list (list float)) :
  let id1 := a ++ lit "/" ++ b in
  let id2 := a ++ lit "_" ++ b in
  id1 <> id2
  /\ save_index faiss_available normalize_L2 fs index_root id1 chunks embeddings
     = save_index faiss_available normalize_L2 fs index_root id2 chunks embeddings
  /\ load_index faiss_available fs index_root id1
     = load_index faiss_available fs index_root id2.
Proof.
  intros id1 id2.
  assert (_safe_id id1 = _safe_id id2) as E.
  { unfold id1, id2. now rewrite !safe_id_app. }
  repeat split.
  - unfold id1, id2. intros H%app_inv_head. discriminate H.
  - unfold save_index, chunks_path, index_path. now rewrite E.
  - unfold load_index, chunks_path, index_path. now rewrite E.
Qed.

End IndexStoreMore.

Lemma save_then_load_witness :
  IndexStore.load_index true
    (fst (IndexStore.save_index true (fun row => row) ∅ (lit "index") (lit "t/1")
            two_chunks [[1%float]; [0%float]]))
    (lit "index") (lit "t/1")
  = inr (two_chunks, IndexStore.mkIndex 1 [[1%float]; [0%float]]).
Proof.
  apply (save_then_load (fun row => row) ∅ (lit "index") (lit "t/1") two_chunks
           [1%float] [[0%float]]).
  reflexivity.
Defined.

Lemma save_index_frame_witness :
  fst (IndexStore.save_index true (fun row => row) mismatched_store (lit "index")
         (lit "t/2") two_chunks [])
    !! IndexStore.chunks_path (lit "index") (lit "t/1")
  = mismatched_store !! IndexStore.chunks_path (lit "index") (lit "t/1").
Proof.
  apply save_index_frame; intros E; vm_compute in E; discriminate.
Defined.

Lemma failed_save_leaves_new_chunks_witness :
  IndexStore.load_index true
    (fst (IndexStore.save_index true (fun row => row) mismatched_store (lit "index")
            (lit "t/1") [] []))
    (lit "index") (lit "t/1")
  = inr ([], IndexStore.mkIndex 1 [[1%float]]).
Proof.
  pose proof (failed_save_leaves_new_chunks (fun row => row) mismatched_store
                (lit "index") (lit "t/1") [] [] IndexStore.IndexError eq_refl) as H.
  destruct (IndexStore.save_index true (fun row => row) mismatched_store (lit "index")
              (lit "t/1") [] []) as [fs' raised].
  destruct H as (_ & _ & _ & H). simpl fst. rewrite H. vm_compute. reflexivity.
Defined.

(** ** The retrievers on the positions the search returns *)

Section Hits.
Import Retriever.

Lemma py_getitem_Some {A} (l : list A) i :
  is_Some (py_getitem l i) <-> - len l <= i < len l.
Proof.
  unfold py_getitem, len.
  destruct (Z.leb_spec 0 i), (Z.ltb_spec i (Z.of_nat (length l))); cbn [andb].
  - split; [lia|]. intros _. apply lookup_lt_is_Some. lia.
  - destruct (Z.ltb_spec i 0); [lia|]. cbn [andb]. split; [intros []; done|lia].
  - destruct (Z.ltb_spec i 0); [|lia].
    destruct (Z.leb_spec 0 (Z.of_nat (length l) + i)); cbn [andb].
    + split; [lia|]. intros _. apply lookup_lt_is_Some. lia.
    + split; [intros []; done|lia].
  - lia.
Qed.

Lemma py_getitem_elem_of {A} (l : list A) i x : py_getitem l i = Some x -> x ∈ l.
Proof.
  unfold py_getitem.
  destruct ((0 <=? i) && (i <? len l)); [apply list_elem_of_lookup_2|].
  destruct ((i <? 0) && (0 <=? len l + i)); [apply list_elem_of_lookup_2|done].
Qed.

(** X12.  The loop over the hits succeeds exactly when every position is
    the marker [-1] or lies between [-len(chunks)] and [len(chunks) - 1]
    (a negative position counts from the end of the list); it then
    returns, in the order of the hits, one chunk of the list for every
    position other than [-1], with the score found beside it. *)
Theorem hits_to_chunks_spec (chunks : list Chunk) (hits : list (Z * float)) :
  (is_Some (hits_to_chunks chunks hits) <-> Forall (hit_in_range chunks) hits)
  /\ (forall out,
         hits_to_chunks chunks hits = Some out ->
         map snd out = map snd (filter (fun hit => fst hit <> -1) hits)
         /\ Forall (fun r => fst r ∈ chunks) out).
Proof.
  induction hits as [|[i score] hits [IHs IHo]].
  - split; [split; [constructor|now exists []]|].
    intros out [= <-]. split; [done|constructor].
  - cbn [hits_to_chunks]. unfold hit_in_range in *.
    destruct (Z.eqb_spec i (-1)) as [->|Hi].
    + split.
      * rewrite IHs. split; [intros H; constructor; [now left|done]|].
        now intros [_ H]%Forall_cons.
      * intros out Hout. rewrite filter_cons_False by (simpl; lia).
        now apply IHo.
    + rewrite filter_cons_True by done.
      destruct (py_getitem chunks i) as [c|] eqn:Eg.
      * assert (- len chunks <= i < len chunks) as Hr
          by (apply py_getitem_Some; now rewrite Eg).
        split.
        -- rewrite Forall_cons, <- IHs. simpl fst.
           destruct (hits_to_chunks chunks hits); simpl; split.
           ++ intros _. split; [now right|now eexists].
           ++ intros _. now eexists.
           ++ intros []; done.
           ++ intros [_ []]; done.
        -- intros out. destruct (hits_to_chunks chunks hits) as [rest|]; [|done].
           simpl. intros [= <-]. destruct (IHo rest eq_refl) as [Hs Hin].
           split; [simpl; now rewrite Hs|].
           constructor; [|done]. simpl. now apply py_getitem_elem_of in Eg.
      * split; [|done]. split; [intros []; done|].
        intros [[?|Hr] _]%Forall_cons; simpl in *; [lia|].
        apply py_getitem_Some in Hr. rewrite Eg in Hr. now destruct Hr.
Qed.

(** Given the same search outcome, [FaissRetriever.query] and
    [SimpleRetriever.query] return the same hits; where the former raises
    (the search raised, or a position is out of range) the latter answers
    with the ranking by length. *)
Lemma retrievers_agree (search : str -> Z -> outcome (list (Z * float)))
    (chunks : list Chunk) (q : str) (top_k : Z) :
  Retriever.query (fun _ => search) chunks q top_k
  = match FaissRetriever.query search chunks q top_k with
    | Some out => out
    | None => length_ranking chunks top_k
    end.
Proof.
  unfold Retriever.query, FaissRetriever.query.
  now destruct (search q top_k) as [hits|].
Qed.

Lemma insert_desc_filter {A} (key : A -> Z) (k : Z) x l :
  filter (fun y => key y = k) (insert_desc key x l)
  = filter (fun y => key y = k) (x :: l).
Proof.
  induction l as [|y l IH]; [done|]. cbn [insert_desc].
  destruct (Z.leb_spec (key y) (key x)) as [Hle|Hgt]; [done|].
  rewrite filter_cons, IH, !filter_cons.
  destruct (decide (key y = k)), (decide (key x = k)); try done. lia.
Qed.

(** X13.  The descending sort is stable: among the elements of any one
    key (the chunks of one text length), the order of the input is
    kept. *)
Theorem sorted_desc_is_stable {A} (key : A -> Z) (l : list A) (k : Z) :
  filter (fun y => key y = k) (sorted_desc key l) = filter (fun y => key y = k) l.
Proof.
  induction l as [|x l IH]; [done|].
  unfold sorted_desc in *. cbn [foldr].
  rewrite insert_desc_filter, !filter_cons. now rewrite IH.
Qed.

End Hits.

(** ** The page windows as a cover of the page *)

Lemma page_windows_cons fuel page_num body max_chars overlap start c cs :
  Ingest.page_windows fuel page_num body max_chars overlap start = Some (c :: cs) ->
  start < len body
  /\ c = fst (Ingest.window_body page_num body max_chars overlap start)
  /\ match snd (Ingest.window_body page_num body max_chars overlap start) with
     | None => cs = []
     | Some start' =>
         exists fuel',
           Ingest.page_windows fuel' page_num body max_chars overlap start' = Some cs
     end.
Proof.
  destruct fuel as [|fuel]; cbn [Ingest.page_windows];
    destruct (Z.ltb_spec start (len body)) as [Hlt|Hge]; try discriminate.
  destruct (Ingest.window_body page_num body max_chars overlap start) as [c' next].
  destruct next as [start'|]; cbn [fst snd].
  - destruct (Ingest.page_windows fuel page_num body max_chars overlap start') eqn:E;
      [|discriminate].
    cbn [fmap option_fmap option_map]. intros [= -> ->].
    split; [exact Hlt|]. split; [reflexivity|]. now exists fuel.
  - intros [= -> <-]. split; [exact Hlt|]. split; reflexivity.
Qed.

Section WindowCover.
Import Ingest.
Variables (max_chars overlap : Z).
Hypothesis overlap_range : 0 <= overlap < max_chars.

Lemma page_windows_cover page_num body : forall cs fuel start,
  0 <= start ->
  page_windows fuel page_num body max_chars overlap start = Some cs ->
  reassemble overlap (map text cs) = drop (Z.to_nat start) body
  /\ Forall (fun c => 1 <= len (text c) <= max_chars) cs
  /\ (forall (i : nat) c, cs !! i = Some c -> (S i < length cs)%nat ->
        len (text c) = max_chars).
Proof.
  induction cs as [|c cs IH]; intros fuel start H0 Hcs.
  - destruct fuel; cbn [page_windows] in Hcs;
      destruct (Z.ltb_spec start (len body)) as [Hlt|Hge]; try done.
    + repeat split; try done. simpl. rewrite drop_ge; [done|unfold len in *; lia].
    + destruct (window_body page_num body max_chars overlap start) as [c' [s'|]];
        [|done].
      now destruct (page_windows fuel page_num body max_chars overlap s').
    + repeat split; try done. simpl. rewrite drop_ge; [done|unfold len in *; lia].
  - apply page_windows_cons in Hcs as (Hlt & Hc & Hnext).
    rewrite window_body_chunk in Hc.
    destruct (Z.lt_ge_cases (start + max_chars) (len body)) as [Hin|Hlast].
    + rewrite window_body_next in Hnext by done.
      destruct Hnext as [fuel' Hrest].
      rewrite Z.max_r in Hrest by lia.
      destruct (IH fuel' (start + max_chars - overlap) ltac:(lia) Hrest)
        as (Hre & Hall & Hfull).
      assert (text c = take (Z.to_nat max_chars) (drop (Z.to_nat start) body)) as Ht.
      { rewrite Hc. simpl. rewrite Z.min_r by lia. rewrite slice_inside by lia.
        f_equal. lia. }
      assert (len (text c) = max_chars) as Hlen.
      { rewrite Ht. unfold len in *. rewrite length_take, length_drop. lia. }
      destruct cs as [|c2 cs].
      { exfalso. destruct fuel'; cbn [page_windows] in Hrest;
          destruct (Z.ltb_spec (start + max_chars - overlap) (len body)); try lia;
          try done.
        destruct (window_body page_num body max_chars overlap
                    (start + max_chars - overlap)) as [c' [s'|]]; [|done].
        now destruct (page_windows fuel' page_num body max_chars overlap s'). }
      repeat split.
      * cbn [reassemble map concat] in Hre |- *.
        assert (Z.to_nat overlap <= length (text c2))%nat as Hov.
        { apply Forall_cons in Hall as [Hc2 _]. unfold len in Hc2.
          apply page_windows_cons in Hrest as (_ & Hc2' & _).
          rewrite window_body_chunk in Hc2'. rewrite Hc2'. simpl.
          rewrite slice_inside by lia. rewrite length_take, length_drop.
          unfold len in *. lia. }
        rewrite <- (take_drop (Z.to_nat max_chars) (drop (Z.to_nat start) body)).
        rewrite <- Ht. f_equal.
        rewrite drop_drop.
        replace (Z.to_nat start + Z.to_nat max_chars)%nat
          with (Z.to_nat (start + max_chars - overlap) + Z.to_nat overlap)%nat by lia.
        rewrite <- drop_drop, <- Hre.
        now rewrite drop_app_le.
      * constructor; [lia|done].
      * intros [|i] c' Hi Hlt'.
        -- simpl in Hi. now injection Hi as <-.
        -- simpl in Hi, Hlt'. apply (Hfull i c' Hi). simpl. lia.
    + rewrite window_body_last in Hnext by lia. subst cs.
      assert (text c = drop (Z.to_nat start) body) as Ht.
      { rewrite Hc. simpl. rewrite Z.min_l by lia. rewrite slice_inside by lia.
        apply take_ge. rewrite length_drop. unfold len. lia. }
      repeat split.
      * simpl. now rewrite app_nil_r.
      * constructor; [|done]. rewrite Ht. unfold len in *. rewrite length_drop. lia.
      * intros [|i] c' Hi Hlt'; simpl in Hlt'; lia.
Qed.

End WindowCover.

(** X14.  With [0 <= overlap < max_chars] the windows of a page give the
    page text back: the first window followed by every later window
    without its first [overlap] characters is the text of the page. *)
Theorem page_windows_reassemble (max_chars overlap : Z) (fuel : nat)
    (page_num : Z) (body : str) (cs : list Chunk) :
  0 <= overlap < max_chars ->
  Ingest.page_windows fuel page_num body max_chars overlap 0 = Some cs ->
  reassemble overlap (map text cs) = body.
Proof.
  intros Ho Hcs.
  now destruct (page_windows_cover max_chars overlap Ho page_num body cs fuel 0
                  ltac:(lia) Hcs) as (H & _).
Qed.

(** X15.  With [0 <= overlap < max_chars] every window of a page has
    between 1 and [max_chars] characters, and every window but the last
    has exactly [max_chars]. *)
Theorem page_windows_sizes (max_chars overlap : Z) (fuel : nat)
    (page_num : Z) (body : str) (cs : list Chunk) :
  0 <= overlap < max_chars ->
  Ingest.page_windows fuel page_num body max_chars overlap 0 = Some cs ->
  Forall (fun c => 1 <= len (text c) <= max_chars) cs
  /\ (forall (i : nat) c, cs !! i = Some c -> (S i < length cs)%nat ->
        len (text c) = max_chars).
Proof.
  intros Ho Hcs.
  now destruct (page_windows_cover max_chars overlap Ho page_num body cs fuel 0
                  ltac:(lia) Hcs) as (_ & H).
Qed.

Lemma page_windows_reassemble_witness :
  reassemble 1 [lit "abc"; lit "cde"; lit "efg"; lit "gh"] = lit "abcdefgh".
Proof.
  apply (page_windows_reassemble 3 1 8 1 (lit "abcdefgh")
           [ mkChunk (lit "p1_0") 1 (lit "abc") None;
             mkChunk (lit "p1_2") 1 (lit "cde") None;
             mkChunk (lit "p1_4") 1 (lit "efg") None;
             mkChunk (lit "p1_6") 1 (lit "gh") None ]); [lia|].
  vm_compute. reflexivity.
Defined.

Lemma page_windows_sizes_witness :
  Forall (fun c => 1 <= len (text c) <= 3)
    [ mkChunk (lit "p1_0") 1 (lit "abc") None;
      mkChunk (lit "p1_2") 1 (lit "cde") None;
      mkChunk (lit "p1_4") 1 (lit "efg") None;
      mkChunk (lit "p1_6") 1 (lit "gh") None ].
Proof.
  apply (page_windows_sizes 3 1 8 1 (lit "abcdefgh")); [lia|].
  vm_compute. reflexivity.
Defined.

(** ** [ingest_pdf_bytes] and its fallback *)

Section IngestPdfProps.
Import IngestPdf.
Variable repr_str : str -> str.
Variable repr_float : float -> str.
Variable json_loads : str -> option pyval.

(** X16.  [ingest_pdf_bytes] returns a chunk list whatever the two
    parsers do (the page windows run with [max_chars = 2000] and
    [overlap = 200], so the loop ends): the tree-walk chunks when the
    document was parsed and converted, and the empty list when that failed
    and pypdf failed as well. *)
Theorem ingest_pdf_bytes_returns (parse : outcome Docling.docobj)
    (pypdf : outcome (list (option str))) :
  exists cs,
    (forall fuel,
        (enough_fuel (Pdf.extract_pages_from_pdf_bytes pypdf) <= fuel)%nat ->
        ingest_pdf_bytes repr_str repr_float json_loads fuel parse pypdf = Some cs)
    /\ (forall doc cs',
           parse = Returns doc ->
           Docling.docling_to_chunks repr_str repr_float json_loads doc 2500 200
           = Some cs' ->
           cs = cs')
    /\ (pypdf = Raises ->
        (forall doc, parse = Returns doc ->
           Docling.docling_to_chunks repr_str repr_float json_loads doc 2500 200
           = None) ->
        cs = []).
Proof.
  destruct (simple_chunk_pages_total (Pdf.extract_pages_from_pdf_bytes pypdf)
              2000 200 ltac:(lia)) as [ws Hws].
  assert (pypdf = Raises -> ws = []) as Hboth.
  { intros ->. specialize (Hws 1%nat ltac:(simpl; lia)).
    vm_compute in Hws. now injection Hws as <-. }
  unfold ingest_pdf_bytes. destruct parse as [doc|].
  - destruct (Docling.docling_to_chunks repr_str repr_float json_loads doc 2500 200)
      as [cs|] eqn:Ed.
    + exists cs. repeat split.
      * intros doc' cs' [= <-] E. rewrite Ed in E. now injection E.
      * intros _ H. specialize (H doc eq_refl). rewrite Ed in H. discriminate.
    + exists ws. repeat split; [exact Hws| |].
      * intros doc' cs' [= <-] E. rewrite Ed in E. discriminate.
      * intros Hp _. now apply Hboth.
  - exists ws. repeat split; [exact Hws| |].
    + intros doc cs' [=].
    + intros Hp _. now apply Hboth.
Qed.

Lemma extract_pages_numbers texts :
  map fst (Pdf.extract_pages_from_pdf_bytes (Returns texts))
  = map (fun i => Z.of_nat i + 1) (seq 0 (length texts)).
Proof.
  unfold Pdf.extract_pages_from_pdf_bytes.
  apply list_eq. intros i.
  rewrite !list_lookup_fmap, list_lookup_imap.
  destruct (texts !! i) as [t|] eqn:E; simpl.
  - rewrite lookup_seq_lt by (now apply lookup_lt_Some in E). done.
  - rewrite lookup_seq_ge by (now apply lookup_ge_None in E). done.
Qed.

(** X17.  In the fallback, over the pages pypdf gives, every chunk has a
    text that is not empty and a page number between 1 and the number of
    pages, and the chunk ids are pairwise distinct. *)
Theorem page_fallback_chunks (texts : list (option str)) (fuel : nat)
    (cs : list Chunk) :
  Ingest.simple_chunk_pages fuel
    (Pdf.extract_pages_from_pdf_bytes (Returns texts)) 2000 200 = Some cs ->
  Forall (fun c => text c <> [] /\ 1 <= page c <= len texts) cs
  /\ NoDup (map chunk_id cs).
Proof.
  intros Hcs.
  destruct (simple_chunk_pages_chunks 2000 200 ltac:(lia) fuel _ cs Hcs)
    as [Hall Hnd].
  split.
  - eapply Forall_impl; [apply Hall|]. intros c (Ht & Hp & _). split; [done|].
    rewrite extract_pages_numbers in Hp.
    apply list_elem_of_fmap in Hp as (i & -> & Hi).
    apply elem_of_seq in Hi. unfold len. lia.
  - apply Hnd. rewrite extract_pages_numbers.
    apply NoDup_fmap_2; [|apply NoDup_seq].
    intros i j H. lia.
Qed.

End IngestPdfProps.

Lemma page_fallback_chunks_witness :
  NoDup (map chunk_id
           [ mkChunk (lit "p1_0") 1 (lit "first page") None;
             mkChunk (lit "p3_0") 3 (lit "third") None ]).
Proof.
  apply (page_fallback_chunks [Some (lit "first page"); None; Some (lit "third")]
           10%nat).
  vm_compute. reflexivity.
Defined.

(** ** The tree walk: section stack and breadcrumbs *)

Section WalkerProps.
Import Docling.
Variable repr_str : str -> str.
Variable repr_float : float -> str.

Local Abbreviation walker := (_iter_text_nodes repr_str repr_float).

Lemma pyval_nested_ind (P : pyval -> Prop) :
  P PNone -> (forall b, P (PBool b)) -> (forall z, P (PInt z)) ->
  (forall f, P (PFloat f)) -> (forall s, P (PStr s)) ->
  (forall l, Forall P l -> P (PList l)) ->
  (forall d, Forall (fun kv => P (snd kv)) d -> P (PDict d)) ->
  forall v, P v.
Proof.
  intros HN HB HI HF HS HL HD. fix IH 1.
  intros [|b|z|f|s|l|d];
    [apply HN|apply HB|apply HI|apply HF|apply HS| |].
  - apply HL. induction l as [|x l IHl]; constructor; [apply IH|exact IHl].
  - apply HD. induction d as [|[k x] d IHd]; constructor; [apply IH|exact IHd].
Qed.

Lemma walker_dict d section_stack :
  walker (PDict d) section_stack
  = let title := first_stripped [lit "title"; lit "heading"; lit "name"] d in
    let stack1 := match title with
                  | Some t => section_stack ++ [t]
                  | None => section_stack
                  end in
    match figure_spans d stack1 with
    | None => None
    | Some fig =>
        match walk_values walker d stack1 with
        | None => None
        | Some (sub, stack2) =>
            Some ((text_spans d stack1 ++ table_spans repr_str repr_float d stack1)
                    ++ fig ++ sub,
                  match title with
                  | Some _ => removelast stack2
                  | None => stack2
                  end)
        end
    end.
Proof. reflexivity. Qed.

Lemma walker_list l section_stack :
  walker (PList l) section_stack = walk_items walker l section_stack.
Proof. reflexivity. Qed.

Lemma walk_values_stack d : forall section_stack spans stack',
  Forall (fun kv => forall st sp st', walker (snd kv) st = Some (sp, st') -> st' = st) d ->
  walk_values walker d section_stack = Some (spans, stack') ->
  stack' = section_stack.
Proof.
  induction d as [|[k v] d IH]; intros st spans st' Hall; cbn [walk_values].
  - now intros [= _ <-].
  - apply Forall_cons in Hall as [Hv Hd]. simpl in Hv.
    destruct (walker v st) as [[s1 st1]|] eqn:E1; [|done].
    apply Hv in E1. subst st1.
    destruct (walk_values walker d st) as [[s2 st2]|] eqn:E2; [|done].
    intros [= _ <-]. now apply (IH st s2 st2).
Qed.

Lemma walk_items_stack l : forall section_stack spans stack',
  Forall (fun v => forall st sp st', walker v st = Some (sp, st') -> st' = st) l ->
  walk_items walker l section_stack = Some (spans, stack') ->
  stack' = section_stack.
Proof.
  induction l as [|v l IH]; intros st spans st' Hall; cbn [walk_items].
  - now intros [= _ <-].
  - apply Forall_cons in Hall as [Hv Hd].
    destruct (walker v st) as [[s1 st1]|] eqn:E1; [|done].
    apply Hv in E1. subst st1.
    destruct (walk_items walker l st) as [[s2 st2]|] eqn:E2; [|done].
    intros [= _ <-]. now apply (IH st s2 st2).
Qed.

Lemma walker_stack v : forall section_stack spans stack',
  walker v section_stack = Some (spans, stack') -> stack' = section_stack.
Proof.
  induction v as [|b|z|f|s|l IHl|d IHd] using pyval_nested_ind;
    intros st spans st'; try (now intros [= _ <-]).
  - rewrite walker_list. now apply walk_items_stack.
  - rewrite walker_dict. cbv zeta.
    generalize (first_stripped [lit "title"; lit "heading"; lit "name"] d).
    intros title.
    destruct (figure_spans d _) as [fig|]; [|done].
    destruct (walk_values walker d _) as [[sub st2]|] eqn:E; [|done].
    apply walk_values_stack in E; [|done]. subst st2.
    intros [= _ <-].
    destruct title; [|done].
    apply removelast_last.
Qed.

(** X18.  When the walk of a value ends without an exception, the
    section stack is as it was on entry: every title pushed for a subtree
    has been popped. *)
Theorem section_stack_restored (obj : pyval) (section_stack : list str)
    (spans : list span) (stack' : list str) :
  walker obj section_stack = Some (spans, stack') -> stack' = section_stack.
Proof. apply walker_stack. Qed.

Lemma path_or_nonempty st dflt :
  st <> [] -> path_or st dflt = Some (join (lit " > ") st).
Proof. now destruct st. Qed.

Lemma own_spans_paths d st :
  st <> [] ->
  Forall (under_breadcrumb st) (text_spans d st ++ table_spans repr_str repr_float d st)
  /\ (forall fig, figure_spans d st = Some fig -> Forall (under_breadcrumb st) fig).
Proof.
  intros Hst.
  assert (forall t p dflt, under_breadcrumb st (t, p, path_or st dflt)) as Hone.
  { intros t p dflt. rewrite path_or_nonempty by done. eexists. split; [reflexivity|].
    reflexivity. }
  split; [apply Forall_app; split|].
  - unfold text_spans. destruct (dict_get d (lit "text")) as [[]|]; try constructor.
    case_bool_decide; constructor; [apply Hone|constructor].
  - unfold table_spans.
    destruct (dict_get d (lit "type")) as [[]|]; try constructor.
    destruct (dict_get d (lit "cells")) as [rows|]; [|constructor].
    destruct (str_eqb s (lit "table")); [|constructor].
    destruct (py_iter rows) as [rs|]; [|constructor].
    destruct (table_lines repr_str repr_float rs); constructor;
      [apply Hone|constructor].
  - intros fig. unfold figure_spans.
    destruct (in_figure_kinds _) as [[]|]; [|now intros [= <-]|done].
    destruct (first_stripped _ d); intros [= <-]; constructor;
      [apply Hone|constructor].
Qed.

Lemma under_breadcrumb_snoc st t sp :
  under_breadcrumb (st ++ [t]) sp -> st <> [] -> under_breadcrumb st sp.
Proof.
  intros (p & Hp & Hpre) Hst. exists p. split; [done|].
  etransitivity; [|exact Hpre].
  rewrite join_snoc. destruct st; [done|]. now apply prefix_app_r.
Qed.

Lemma walk_values_paths d : forall st sub st2,
  st <> [] ->
  Forall (fun kv => forall st sp st', st <> [] ->
            walker (snd kv) st = Some (sp, st') -> Forall (under_breadcrumb st) sp) d ->
  walk_values walker d st = Some (sub, st2) ->
  Forall (under_breadcrumb st) sub.
Proof.
  induction d as [|[k v] d IH]; intros st sub st2 Hst Hall; cbn [walk_values].
  - intros [= <- _]. constructor.
  - apply Forall_cons in Hall as [Hv Hd]. simpl in Hv.
    destruct (walker v st) as [[s1 st']|] eqn:E1; [|done].
    pose proof (walker_stack _ _ _ _ E1). subst st'.
    destruct (walk_values walker d st) as [[s2 st'']|] eqn:E2; [|done].
    intros [= <- _]. apply Forall_app. split.
    + now apply (Hv st s1 st).
    + now apply (IH st s2 st'').
Qed.

Lemma walk_items_paths l : forall st sub st2,
  st <> [] ->
  Forall (fun v => forall st sp st', st <> [] ->
            walker v st = Some (sp, st') -> Forall (under_breadcrumb st) sp) l ->
  walk_items walker l st = Some (sub, st2) ->
  Forall (under_breadcrumb st) sub.
Proof.
  induction l as [|v l IH]; intros st sub st2 Hst Hall; cbn [walk_items].
  - intros [= <- _]. constructor.
  - apply Forall_cons in Hall as [Hv Hd].
    destruct (walker v st) as [[s1 st']|] eqn:E1; [|done].
    pose proof (walker_stack _ _ _ _ E1). subst st'.
    destruct (walk_items walker l st) as [[s2 st'']|] eqn:E2; [|done].
    intros [= <- _]. apply Forall_app. split.
    + now apply (Hv st s1 st).
    + now apply (IH st s2 st'').
Qed.

Lemma walker_paths v : forall section_stack spans stack',
  section_stack <> [] ->
  walker v section_stack = Some (spans, stack') ->
  Forall (under_breadcrumb section_stack) spans.
Proof.
  induction v as [|b|z|f|s|l IHl|d IHd] using pyval_nested_ind;
    intros st spans st' Hst; try (intros [= <- _]; constructor).
  - rewrite walker_list. now apply walk_items_paths.
  - rewrite walker_dict. cbv zeta.
    generalize (first_stripped [lit "title"; lit "heading"; lit "name"] d).
    intros title.
    set (st1 := match title with
                | Some t => st ++ [t]
                | None => st
                end).
    assert (st1 <> []) as Hst1.
    { unfold st1. destruct title; [|done]. now destruct st. }
    assert (forall sp, under_breadcrumb st1 sp -> under_breadcrumb st sp) as Hup.
    { unfold st1. destruct title; [|done].
      intros sp Hsp. now apply under_breadcrumb_snoc in Hsp. }
    destruct (own_spans_paths d st1 Hst1) as [Hown Hfig].
    destruct (figure_spans d st1) as [fig|]; [|done].
    specialize (Hfig fig eq_refl).
    destruct (walk_values walker d st1) as [[sub st2]|] eqn:E; [|done].
    intros [= <- _].
    apply walk_values_paths in E; [|done|done].
    eapply Forall_impl; [|exact Hup].
    apply Forall_app; split; [exact Hown|].
    apply Forall_app; split; [exact Hfig|exact E].
Qed.

Lemma walker_dict_paths (d : list (str * pyval)) (section_stack : list str)
    (spans : list span) (stack' : list str) :
  let stack1 :=
    match first_stripped [lit "title"; lit "heading"; lit "name"] d with
    | Some t => section_stack ++ [t]
    | None => section_stack
    end in
  stack1 <> [] ->
  walker (PDict d) section_stack = Some (spans, stack') ->
  Forall (under_breadcrumb stack1) spans.
Proof.
  rewrite walker_dict. cbv zeta.
  generalize (first_stripped [lit "title"; lit "heading"; lit "name"] d).
  intros title Hst.
  destruct (own_spans_paths d _ Hst) as [Hown Hfig].
  destruct (figure_spans d _) as [fig|]; [|done].
  specialize (Hfig fig eq_refl).
  destruct (walk_values walker d _) as [[sub st2]|] eqn:E; [|done].
  intros [= <- _].
  apply walk_values_paths in E; [|done|].
  - apply Forall_app; split; [exact Hown|].
    apply Forall_app; split; [exact Hfig|exact E].
  - apply Forall_forall. intros kv _ st sp st'. apply walker_paths.
Qed.

(** X19.  Every span found at or under a node that carries a title has,
    as the start of its section path, the breadcrumb of that node: the
    titles of its ancestors and its own, joined by [" > "]. *)
Theorem spans_carry_breadcrumb (d : list (str * pyval)) (section_stack : list str)
    (t : str) (spans : list span) (stack' : list str) :
  first_stripped [lit "title"; lit "heading"; lit "name"] d = Some t ->
  walker (PDict d) section_stack = Some (spans, stack') ->
  Forall (under_breadcrumb (section_stack ++ [t])) spans.
Proof.
  intros Ht Hwalk.
  pose proof (walker_dict_paths d section_stack spans stack') as Hpaths.
  cbv zeta in Hpaths. rewrite Ht in Hpaths.
  apply Hpaths; [|exact Hwalk].
  now destruct section_stack.
Qed.

End WalkerProps.

Lemma section_stack_restored_witness :
  exists spans,
    Docling._iter_text_nodes repr_str_quoted repr_float_zero
      (PDict [ (lit "title", PStr (lit "Scope"));
               (lit "children", PList [PDict [ (lit "heading", PStr (lit "Terms"));
                                               (lit "text", PStr (lit "EMD")) ]]) ])
      [lit "Tender"]
    = Some (spans, [lit "Tender"]).
Proof.
  destruct (Docling._iter_text_nodes repr_str_quoted repr_float_zero
      (PDict [ (lit "title", PStr (lit "Scope"));
               (lit "children", PList [PDict [ (lit "heading", PStr (lit "Terms"));
                                               (lit "text", PStr (lit "EMD")) ]]) ])
      [lit "Tender"]) as [[spans st]|] eqn:E.
  - exists spans. f_equal. f_equal.
    exact (section_stack_restored repr_str_quoted repr_float_zero _ _ _ _ E).
  - vm_compute in E. discriminate E.
Defined.

Lemma spans_carry_breadcrumb_witness :
  Forall (under_breadcrumb [lit "Tender"; lit "Scope"])
    [ (lit "EMD", None, Some (lit "Tender > Scope > Terms")) ].
Proof.
  apply (spans_carry_breadcrumb repr_str_quoted repr_float_zero
           [ (lit "title", PStr (lit "Scope"));
             (lit "children", PList [PDict [ (lit "heading", PStr (lit "Terms"));
                                             (lit "text", PStr (lit "EMD")) ]]) ]
           [lit "Tender"] (lit "Scope") _ [lit "Tender"]);
    vm_compute; reflexivity.
Defined.

(** ** The merge: where a chunk's page and section come from *)

Section MergeProvenance.
Import Docling.
Variable all : list span.

Local Abbreviation good := (tagged_in all).
Local Abbreviation from_span := (buffer_from all).
Local Abbreviation inv := (merge_tagged all).

Lemma flush_state_tagged st : inv st -> Forall good (flush_state st).
Proof.
  intros [Hc Hf]. unfold flush_state.
  destruct (flush_cases (chunks st) (buf st) (start st) (current_page st)
              (current_path st)) as [-> | (Hb & _ & ->)]; [done|].
  apply Forall_app. split; [done|]. constructor; [|constructor].
  destruct Hf as [Hf | (sp & Hin & Hpath & Hpage)]; [done|].
  exists sp. split; [done|]. split; simpl; congruence.
Qed.

Lemma merge_step_tagged i sp max_chars overlap st :
  sp ∈ all -> inv st -> inv (merge_step i sp max_chars overlap st).
Proof.
  intros Hin Hinv.
  assert (inv (accumulate i sp st)) as Hacc.
  { pose proof (flush_state_tagged st Hinv) as Hfl.
    destruct Hinv as [Hc Hf].
    destruct st as [cs b s cl cp cpg], sp as [[t p] path].
    unfold accumulate, inv, from_span in *. simpl in *.
    assert (exists sp, sp ∈ all /\ path = span_path sp /\ p = span_page sp) as Hsp
      by (eexists; split; [exact Hin|done]).
    destruct b as [|x b]; simpl.
    - case_bool_decide; simpl; split; auto.
    - case_bool_decide; simpl; split; auto.
      destruct Hf as [Hf|Hf]; [done|auto]. }
  clear Hinv. unfold merge_step.
  pose proof (flush_state_tagged _ Hacc) as Hfl.
  destruct Hacc as [Hc Hf].
  destruct (accumulate i sp st) as [cs b s cl cp cpg], sp as [[t p] path].
  unfold length_flush, inv, from_span in *. simpl in *.
  destruct (max_chars <=? cl); [|done].
  destruct (0 <? overlap); simpl; [|split; auto].
  case_bool_decide; simpl; split; auto.
  right. eexists. split; [exact Hin|done].
Qed.

Lemma merge_loop_tagged spans : forall i max_chars overlap st,
  Forall (fun sp => sp ∈ all) spans -> inv st ->
  inv (merge_loop i spans max_chars overlap st).
Proof.
  induction spans as [|sp spans IH]; intros i max_chars overlap st Hs Hinv; [done|].
  apply Forall_cons in Hs as [Hsp Hrest]. cbn [merge_loop].
  apply IH; [done|]. now apply merge_step_tagged.
Qed.

End MergeProvenance.

(** X20.  Every chunk of the merge takes its section hint and its page
    from one and the same span of the input (the page being 1 where that
    span has none, or has page 0). *)
Theorem merged_chunk_provenance (spans : list Docling.span)
    (max_chars overlap : Z) (c : Chunk) :
  c ∈ Docling.merge_spans spans max_chars overlap ->
  exists sp, sp ∈ spans /\ tagged_by c sp.
Proof.
  intros Hc. unfold Docling.merge_spans in Hc.
  assert (Forall (tagged_in spans)
            (Docling.flush_state
               (Docling.merge_loop 0 spans max_chars overlap Docling.init_state)))
    as Hall.
  { apply flush_state_tagged. apply merge_loop_tagged.
    - now apply Forall_forall.
    - split; [constructor|now left]. }
  rewrite Forall_forall in Hall. now apply Hall.
Qed.

Lemma merged_chunk_provenance_witness :
  exists sp,
    sp ∈ [ (lit "EMD is 2%", Some 3, Some (lit "Terms"));
           (lit "Bids close in May", Some 4, Some (lit "Dates")) ]
    /\ tagged_by (mkChunk (lit "dl_1_1") 4 (lit "Bids close in May") (Some (lit "Dates"))) sp.
Proof.
  apply (merged_chunk_provenance
           [ (lit "EMD is 2%", Some 3, Some (lit "Terms"));
             (lit "Bids close in May", Some 4, Some (lit "Dates")) ] 2500 200).
  vm_compute. apply list_elem_of_In. simpl. tauto.
Defined.

(** ** [build_kb_index.py]: batches and the saved knowledge base *)

Section Batches.
Import BuildKb.
Context {A : Type}.

Lemma take_drop_batches (s : nat) : forall (m : nat) (l : list A),
  (0 < s)%nat -> (length l <= m * s)%nat ->
  concat (map (fun k => take s (drop (k * s) l)) (List.seq 0 m)) = l.
Proof.
  induction m as [|m IH]; intros l Hs Hl.
  - destruct l; [done|simpl in Hl; lia].
  - cbn [List.seq map concat]. rewrite <- seq_shift, map_map.
    change (0 * s)%nat with 0%nat. rewrite drop_0.
    etransitivity; [|apply (take_drop s l)]. f_equal.
    etransitivity; [|apply (IH (drop s l) Hs); rewrite length_drop; lia].
    f_equal. apply map_ext. intros k. rewrite drop_drop. do 2 f_equal.
Qed.

Lemma batch_is_take_drop (l : list A) (size : Z) (k : nat) :
  0 < size -> Z.of_nat k * size < len l ->
  slice l (Z.of_nat k * size) (Z.of_nat k * size + size)
  = take (Z.to_nat size) (drop (k * Z.to_nat size) l).
Proof.
  intros Hs Hk. unfold slice, py_index.
  destruct (Z.ltb_spec (Z.of_nat k * size) 0); [lia|].
  destruct (Z.ltb_spec (Z.of_nat k * size + size) 0); [lia|].
  rewrite (Z.min_l (Z.of_nat k * size)) by lia.
  replace (Z.to_nat (Z.of_nat k * size)) with (k * Z.to_nat size)%nat by lia.
  destruct (Z.le_gt_cases (Z.of_nat k * size + size) (len l)).
  - rewrite Z.min_l by lia. f_equal. lia.
  - rewrite Z.min_r by lia.
    rewrite !take_ge; [done| |]; rewrite length_drop; unfold len in *; lia.
Qed.

Lemma ceil_div_bounds (n size : Z) :
  0 <= n -> 0 < size ->
  n <= (n + size - 1) / size * size < n + size.
Proof.
  intros Hn Hs.
  pose proof (Z.div_mod (n + size - 1) size ltac:(lia)).
  pose proof (Z.mod_pos_bound (n + size - 1) size Hs). nia.
Qed.

(** X21.  For a batch size above zero the batches are a partition of
    the sequence into consecutive pieces: put end to end they give the
    sequence back, no batch is empty and none is longer than the size, and
    there are [ceil(len / size)] of them.  A size of zero is a
    [ValueError]; a size below zero gives no batch at all. *)
Theorem batched_partition (seq : list A) (size : Z) :
  (0 < size ->
   exists batches,
     batched seq size = Some batches
     /\ concat batches = seq
     /\ Forall (fun b => 1 <= len b <= size) batches
     /\ len batches = ceil_div (len seq) size)
  /\ (size = 0 -> batched seq size = None)
  /\ (size < 0 -> batched seq size = Some []).
Proof.
  split; [|split].
  - intros Hs. unfold batched, range0.
    destruct (Z.eqb_spec size 0); [lia|]. destruct (Z.ltb_spec size 0); [lia|].
    eexists. split; [reflexivity|].
    pose proof (len_nonneg seq) as Hn.
    pose proof (ceil_div_bounds (len seq) size Hn Hs) as Hc.
    set (m := Z.to_nat ((len seq + size - 1) / size)) in *.
    assert (Z.of_nat m = (len seq + size - 1) / size) as Hm
      by (unfold m; apply Z2Nat.id; apply Z.div_pos; lia).
    rewrite map_map.
    assert (forall k, (k < m)%nat -> Z.of_nat k * size < len seq) as Hlt by (intros; nia).
    assert (map (fun k => slice seq (Z.of_nat k * size) (Z.of_nat k * size + size))
                (List.seq 0 m)
            = map (fun k => take (Z.to_nat size) (drop (k * Z.to_nat size) seq))
                  (List.seq 0 m)) as ->.
    { apply map_ext_in. intros k Hk%in_seq. apply batch_is_take_drop; [done|].
      apply Hlt. lia. }
    split; [|split].
    + apply take_drop_batches; [lia|]. unfold len in *. nia.
    + apply Forall_map, Forall_forall. intros k Hk%list_elem_of_In%in_seq.
      specialize (Hlt k ltac:(lia)). unfold len in *. cbn beta.
      rewrite length_take, length_drop. nia.
    + unfold len, ceil_div. rewrite length_map, length_seq. unfold len in Hm. lia.
  - intros ->. reflexivity.
  - intros Hs. unfold batched, range0.
    destruct (Z.eqb_spec size 0); [lia|]. destruct (Z.ltb_spec size 0); [done|lia].
Qed.

End Batches.

Lemma batched_partition_witness :
  exists batches,
    BuildKb.batched [1; 2; 3; 4; 5] 2 = Some batches
    /\ concat batches = [1; 2; 3; 4; 5]
    /\ Forall (fun b => 1 <= len b <= 2) batches
    /\ len batches = ceil_div (len [1; 2; 3; 4; 5]) 2.
Proof.
  apply (proj1 (batched_partition [1; 2; 3; 4; 5] 2)). lia.
Defined.

Section KbBuild.
Import IndexStore BuildKb.
Variable faiss_available : bool.
Variable normalize_L2 : list float -> list float.
Variable embed_texts : list str -> list (list float).

Lemma all_chunks_hints pdfs :
  Forall (fun c => exists fname, fname ∈ map fst pdfs /\ hint_from fname c)
         (all_chunks pdfs).
Proof.
  unfold all_chunks. induction pdfs as [|[fname cs] pdfs IH]; [constructor|].
  cbn [map concat fst snd]. apply Forall_app. split.
  - apply Forall_map, Forall_forall. intros c _. exists fname.
    split; [apply list_elem_of_here|].
    unfold hint_from, annotate. cbn [section_hint]. eexists. split; [reflexivity|].
    destruct (section_hint c) as [[|x h]|]; [done|now apply prefix_app_r|done].
  - eapply Forall_impl; [exact IH|]. intros c (f & Hf & Hh). exists f.
    split; [now apply list_elem_of_further|done].
Qed.

(** X22.  When [main] runs to its end, the knowledge base it leaves
    loads again as the annotated chunks of all PDFs together with an index
    holding exactly one vector for each of them, and every chunk's section
    hint starts with the file name of one of the PDFs. *)
Theorem kb_build_counts_agree (fs fs' : store) (dir index_root kb_id : str)
    (batch : Z) (pdfs : list (str * list Chunk)) :
  main faiss_available normalize_L2 embed_texts fs dir index_root kb_id batch pdfs
  = (fs', Done) ->
  (exists index,
      load_index faiss_available fs' index_root kb_id
      = inr (all_chunks pdfs, index)
      /\ ntotal index = len (all_chunks pdfs))
  /\ Forall (fun c => exists fname, fname ∈ map fst pdfs /\ hint_from fname c)
            (all_chunks pdfs).
Proof.
  intros Hmain. split; [|apply all_chunks_hints].
  unfold main in Hmain. destruct pdfs as [|pdf pdfs]; [done|].
  set (all := all_chunks (pdf :: pdfs)) in *.
  destruct (batched (map text all) batch) as [batches|]; [|done].
  set (embeddings := concat (map embed_texts batches)) in *.
  destruct (Z.eqb_spec (len embeddings) (len all)) as [Hlen|]; [|done].
  cbn [negb] in Hmain. unfold save_index in Hmain.
  destruct faiss_available; [|done]. cbn [negb] in Hmain.
  destruct (shape1 embeddings) as [e|d]; [done|].
  injection Hmain as <-.
  exists (mkIndex d (map normalize_L2 embeddings)). split.
  - unfold load_index. cbn [negb].
    rewrite lookup_insert_ne by (intros E; symmetry in E; now apply paths_differ in E).
    now rewrite !lookup_insert_eq.
  - unfold ntotal. cbn [vectors]. unfold len in *. now rewrite length_map.
Qed.

End KbBuild.

Lemma kb_build_counts_agree_witness :
  exists index,
    IndexStore.load_index true
      (fst (BuildKb.main true id (map (fun _ => [1%float; 0%float]))
              ∅ (lit "docs") (lit "idx") (lit "kb_global") 64
              [ (lit "a.pdf", two_chunks) ]))
      (lit "idx") (lit "kb_global")
    = inr (BuildKb.all_chunks [ (lit "a.pdf", two_chunks) ], index)
    /\ IndexStore.ntotal index = len (BuildKb.all_chunks [ (lit "a.pdf", two_chunks) ]).
Proof.
  apply (kb_build_counts_agree true id (map (fun _ => [1%float; 0%float]))
           ∅ _ (lit "docs") (lit "idx") (lit "kb_global") 64
           [ (lit "a.pdf", two_chunks) ]).
  vm_compute. reflexivity.
Defined.

(** ** [app.py]: the handlers *)

Section EmptyAgrees.
Import Summarizer App.
Variable repr_str : str -> str.
Variable repr_float : float -> str.
Variable json_loads : str -> option pyval.
Variable re_search : str -> bool -> str -> option re_match.
Variable re_split : str -> str -> list str.
Variable groq_chat : str -> str -> str -> float -> Z -> outcome (option str).

Lemma sval_truthy_non_null v : sval_truthy v = non_null v.
Proof. destruct v as [|[|c s]|[|x l]]; reflexivity. Qed.

Lemma engine_record_keys chunks api_key model :
  map fst (fst (extract_summary_groq repr_str repr_float json_loads re_search
                  re_split groq_chat chunks api_key model))
  = SUMMARY_FIELDS.
Proof.
  unfold extract_summary_groq. destruct chunks as [|c chunks]; [done|].
  unfold summary_of_raw.
  destruct (_extract_json_block _) as [[|c0 js]|];
    match goal with
    | |- context [_is_effectively_empty ?sm] =>
        assert (map fst sm = SUMMARY_FIELDS) as Hk by apply parse_summary_keys;
        destruct (_is_effectively_empty sm); [reflexivity|exact Hk]
    end.
Qed.

(** X23.  On a record with the seven summary keys the handlers' own test
    [_empty] and the engine's [_is_effectively_empty] give the same answer;
    in particular they agree on the record [extract_summary_groq] returns,
    whether it is the model's or the rule-based one. *)
Theorem handler_empty_agrees :
  (forall d : summary,
      map fst d = SUMMARY_FIELDS -> _empty d = _is_effectively_empty d)
  /\ (forall chunks api_key model,
        let summary :=
          fst (extract_summary_groq repr_str repr_float json_loads re_search
                 re_split groq_chat chunks api_key model) in
        _empty summary = _is_effectively_empty summary).
Proof.
  assert (forall d : summary,
             map fst d = SUMMARY_FIELDS -> _empty d = _is_effectively_empty d)
    as Hagree.
  { intros d Hk.
    do 7 (destruct d as [|[? ?] d]; [discriminate Hk|]).
    destruct d; [|discriminate Hk].
    injection Hk as -> -> -> -> -> -> ->.
    unfold _empty. cbn [existsb].
    repeat match goal with
    | |- context [summary_get ?l ?k] =>
        let v := eval vm_compute in (summary_get l k) in
        change (summary_get l k) with v
    end.
    rewrite !sval_truthy_non_null.
    unfold _is_effectively_empty, summary.
    rewrite !filter_cons, filter_nil. cbn [snd].
    repeat match goal with
    | |- context [non_null ?v] => is_var v; destruct (non_null v)
    end; reflexivity. }
  split; [exact Hagree|].
  intros chunks api_key model summary. apply Hagree. apply engine_record_keys.
Qed.

End EmptyAgrees.

Lemma handler_empty_agrees_witness :
  App._empty
    [ (lit "tender_name", Summarizer.SStr (lit "Supply of pumps"));
      (lit "issuer", Summarizer.SNone); (lit "emd_amount", Summarizer.SStr []);
      (lit "location", Summarizer.SNone); (lit "duration", Summarizer.SNone);
      (lit "scope_of_work", Summarizer.SNone);
      (lit "compliance_notes", Summarizer.SList [lit "EMD is 2%"]) ]
  = Summarizer._is_effectively_empty
      [ (lit "tender_name", Summarizer.SStr (lit "Supply of pumps"));
        (lit "issuer", Summarizer.SNone); (lit "emd_amount", Summarizer.SStr []);
        (lit "location", Summarizer.SNone); (lit "duration", Summarizer.SNone);
        (lit "scope_of_work", Summarizer.SNone);
        (lit "compliance_notes", Summarizer.SList [lit "EMD is 2%"]) ]
  /\ Summarizer._is_effectively_empty
       [ (lit "tender_name", Summarizer.SStr (lit "Supply of pumps"));
         (lit "issuer", Summarizer.SNone); (lit "emd_amount", Summarizer.SStr []);
         (lit "location", Summarizer.SNone); (lit "duration", Summarizer.SNone);
         (lit "scope_of_work", Summarizer.SNone);
         (lit "compliance_notes", Summarizer.SList [lit "EMD is 2%"]) ]
     = false.
Proof.
  split; [|vm_compute; reflexivity].
  apply (proj1 (handler_empty_agrees repr_str_quoted repr_float_zero
                  json_loads_tiny re_search_none re_split_whole groq_down)).
  reflexivity.
Defined.

Section HandlerProps.
Import IndexStore App.
Variable faiss_available : bool.
Variable normalize_L2 : list float -> list float.
Variable index_root : str.
Variable top_k : Z.
Variable groq_api_key : option str.
Variable llm_model : str.
Variable index_search : faiss_index -> str -> Z -> outcome (list (Z * float)).
Variable groq_chat : str -> str -> str -> float -> Z -> outcome (option str).
Variable re_sub : str -> str -> str -> bool -> str.
Variable re_search : str -> str -> bool.
Variable bytes : Type.
Variable download : str -> outcome bytes.
Variable ingest_pdf_bytes : bytes -> list Chunk.
Variable embed_texts : list str -> list (list float).

Local Abbreviation ask fa :=
  (ask_question fa index_root top_k groq_api_key llm_model index_search
     groq_chat re_sub re_search).
Local Abbreviation ingest local :=
  (ingest_tender faiss_available normalize_L2 index_root local bytes download
     ingest_pdf_bytes embed_texts).

Lemma cite_cites c : cites (cite c) c.
Proof.
  unfold cites, cite. cbn. repeat split. eexists. split; [reflexivity|].
  rewrite slice_to_take by lia. split; [apply prefix_take|].
  unfold len. rewrite length_take. lia.
Qed.

Lemma hits_to_chunks_elem_of chunks hits : forall out,
  Retriever.hits_to_chunks chunks hits = Some out ->
  Forall (fun r => fst r ∈ chunks) out.
Proof.
  induction hits as [|[i score] hits IH]; intros out; cbn [Retriever.hits_to_chunks].
  - intros [= <-]. constructor.
  - destruct (i =? -1); [apply IH|].
    destruct (Retriever.py_getitem chunks i) as [c|] eqn:Eg; [|done].
    destruct (Retriever.hits_to_chunks chunks hits) as [rest|]; [|done].
    intros [= <-]. constructor; [|now apply IH].
    now apply py_getitem_elem_of in Eg.
Qed.

Lemma clean_answer_nonempty tender_id a :
  clean_answer re_sub re_search tender_id a <> [].
Proof.
  unfold clean_answer.
  set (ans := re_sub (lit "\s+") (lit " ") _ false).
  destruct (bool_decide (ans = [])) eqn:E; [done|].
  apply bool_decide_eq_false in E. cbn [orb].
  destruct (bool_decide (ans = tender_id) || re_search _ ans); done.
Qed.

Lemma ask_loaded fs tender_id question chunks index r :
  load_index faiss_available fs index_root tender_id = inr (chunks, index) ->
  ask faiss_available fs tender_id question = Ok r ->
  answer r <> [] /\ Forall (fun ci => exists c, c ∈ chunks /\ cites ci c) (citations r).
Proof.
  intros Hload. unfold ask_question. rewrite Hload.
  destruct (FaissRetriever.query _ chunks question top_k) as [top|] eqn:Eq; [|done].
  intros [= <-]. cbn [answer citations]. split; [apply clean_answer_nonempty|].
  unfold FaissRetriever.query in Eq.
  destruct (index_search index question top_k) as [hits|]; [|done].
  apply hits_to_chunks_elem_of in Eq.
  apply Forall_map. eapply Forall_impl; [exact Eq|].
  intros [c score] Hc. exists c. split; [done|apply cite_cites].
Qed.

(** X24.  [ask_question] answers [Index not found. Please ingest
    first.], with no citation, when the chunk file or the index file of the
    identifier is missing; a failing import of faiss is not caught and
    leaves the handler.  Every other response has an answer that is not
    empty and cites only chunks of the stored chunk file, each with at most
    the first 160 characters of the chunk's text. *)
Theorem ask_question_outcomes (fs : store) (tender_id question : str) :
  (fs !! chunks_path index_root tender_id = None
   \/ fs !! index_path index_root tender_id = None ->
   ask true fs tender_id question = Ok (mkQA index_not_found []))
  /\ ask false fs tender_id question = Unhandled
  /\ (forall r,
        ask faiss_available fs tender_id question = Ok r ->
        r = mkQA index_not_found []
        \/ (answer r <> []
            /\ exists chunks,
                 fs !! chunks_path index_root tender_id = Some (ChunksJson chunks)
                 /\ Forall (fun ci => exists c, c ∈ chunks /\ cites ci c)
                           (citations r))).
Proof.
  split; [|split].
  - intros Hmiss. unfold ask_question, load_index. cbn [negb].
    destruct Hmiss as [-> | Hi]; [done|].
    destruct (fs !! chunks_path index_root tender_id); [now rewrite Hi|done].
  - reflexivity.
  - intros r Hr.
    destruct (load_index faiss_available fs index_root tender_id)
      as [e|[chunks index]] eqn:Hload.
    + left. unfold ask_question in Hr. rewrite Hload in Hr.
      destruct e; try done. now injection Hr as <-.
    + right. destruct (ask_loaded _ _ _ _ _ _ Hload Hr) as [Ha Hc].
      split; [done|]. exists chunks. split; [|done].
      unfold load_index in Hload. destruct (negb faiss_available); [done|].
      destruct (fs !! chunks_path index_root tender_id) as [[cs|ix]|]; [| |done].
      * destruct (fs !! index_path index_root tender_id) as [[|]|]; try done.
        now injection Hload as -> _.
      * destruct (fs !! index_path index_root tender_id); done.
Qed.

Lemma path_of_length root sid name :
  length (path_of root sid name)
  = (length root + 1 + length sid + 1 + length name)%nat.
Proof. unfold path_of. rewrite !length_app. simpl. lia. Qed.

Lemma safe_id_length t : length (_safe_id t) = length t.
Proof. unfold _safe_id. apply length_map. Qed.

Lemma prefixed_paths_differ tid name1 name2 :
  length name1 = length name2 ->
  path_of index_root (_safe_id tid) name1
  <> path_of index_root (_safe_id (lit "tenders/" ++ tid)) name2.
Proof.
  intros Hn H. apply (f_equal length) in H.
  rewrite !path_of_length, !safe_id_length, length_app in H.
  change (length (lit "tenders/")) with 8%nat in H. lia.
Qed.

Lemma ingest_ok fs fs' local tender_id resp :
  ingest local fs tender_id = (fs', Ok resp) ->
  faiss_available = true
  /\ ir_tender_id resp = normalize_id local tender_id
  /\ exists data row rows,
       download (normalize_id local tender_id) = Returns data
       /\ embed_texts (map text (ingest_pdf_bytes data)) = row :: rows
       /\ ir_chunks resp = len (ingest_pdf_bytes data)
       /\ fs' = <[index_path index_root (normalize_id local tender_id) :=
                    IndexFile (mkIndex (len row) (map normalize_L2 (row :: rows)))]>
                (<[chunks_path index_root (normalize_id local tender_id) :=
                     ChunksJson (ingest_pdf_bytes data)]> fs).
Proof.
  unfold ingest_tender. set (nid := normalize_id local tender_id).
  destruct (download nid) as [data|]; [|done].
  unfold save_index. destruct faiss_available; [|done]. cbn [negb].
  destruct (embed_texts _) as [|row rows] eqn:Ee; [done|].
  unfold shape1. destruct (forallb _ rows); [|done].
  intros [= <- <-]. split; [done|]. split; [done|].
  exists data, row, rows. now rewrite Ee.
Qed.

(** X25.  With the local backend, [ingest_tender] files the index of an
    identifier that has no slash under [tenders/] followed by it, and
    [ask_question] does not: after a successful ingest under such an
    identifier, the index loads under the identifier of the response, and a
    question asked under the identifier that was passed in is answered
    [Index not found. Please ingest first.] unless an index had been
    stored under that very name before. *)
Theorem bare_id_ingest_then_ask (fs fs' : store) (tender_id question : str)
    (resp : IngestResponse) :
  47%N ∉ tender_id ->
  fs !! chunks_path index_root tender_id = None ->
  ingest true fs tender_id = (fs', Ok resp) ->
  ir_tender_id resp = lit "tenders/" ++ tender_id
  /\ (exists chunks index,
        load_index faiss_available fs' index_root (ir_tender_id resp)
        = inr (chunks, index)
        /\ len chunks = ir_chunks resp)
  /\ ask faiss_available fs' tender_id question = Ok (mkQA index_not_found []).
Proof.
  intros Hbare Hnone Hing.
  apply ingest_ok in Hing as (Hfa & Hid & data & row & rows & Hd & He & Hn & ->).
  assert (normalize_id true tender_id = lit "tenders/" ++ tender_id) as Hnid.
  { unfold normalize_id. now rewrite bool_decide_eq_false_2. }
  rewrite Hnid in *. rewrite Hid, Hfa. split; [done|]. split.
  - eexists _, _. split; [|symmetry; exact Hn].
    unfold load_index. cbn [negb].
    rewrite lookup_insert_ne by (intros E; symmetry in E; now apply paths_differ in E).
    now rewrite !lookup_insert_eq.
  - unfold ask_question, load_index. cbn [negb].
    assert (forall (f : file) (m : store) name,
              length name = 11%nat ->
              <[path_of index_root (_safe_id (lit "tenders/" ++ tender_id)) name := f]> m
                !! chunks_path index_root tender_id
              = m !! chunks_path index_root tender_id) as Hframe.
    { intros f m name Hname. apply lookup_insert_ne. intros E. symmetry in E.
      apply prefixed_paths_differ in E; [done|now rewrite Hname]. }
    unfold index_path at 1, chunks_path at 2.
    rewrite !Hframe by reflexivity. now rewrite Hnone.
Qed.

(** X26.  When the identifier is one [ingest_tender] leaves as it is (it
    has a slash, or the backend is not the local one), a question asked
    after a successful ingest is answered from what was ingested: the
    handler loads the chunks of the ingest, never reports a missing index,
    and every citation of its response is the citation of one of those
    chunks. *)
Theorem ingest_then_ask_same_id (fs fs' : store) (local : bool)
    (tender_id question : str) (resp : IngestResponse) :
  normalize_id local tender_id = tender_id ->
  ingest local fs tender_id = (fs', Ok resp) ->
  exists data,
    download tender_id = Returns data
    /\ (exists index,
          load_index faiss_available fs' index_root tender_id
          = inr (ingest_pdf_bytes data, index))
    /\ (forall r,
          ask faiss_available fs' tender_id question = Ok r ->
          answer r <> []
          /\ Forall (fun ci => exists c, c ∈ ingest_pdf_bytes data /\ cites ci c)
                    (citations r)).
Proof.
  intros Hsame Hing.
  apply ingest_ok in Hing as (Hfa & Hid & data & row & rows & Hd & He & Hn & ->).
  rewrite Hsame in *. exists data. split; [done|].
  assert (load_index faiss_available
            (<[index_path index_root tender_id :=
                 IndexFile (mkIndex (len row) (map normalize_L2 (row :: rows)))]>
             (<[chunks_path index_root tender_id :=
                  ChunksJson (ingest_pdf_bytes data)]> fs))
            index_root tender_id
          = inr (ingest_pdf_bytes data,
                 mkIndex (len row) (map normalize_L2 (row :: rows)))) as Hload.
  { rewrite Hfa. unfold load_index. cbn [negb].
    rewrite lookup_insert_ne by (intros E; symmetry in E; now apply paths_differ in E).
    now rewrite !lookup_insert_eq. }
  split; [eexists; exact Hload|].
  intros r Hr. exact (ask_loaded _ _ _ _ _ _ Hload Hr).
Qed.

End HandlerProps.

Lemma ask_question_outcomes_witness :
  App.ask_question true (lit "idx") 5 None (lit "llama3-70b-8192") search_first_two
    groq_down re_sub_id re_search_no ∅ (lit "a.pdf") (lit "What is the EMD?")
  = App.Ok (App.mkQA App.index_not_found []).
Proof.
  apply (ask_question_outcomes true (lit "idx") 5 None (lit "llama3-70b-8192")
           search_first_two groq_down re_sub_id re_search_no ∅ (lit "a.pdf")
           (lit "What is the EMD?")).
  left. apply lookup_empty.
Defined.

Lemma bare_id_ingest_then_ask_witness :
  App.ask_question true (lit "idx") 5 None (lit "llama3-70b-8192") search_first_two
    groq_down re_sub_id re_search_no
    (fst (App.ingest_tender true id (lit "idx") true unit download_ok ingest_two
            embed_pairs ∅ (lit "a.pdf")))
    (lit "a.pdf") (lit "What is the EMD?")
  = App.Ok (App.mkQA App.index_not_found []).
Proof.
  apply (bare_id_ingest_then_ask true id (lit "idx") 5 None (lit "llama3-70b-8192")
           search_first_two groq_down re_sub_id re_search_no unit download_ok
           ingest_two embed_pairs ∅ _ (lit "a.pdf") (lit "What is the EMD?")
           (App.mkIngest (lit "tenders/a.pdf") 2 2)).
  - vm_compute. intros H. apply list_elem_of_In in H. simpl in H.
    repeat (destruct H as [H|H]; [discriminate H|]). exact H.
  - apply lookup_empty.
  - vm_compute. reflexivity.
Defined.

Lemma ingest_then_ask_same_id_witness :
  exists data,
    download_ok (lit "tenders/a.pdf") = Returns data
    /\ (exists index,
          IndexStore.load_index true
            (fst (App.ingest_tender true id (lit "idx") true unit download_ok
                    ingest_two embed_pairs ∅ (lit "tenders/a.pdf")))
            (lit "idx") (lit "tenders/a.pdf")
          = inr (ingest_two data, index))
    /\ (forall r,
          App.ask_question true (lit "idx") 5 None (lit "llama3-70b-8192")
            search_first_two groq_down re_sub_id re_search_no
            (fst (App.ingest_tender true id (lit "idx") true unit download_ok
                    ingest_two embed_pairs ∅ (lit "tenders/a.pdf")))
            (lit "tenders/a.pdf") (lit "What is the EMD?") = App.Ok r ->
          App.answer r <> []
          /\ Forall (fun ci => exists c, c ∈ ingest_two data /\ cites ci c)
                    (App.citations r)).
Proof.
  apply (ingest_then_ask_same_id true id (lit "idx") 5 None (lit "llama3-70b-8192")
           search_first_two groq_down re_sub_id re_search_no unit download_ok
           ingest_two embed_pairs ∅ _ true (lit "tenders/a.pdf")
           (lit "What is the EMD?") (App.mkIngest (lit "tenders/a.pdf") 2 2)).
  - vm_compute. reflexivity.
  - vm_compute. reflexivity.
Defined.

(** ** [embed_texts]: the local fallback *)

Section EmbedProps.
Import Embeddings.
Variable sha256 : list Z -> list Z.
Variable openai_embed : option str -> str -> list str -> outcome (list (list float)).

Lemma fill_grows pool idxs : forall vals,
  len vals < dim -> Forall is_ratio vals ->
  len vals + Z.min 1 (len idxs) <= len (fill pool idxs vals) <= dim
  /\ Forall is_ratio (fill pool idxs vals).
Proof.
  induction idxs as [|i idxs IH]; intros vals Hlt Hr; cbn [fill].
  - split; [unfold len in *; simpl; lia|done].
  - set (x := ratio (from_bytes_big (slice pool i (i + 4)) mod 100000)).
    assert (Forall is_ratio (vals ++ [x])) as Hr'.
    { apply Forall_app. split; [done|]. constructor; [|constructor].
      eexists. split; [|reflexivity]. apply Z.mod_pos_bound. lia. }
    assert (len (vals ++ [x]) = len vals + 1) as Hlen
      by (rewrite len_app; reflexivity).
    assert (1 <= Z.min 1 (len (i :: idxs)) <= 1) as Hmin
      by (unfold len; simpl; lia).
    destruct (Z.eqb_spec (len (vals ++ [x])) dim) as [E|E].
    + split; [lia|done].
    + destruct (IH (vals ++ [x]) ltac:(lia) Hr') as [Hb Hf].
      split; [|done]. pose proof (len_nonneg idxs). lia.
Qed.

Lemma starts_nonempty n : 0 < n -> 1 <= len (starts n).
Proof.
  intros Hn. unfold starts, len. rewrite length_map, length_seq.
  assert (1 <= (n + 3) / 4) by (apply Z.div_le_lower_bound; lia). lia.
Qed.

Lemma expand_returns :
  (forall b, sha256 b <> []) ->
  forall fuel pool vals,
  len vals <= dim -> dim - len vals <= Z.of_nat fuel -> Forall is_ratio vals ->
  exists r, expand sha256 fuel pool vals = Some r
            /\ len r = dim /\ Forall is_ratio r.
Proof.
  intros Hsha. induction fuel as [|fuel IH]; intros pool vals Hle Hfuel Hr;
    cbn [expand]; destruct (Z.leb_spec dim (len vals)) as [Hd|Hd].
  - exists vals. repeat split; [lia|done].
  - lia.
  - exists vals. repeat split; [lia|done].
  - assert (1 <= len (starts (len (sha256 pool)))) as Hs.
    { apply starts_nonempty. specialize (Hsha pool).
      destruct (sha256 pool); [done|unfold len; simpl; lia]. }
    destruct (fill_grows (sha256 pool) (starts (len (sha256 pool))) vals Hd Hr)
      as [Hb Hf].
    apply IH; [lia|lia|done].
Qed.

Lemma encode_char_None c : encode_char c = None <-> is_surrogate c.
Proof.
  unfold encode_char, is_surrogate. cbv zeta.
  destruct (Z.ltb_spec (Z.of_N c) 128); [split; [done|lia]|].
  destruct (Z.ltb_spec (Z.of_N c) 2048); [split; [done|lia]|].
  destruct (Z.leb_spec 55296 (Z.of_N c)), (Z.leb_spec (Z.of_N c) 57343);
    cbn [andb]; try (split; [done|lia]);
    destruct (Z.ltb_spec (Z.of_N c) 65536); split; try done; lia.
Qed.

Lemma encode_utf8_None t : encode_utf8 t = None <-> has_surrogate t.
Proof.
  unfold has_surrogate. induction t as [|c t IH]; cbn [encode_utf8].
  - split; [done|]. intros H. inversion H.
  - rewrite Exists_cons, <- IH, <- encode_char_None.
    destruct (encode_char c); [|tauto].
    destruct (encode_utf8 t); split; intros H; try discriminate H; try tauto.
    destruct H as [H|H]; discriminate H.
Qed.

Lemma embed_local_outcomes :
  (forall b, sha256 b <> []) ->
  forall fuel texts, (384 <= fuel)%nat ->
  exists r,
    embed_local sha256 fuel texts = Some r
    /\ ((r = Raises /\ Exists has_surrogate texts)
        \/ (exists vecs,
              r = Returns vecs
              /\ Forall (fun t => ~ has_surrogate t) texts
              /\ length vecs = length texts
              /\ Forall (fun v => len v = 384 /\ Forall is_ratio v) vecs)).
Proof.
  intros Hsha fuel texts Hfuel.
  induction texts as [|t texts (r & Hr & Hcases)]; cbn [embed_local].
  - exists (Returns []). split; [done|]. right. exists [].
    repeat split; constructor.
  - destruct (encode_utf8 t) as [b|] eqn:Eb.
    + assert (~ has_surrogate t) as Ht
        by (rewrite <- encode_utf8_None, Eb; discriminate).
      destruct (expand_returns Hsha fuel (sha256 b) [])
        as (vals & Hvals & Hlen & Hrat); [unfold len, dim; simpl; lia
                                         |unfold len, dim; simpl; lia|constructor|].
      rewrite Hvals, Hr.
      destruct Hcases as [[-> Hex] | (vecs & -> & Hno & Hn & Hall)].
      * exists Raises. split; [done|]. left. split; [done|]. now apply Exists_cons_tl.
      * exists (Returns (vals :: vecs)). split; [done|]. right. exists (vals :: vecs).
        split; [done|]. split; [now constructor|].
        split; [simpl; now rewrite Hn|]. now constructor.
    + exists Raises. split; [done|]. left. split; [done|].
      apply Exists_cons_hd. now apply encode_utf8_None.
Qed.

(** X27.  For enough fuel [embed_texts] ends (the loops of the fallback
    end, a digest never being empty) in one of three ways.  It returns the
    embeddings the OpenAI client gave, the provider being ["openai"].  Or it
    is in the local fallback and raises the [UnicodeEncodeError] of
    [t.encode('utf-8')], some text holding a surrogate.  Or it is in the
    local fallback, no text holds a surrogate, and it returns one vector
    for every text, each of exactly 384 values of the form [n / 100000.0]
    with [0 <= n < 100000]; for at least one text these are a matrix whose
    second dimension is 384. *)
Theorem embed_texts_outcomes (fuel : nat) (texts : list str)
    (provider model : str) (openai_api_key : option str) :
  (forall b, sha256 b <> []) ->
  (384 <= fuel)%nat ->
  exists r,
    embed_texts sha256 openai_embed fuel texts provider model openai_api_key
    = Some r
    /\ ((exists vecs,
           provider = lit "openai"
           /\ openai_embed openai_api_key model texts = Returns vecs
           /\ r = Returns vecs)
        \/ (r = Raises /\ Exists has_surrogate texts)
        \/ (exists vecs,
              r = Returns vecs
              /\ Forall (fun t => ~ has_surrogate t) texts
              /\ length vecs = length texts
              /\ Forall (fun v => len v = 384 /\ Forall is_ratio v) vecs
              /\ (texts <> [] -> IndexStore.shape1 vecs = inr 384))).
Proof.
  intros Hsha Hfuel.
  destruct (embed_local_outcomes Hsha fuel texts Hfuel) as (r & Hr & Hcases).
  assert (exists r,
             embed_local sha256 fuel texts = Some r
             /\ ((r = Raises /\ Exists has_surrogate texts)
                 \/ (exists vecs,
                       r = Returns vecs
                       /\ Forall (fun t => ~ has_surrogate t) texts
                       /\ length vecs = length texts
                       /\ Forall (fun v => len v = 384 /\ Forall is_ratio v) vecs
                       /\ (texts <> [] -> IndexStore.shape1 vecs = inr 384))))
    as (r' & Hr' & Hlocal).
  { exists r. split; [done|].
    destruct Hcases as [H | (vecs & -> & Hno & Hn & Hall)]; [now left|].
    right. exists vecs. repeat split; try done.
    intros Ht. destruct vecs as [|row rows]; [destruct texts; done|].
    apply Forall_cons in Hall as [[Hrow _] Hrows]. unfold IndexStore.shape1.
    rewrite Hrow.
    replace (forallb (fun r => len r =? 384) rows) with true; [done|].
    symmetry. apply forallb_forall. intros v Hin%list_elem_of_In.
    rewrite Forall_forall in Hrows. apply Z.eqb_eq. now apply Hrows. }
  unfold embed_texts, str_eqb. case_bool_decide as Hp.
  - destruct (openai_embed openai_api_key model texts) as [e|] eqn:Eo.
    + exists (Returns e). split; [done|]. left. now exists e.
    + exists r'. split; [done|]. now right.
  - exists r'. split; [done|]. now right.
Qed.

End EmbedProps.

Lemma embed_texts_outcomes_witness :
  exists r,
    Embeddings.embed_texts sha256_sevens openai_down 384
      [lit "EMD is 2%"] (lit "openai") (lit "text-embedding-3-small") None
    = Some r
    /\ ((exists vecs,
           lit "openai" = lit "openai"
           /\ openai_down None (lit "text-embedding-3-small") [lit "EMD is 2%"]
              = Returns vecs
           /\ r = Returns vecs)
        \/ (r = Raises /\ Exists has_surrogate [lit "EMD is 2%"])
        \/ (exists vecs,
              r = Returns vecs
              /\ Forall (fun t => ~ has_surrogate t) [lit "EMD is 2%"]
              /\ length vecs = length [lit "EMD is 2%"]
              /\ Forall (fun v => len v = 384 /\ Forall is_ratio v) vecs
              /\ ([lit "EMD is 2%"] <> [] -> IndexStore.shape1 vecs = inr 384))).
Proof.
  apply (embed_texts_outcomes sha256_sevens openai_down 384
           [lit "EMD is 2%"] (lit "openai") (lit "text-embedding-3-small") None).
  - intros b. unfold sha256_sevens. simpl. discriminate.
  - lia.
Defined.

(** A text that is one lone surrogate: the fallback raises. *)
Example embed_texts_lone_surrogate :
  Embeddings.embed_texts sha256_sevens openai_down 384 [[55296%N]]
    (lit "local") (lit "text-embedding-3-small") None
  = Some Raises.
Proof. vm_compute. reflexivity. Qed.

(** ** [docling_to_chunks]: the document title in every section hint *)

Section DocumentTitle.
Import Docling.
Variable repr_str : str -> str.
Variable repr_float : float -> str.
Variable json_loads : str -> option pyval.

(** X28.  When the structure of the document is a dict with a title,
    every chunk [docling_to_chunks] returns has a section hint, and the
    hint starts with that title. *)
Theorem chunks_under_document_title (doc : docobj) (d : list (str * pyval))
    (t : str) (max_chars overlap : Z) (cs : list Chunk) :
  _docling_to_json json_loads doc = PDict d ->
  first_stripped [lit "title"; lit "heading"; lit "name"] d = Some t ->
  docling_to_chunks repr_str repr_float json_loads doc max_chars overlap = Some cs ->
  Forall (hint_from t) cs.
Proof.
  intros Hraw Ht. unfold docling_to_chunks. rewrite Hraw. unfold collect_spans.
  destruct (_iter_text_nodes repr_str repr_float (PDict d) []) as [[spans st]|] eqn:E;
    [|done].
  intros [= <-].
  pose proof (walker_dict_paths repr_str repr_float d [] spans st) as Hp.
  cbv zeta in Hp. rewrite Ht in Hp. specialize (Hp ltac:(done) E).
  set (kept := filter (fun sp => span_text sp <> []) spans).
  assert (Forall (tagged_in kept)
            (flush_state (merge_loop 0 kept max_chars overlap init_state)))
    as Htag.
  { apply flush_state_tagged. apply merge_loop_tagged.
    - now apply Forall_forall.
    - split; [constructor|now left]. }
  apply Forall_forall. intros c Hc.
  rewrite Forall_forall in Htag. apply Htag in Hc as (sp & Hsp & Hhint & _).
  apply list_elem_of_filter in Hsp as [_ Hsp].
  rewrite Forall_forall in Hp. destruct (Hp sp Hsp) as (p & Hpath & Hpre).
  exists p. split; [congruence|exact Hpre].
Qed.

End DocumentTitle.

Lemma chunks_under_document_title_witness :
  exists cs,
    Docling.docling_to_chunks repr_str_quoted repr_float_zero json_loads_tiny
      small_doc 2500 200 = Some cs
    /\ cs <> [] /\ Forall (hint_from (lit "Scope")) cs.
Proof.
  destruct (Docling.docling_to_chunks repr_str_quoted repr_float_zero json_loads_tiny
              small_doc 2500 200) as [cs|] eqn:E; [|vm_compute in E; discriminate E].
  exists cs. split; [reflexivity|]. split.
  - intros ->. vm_compute in E. discriminate E.
  - eapply (chunks_under_document_title repr_str_quoted repr_float_zero
              json_loads_tiny small_doc _ (lit "Scope") 2500 200 cs);
      [vm_compute; reflexivity|vm_compute; reflexivity|exact E].
Defined.
